(** * dev-tools: PHP-array parser, DDL parser and JSON differ

    A shallow embedding of the three text-processing libraries of the
    repository,

      - [src/lib/json-diff.ts]   (module [JsonDiff]),
      - [src/lib/ddl-parser.ts]  (module [Ddl]),
      - [src/lib/php-parser.ts]  (module [Php]),

    followed by the properties stated about them (modules [Termination],
    [JsonDiffFacts], [DdlFacts] and [PhpFacts]).

    Conventions of the embedding.

    - A JavaScript string is a [string]: a sequence of code units, here
      restricted to the code units below 256.
    - A regular expression of the source is a term of [Regex.regex], run by
      a backtracking matcher with the priorities of the host.
    - A JavaScript number is a [JsNumber]: an exact decimal fraction, or one
      of [NaN], [+Infinity], [-Infinity].  Binary rounding of IEEE doubles is
      not part of the model.
    - A JavaScript object used as a record of own properties is an
      association list kept in the order of [Object.keys]; its keys are
      pairwise distinct ([uniqueKeys]).  Property reads see own properties
      only: the names that the host resolves through [Object.prototype]
      ([constructor], [__proto__], ...) are not used as keys.
    - A function that may throw returns a [Result].
    - A loop of the source that moves a cursor is a recursion on the input
      when that is structural, and on a counter otherwise; module
      [Termination] shows that the counters are large enough. *)

From Stdlib Require Import List String Ascii Bool Arith ZArith NArith Lia.
From Stdlib Require Import DecimalString Permutation.
Import ListNotations.

Local Open Scope string_scope.
Local Open Scope list_scope.
Local Open Scope nat_scope.

(** String concatenation, the [+] of the host language on strings. *)
Infix "+++" := String.append (right associativity, at level 60).

(* ================================================================== *)
(** ** Characters and strings of the host language *)

Module Js.

Definition chr (n : nat) : ascii := ascii_of_nat n.
Definition code (c : ascii) : nat := nat_of_ascii c.

Definition DQUOTE : ascii := chr 34.
Definition SQUOTE : ascii := chr 39.
Definition BACKSLASH : ascii := chr 92.
Definition BACKTICK : ascii := chr 96.
Definition LF : ascii := chr 10.
Definition CR : ascii := chr 13.
Definition TAB : ascii := chr 9.

(** One-character string. *)
Definition str1 (c : ascii) : string := String c EmptyString.

Definition inRange (lo hi : nat) (c : ascii) : bool :=
  (lo <=? code c) && (code c <=? hi).

(** [\d], [\w] and [\s] of a regular expression without the [u] flag. *)
Definition isDigit (c : ascii) : bool := inRange 48 57 c.
Definition isUpper (c : ascii) : bool := inRange 65 90 c.
Definition isLower (c : ascii) : bool := inRange 97 122 c.
Definition isAlpha (c : ascii) : bool := isUpper c || isLower c.
Definition isWord (c : ascii) : bool :=
  isAlpha c || isDigit c || (code c =? 95).
Definition isSpace (c : ascii) : bool :=
  inRange 9 13 c || (code c =? 32) || (code c =? 160).
Definition isLineTerminator (c : ascii) : bool :=
  (code c =? 10) || (code c =? 13).

(** Case mapping of the letters A to Z; the source changes the case of
    words made of ASCII letters, digits and underscores only. *)
Definition toLowerChar (c : ascii) : ascii :=
  if isUpper c then chr (code c + 32) else c.
Definition toUpperChar (c : ascii) : ascii :=
  if isLower c then chr (code c - 32) else c.

Fixpoint mapStr (f : ascii -> ascii) (s : string) : string :=
  match s with
  | EmptyString => EmptyString
  | String c s' => String (f c) (mapStr f s')
  end.

Definition toLowerCase : string -> string := mapStr toLowerChar.
Definition toUpperCase : string -> string := mapStr toUpperChar.

Fixpoint allStr (p : ascii -> bool) (s : string) : bool :=
  match s with
  | EmptyString => true
  | String c s' => p c && allStr p s'
  end.

Fixpoint dropWhile (p : ascii -> bool) (s : string) : string :=
  match s with
  | EmptyString => EmptyString
  | String c s' => if p c then dropWhile p s' else s
  end.

Fixpoint revStr (acc s : string) : string :=
  match s with
  | EmptyString => acc
  | String c s' => revStr (String c acc) s'
  end.

(** [String.prototype.trim]. *)
Definition trim (s : string) : string :=
  revStr EmptyString
    (dropWhile isSpace (revStr EmptyString (dropWhile isSpace s))).

Fixpoint take (n : nat) (s : string) : string :=
  match n, s with
  | S n', String c s' => String c (take n' s')
  | _, _ => EmptyString
  end.

Fixpoint drop (n : nat) (s : string) : string :=
  match n, s with
  | S n', String _ s' => drop n' s'
  | _, _ => s
  end.

Fixpoint lastChar (d : option ascii) (s : string) : option ascii :=
  match s with
  | EmptyString => d
  | String c s' => lastChar (Some c) s'
  end.

(** [s.startsWith(p)], returning the remainder. *)
Fixpoint stripPrefix (p s : string) : option string :=
  match p with
  | EmptyString => Some s
  | String a p' =>
      match s with
      | String b s' => if Ascii.eqb a b then stripPrefix p' s' else None
      | EmptyString => None
      end
  end.

(** [s.includes(sub)] *)
Fixpoint includes (sub s : string) : bool :=
  match stripPrefix sub s with
  | Some _ => true
  | None =>
      match s with
      | EmptyString => false
      | String _ s' => includes sub s'
      end
  end.

(** [s.split(sep)] for a one-character separator. *)
Fixpoint splitChar (sep : ascii) (cur : string) (s : string) : list string :=
  match s with
  | EmptyString => [revStr EmptyString cur]
  | String c s' =>
      if Ascii.eqb c sep
      then revStr EmptyString cur :: splitChar sep EmptyString s'
      else splitChar sep (String c cur) s'
  end.

Definition split (sep : ascii) (s : string) : list string :=
  splitChar sep EmptyString s.

(** [xs.join(sep)]. *)
Fixpoint join (sep : string) (xs : list string) : string :=
  match xs with
  | [] => EmptyString
  | [x] => x
  | x :: xs' => x +++ sep +++ join sep xs'
  end.

(** [s.repeat(n)]. *)
Fixpoint repeat (s : string) (n : nat) : string :=
  match n with
  | 0 => EmptyString
  | S n' => s +++ repeat s n'
  end.

Definition natToString (n : nat) : string :=
  NilZero.string_of_uint (Nat.to_uint n).

Definition ZToString (z : Z) : string :=
  NilZero.string_of_int (Z.to_int z).

(** Truthiness of a string: non-empty. *)
Definition nonEmpty (s : string) : bool :=
  match s with EmptyString => false | _ => true end.

End Js.

(* ================================================================== *)
(** ** Numbers and the generic value tree *)

(** A number is an exact decimal [mant * 10^(-scale)], or one of the three
    non-finite values. *)
Inductive JsNumber : Type :=
| Finite (mant : Z) (scale : nat)
| NaN
| PosInfinity
| NegInfinity.

Module Num.

Definition pow10 (n : nat) : Z := Z.pow 10 (Z.of_nat n).

(** Strict equality [===] on numbers: [NaN] differs from everything. *)
Definition eqb (a b : JsNumber) : bool :=
  match a, b with
  | Finite m1 s1, Finite m2 s2 => Z.eqb (m1 * pow10 s2)%Z (m2 * pow10 s1)%Z
  | PosInfinity, PosInfinity => true
  | NegInfinity, NegInfinity => true
  | _, _ => false
  end.

Definition isFinite (a : JsNumber) : bool :=
  match a with Finite _ _ => true | _ => false end.

Definition ofZ (z : Z) : JsNumber := Finite z 0.

(** Drop trailing zeros of the fraction. *)
Fixpoint normalize (m : Z) (s : nat) : Z * nat :=
  match s with
  | 0 => (m, 0)
  | S s' => if Z.eqb (Z.modulo m 10) 0 then normalize (Z.div m 10) s'
            else (m, s)
  end.

Definition padLeft (n : nat) (s : string) : string :=
  Js.repeat "0" (n - String.length s) +++ s.

(** [Number.prototype.toString] in the range where the host prints plain
    decimal notation (magnitude in [1e-6, 1e21), or zero). *)
Definition toString (a : JsNumber) : string :=
  match a with
  | NaN => "NaN"
  | PosInfinity => "Infinity"
  | NegInfinity => "-Infinity"
  | Finite m s =>
      let '(m', s') := normalize m s in
      let sign := if Z.ltb m' 0 then "-" else EmptyString in
      let a' := Z.abs m' in
      let ip := Js.ZToString (Z.div a' (pow10 s')) in
      match s' with
      | 0 => sign +++ ip
      | _ => sign +++ ip +++ "." +++
             padLeft s' (Js.ZToString (Z.modulo a' (pow10 s')))
      end
  end.

Definition digitVal (c : ascii) : Z := Z.of_nat (Js.code c - 48).

(** Leading run of decimal digits: its value, its length, the rest. *)
Fixpoint readDigits (acc : Z) (n : nat) (s : string) : Z * nat * string :=
  match s with
  | String c s' =>
      if Js.isDigit c then readDigits (acc * 10 + digitVal c)%Z (S n) s'
      else (acc, n, s)
  | EmptyString => (acc, n, s)
  end.

(** [parseFloat] on the longest prefix of the shape
    [-?digits(.digits)?] (no exponent part is read). *)
Definition parseFloat (s : string) : JsNumber :=
  let s0 := Js.dropWhile Js.isSpace s in
  let '(neg, s1) :=
    match s0 with
    | String c r => if Ascii.eqb c "-" then (true, r)
                    else if Ascii.eqb c "+" then (false, r) else (false, s0)
    | EmptyString => (false, s0)
    end in
  let '(ip, ni, s2) := readDigits 0%Z 0 s1 in
  let '(fp, nf) :=
    match s2 with
    | String c r =>
        if Ascii.eqb c "." then
          let '(f, n, _) := readDigits 0%Z 0 r in (f, n)
        else (0%Z, 0)
    | EmptyString => (0%Z, 0)
    end in
  match ni + nf with
  | 0 => NaN
  | _ => let m := (ip * pow10 nf + fp)%Z in
         Finite (if neg then Z.opp m else m) nf
  end.

End Num.

#[local] Set Warnings "-register-all".

(** The generic value tree shared by the PHP converter ([PHPValue]) and the
    differ ([JsonValue]). *)
Inductive Value : Type :=
| VNull
| VBool (b : bool)
| VNumber (n : JsNumber)
| VString (s : string)
| VArray (items : list Value)
| VObject (props : list (string * Value)).

Definition PHPValue := Value.
Definition JsonValue := Value.

(** Induction over values that reaches inside arrays and objects. *)
Section ValueInd.
Variable P : Value -> Prop.
Hypothesis Hnull : P VNull.
Hypothesis Hbool : forall b, P (VBool b).
Hypothesis Hnum : forall n, P (VNumber n).
Hypothesis Hstr : forall s, P (VString s).
Hypothesis Harr : forall items, Forall P items -> P (VArray items).
Hypothesis Hobj :
  forall props, Forall (fun kv => P (snd kv)) props -> P (VObject props).

Fixpoint Value_deep_ind (v : Value) : P v :=
  match v with
  | VNull => Hnull
  | VBool b => Hbool b
  | VNumber n => Hnum n
  | VString s => Hstr s
  | VArray items =>
      Harr items
        ((fix go (l : list Value) : Forall P l :=
            match l with
            | [] => Forall_nil _
            | x :: l' => Forall_cons x (Value_deep_ind x) (go l')
            end) items)
  | VObject props =>
      Hobj props
        ((fix go (l : list (string * Value))
            : Forall (fun kv => P (snd kv)) l :=
            match l with
            | [] => Forall_nil _
            | kv :: l' =>
                Forall_cons kv (Value_deep_ind (snd kv)) (go l')
            end) props)
  end.
End ValueInd.

(** Own-property access on the association-list view of an object. *)
Module Obj.

Definition keys {A} (o : list (string * A)) : list string := map fst o.

Fixpoint get {A} (k : string) (o : list (string * A)) : option A :=
  match o with
  | [] => None
  | (k', v) :: o' => if String.eqb k k' then Some v else get k o'
  end.

Definition has {A} (k : string) (o : list (string * A)) : bool :=
  match get k o with Some _ => true | None => false end.

Fixpoint includes (k : string) (ks : list string) : bool :=
  match ks with
  | [] => false
  | k' :: ks' => String.eqb k k' || includes k ks'
  end.

Fixpoint distinct (ks : list string) : bool :=
  match ks with
  | [] => true
  | k :: ks' => negb (includes k ks') && distinct ks'
  end.

(** The integer of a key that is an array index: a decimal numeral without
    a leading zero, below [2^32 - 1]. *)
Definition arrayIndex (k : string) : option Z :=
  match k with
  | EmptyString => None
  | String c r =>
      if Js.allStr Js.isDigit k
         && (negb (Ascii.eqb c "0") || negb (Js.nonEmpty r))
      then
        let '(n, _, _) := Num.readDigits 0%Z 0 k in
        if (n <? 4294967295)%Z then Some n else None
      else None
  end.

Fixpoint insertIndex {A} (i : Z) (k : string) (v : A)
  (o : list (string * A)) : list (string * A) :=
  match o with
  | [] => [(k, v)]
  | (k', v') :: o' =>
      match arrayIndex k' with
      | Some j => if (j <? i)%Z then (k', v') :: insertIndex i k v o'
                  else (k, v) :: o
      | None => (k, v) :: o
      end
  end.

Fixpoint replaceKey {A} (k : string) (v : A) (o : list (string * A))
  : list (string * A) :=
  match o with
  | [] => []
  | (k', v') :: o' =>
      if String.eqb k k' then (k, v) :: o' else (k', v') :: replaceKey k v o'
  end.

(** [o[k] = v]: an existing key keeps its place; a new key that is an array
    index goes among the indices, in ascending order, before all other
    keys; any other new key goes last. *)
Definition set {A} (k : string) (v : A) (o : list (string * A))
  : list (string * A) :=
  if has k o then replaceKey k v o
  else match arrayIndex k with
       | Some i => insertIndex i k v o
       | None => o ++ [(k, v)]
       end.

Definition values {A} (o : list (string * A)) : list A := map snd o.

End Obj.

(** Keys pairwise distinct at every object of the tree. *)
Fixpoint uniqueKeys (v : Value) : bool :=
  match v with
  | VArray items => forallb uniqueKeys items
  | VObject props =>
      Obj.distinct (Obj.keys props) &&
      forallb (fun kv => uniqueKeys (snd kv)) props
  | _ => true
  end.

(** Every number of the tree is finite, as in the result of [JSON.parse]. *)
Fixpoint finiteNumbers (v : Value) : bool :=
  match v with
  | VNumber n => Num.isFinite n
  | VArray items => forallb finiteNumbers items
  | VObject props => forallb (fun kv => finiteNumbers (snd kv)) props
  | _ => true
  end.

(** A value that [JSON.parse] can return. *)
Definition isJson (v : Value) : bool := uniqueKeys v && finiteNumbers v.

(* ================================================================== *)
(** ** The JSON differ ([src/lib/json-diff.ts]) *)

Module JsonDiff.

Inductive DiffMode : Type := strict | loose.

Inductive DiffType : Type :=
| added | removed | modified | unchanged | order_changed.

Record DiffItem : Type := mkDiffItem {
  path : string;
  type : DiffType;
  oldValue : option JsonValue;
  newValue : option JsonValue;
  oldIndex : option Z;
  newIndex : option Z
}.

(** The fields [isEqual] and [diffs] of the source's [DiffResult]; the name
    [isEqual] is kept for the source's function of that name. *)
Record DiffResult : Type := mkDiffResult {
  res_isEqual : bool;
  res_diffs : list DiffItem
}.

(** The strings returned by [getValueType]. *)
Inductive TypeTag : Type :=
| T_null | T_array | T_object | T_string | T_number | T_boolean.

Definition tagEqb (a b : TypeTag) : bool :=
  match a, b with
  | T_null, T_null | T_array, T_array | T_object, T_object
  | T_string, T_string | T_number, T_number | T_boolean, T_boolean => true
  | _, _ => false
  end.

Definition getValueType (value : JsonValue) : TypeTag :=
  match value with
  | VNull => T_null
  | VArray _ => T_array
  | VObject _ => T_object
  | VString _ => T_string
  | VNumber _ => T_number
  | VBool _ => T_boolean
  end.

(** [arr[key]] for a property key: an index below the length, or [length]. *)
Fixpoint arrayGetFrom (key : string) (i : nat) (arr : list Value)
  : option Value :=
  match arr with
  | [] => None
  | x :: arr' =>
      if String.eqb key (Js.natToString i) then Some x
      else arrayGetFrom key (S i) arr'
  end.

Definition arrayGet (key : string) (arr : list Value) : option Value :=
  if String.eqb key "length"
  then Some (VNumber (Num.ofZ (Z.of_nat (List.length arr))))
  else arrayGetFrom key 0 arr.

(** [isEqual(a, b)] where [b] is [undefined] when absent.  [compareValues]
    applies it to two values of one primitive type only; the array and object
    branches read own properties. *)
Fixpoint isEqual (a : JsonValue) (b : option JsonValue) {struct a} : bool :=
  match b with
  | None => false
  | Some b =>
      match a, b with
      | VNull, VNull => true
      | VNull, _ => false
      | _, VNull => false
      | VArray xs, VArray ys =>
          (List.length xs =? List.length ys) &&
          (fix every (xs : list Value) (index : nat) : bool :=
             match xs with
             | [] => true
             | item :: xs' =>
                 isEqual item (nth_error ys index) && every xs' (S index)
             end) xs 0
      | VArray xs, VObject o =>
          (List.length xs =? List.length o) &&
          (fix every (xs : list Value) (index : nat) : bool :=
             match xs with
             | [] => true
             | item :: xs' =>
                 isEqual item (Obj.get (Js.natToString index) o)
                 && every xs' (S index)
             end) xs 0
      | VObject o, VArray ys =>
          (List.length o =? List.length ys) &&
          (fix every (kvs : list (string * Value)) : bool :=
             match kvs with
             | [] => true
             | (key, v) :: kvs' => isEqual v (arrayGet key ys) && every kvs'
             end) o
      | VObject o, VObject o' =>
          (List.length o =? List.length o') &&
          (fix every (kvs : list (string * Value)) : bool :=
             match kvs with
             | [] => true
             | (key, v) :: kvs' => isEqual v (Obj.get key o') && every kvs'
             end) o
      | VBool x, VBool y => Bool.eqb x y
      | VNumber x, VNumber y => Num.eqb x y
      | VString x, VString y => String.eqb x y
      | _, _ => false
      end
  end.

Definition push (diffs : list DiffItem) (d : DiffItem) : list DiffItem :=
  diffs ++ [d].

(** [path || '(root)']. *)
Definition orRoot (path : string) : string :=
  if Js.nonEmpty path then path else "(root)".

Definition modifiedItem (p : string) (o n : JsonValue) : DiffItem :=
  mkDiffItem p modified (Some o) (Some n) None None.
Definition removedItem (p : string) (o : JsonValue) : DiffItem :=
  mkDiffItem p removed (Some o) None None None.
Definition addedItem (p : string) (n : JsonValue) : DiffItem :=
  mkDiffItem p added None (Some n) None None.
Definition orderItem (p : string) (i j : Z) : DiffItem :=
  mkDiffItem p order_changed None None (Some i) (Some j).

(** [basePath ? `${basePath}.${key}` : key]. *)
Definition keyPath (basePath key : string) : string :=
  if Js.nonEmpty basePath then basePath +++ "." +++ key else key.

(** [`${basePath}[${i}]`]. *)
Definition indexPath (basePath : string) (i : nat) : string :=
  basePath +++ "[" +++ Js.natToString i +++ "]".

(** [Array.prototype.indexOf]: [-1] when absent. *)
Fixpoint indexOf (k : string) (ks : list string) : Z :=
  match ks with
  | [] => (-1)%Z
  | k' :: ks' =>
      if String.eqb k k' then 0%Z
      else let r := indexOf k ks' in
           if (r <? 0)%Z then (-1)%Z else (r + 1)%Z
  end.

(** [Array.prototype.sort] with a comparator: the stable sort. *)
Fixpoint insertBy (cmp : string -> string -> Z) (x : string)
  (l : list string) : list string :=
  match l with
  | [] => [x]
  | y :: l' => if (cmp x y <=? 0)%Z then x :: l else y :: insertBy cmp x l'
  end.

Definition sortBy (cmp : string -> string -> Z) (l : list string)
  : list string :=
  fold_right (insertBy cmp) [] l.

Definition isOrderChanged (t : DiffType) : bool :=
  match t with order_changed => true | _ => false end.

Definition sameKey (a : string) (b : option string) : bool :=
  match b with Some b => String.eqb a b | None => false end.

(** The [for] loop of [checkKeyOrder], from index [i] on; [rest] is
    [oldCommonOrder.slice(i)]. *)
Fixpoint checkKeyOrderLoop (newCommonOrder : list string) (basePath : string)
  (i : nat) (rest : list string) (diffs : list DiffItem) : list DiffItem :=
  match rest with
  | [] => diffs
  | key :: rest' =>
      let diffs' :=
        if negb (sameKey key (nth_error newCommonOrder i)) then
          let newPosition := indexOf key newCommonOrder in
          if negb (Z.eqb (Z.of_nat i) newPosition) then
            let currentPath := keyPath basePath key in
            let alreadyAdded :=
              existsb (fun d => String.eqb (path d) currentPath
                                && isOrderChanged (type d)) diffs in
            if negb alreadyAdded
            then push diffs (orderItem currentPath (Z.of_nat i) newPosition)
            else diffs
          else diffs
        else diffs in
      checkKeyOrderLoop newCommonOrder basePath (S i) rest' diffs'
  end.

Definition checkKeyOrder (oldKeys newKeys : list string) (basePath : string)
  (diffs : list DiffItem) : list DiffItem :=
  let commonKeys := filter (fun key => Obj.includes key newKeys) oldKeys in
  let oldCommonOrder :=
    sortBy (fun a b => (indexOf a oldKeys - indexOf b oldKeys)%Z) commonKeys in
  let newCommonOrder :=
    sortBy (fun a b => (indexOf a newKeys - indexOf b newKeys)%Z) commonKeys in
  checkKeyOrderLoop newCommonOrder basePath 0 oldCommonOrder diffs.

(** [new Set([...oldKeys, ...newKeys])] in iteration order: the old keys,
    then the new keys that are not old keys. *)
Definition allKeys (oldKeys newKeys : list string) : list string :=
  oldKeys ++ filter (fun key => negb (Obj.includes key oldKeys)) newKeys.

(** The iterations of the key loop of [compareObjects] on the keys that the
    old object does not have: each one is [added]. *)
Fixpoint addedKeys (basePath : string) (oldObj newObj : list (string * Value))
  (diffs : list DiffItem) : list DiffItem :=
  match newObj with
  | [] => diffs
  | (key, v) :: newObj' =>
      addedKeys basePath oldObj newObj'
        (if Obj.has key oldObj then diffs
         else push diffs (addedItem (keyPath basePath key) v))
  end.

(** The iterations of the index loop of [compareArrays] past the end of the
    old array: each one is [added]. *)
Fixpoint addedItems (basePath : string) (i : nat) (newArr : list Value)
  (diffs : list DiffItem) : list DiffItem :=
  match newArr with
  | [] => diffs
  | v :: newArr' =>
      addedItems basePath (S i) newArr'
        (push diffs (addedItem (indexPath basePath i) v))
  end.

(** [compareValues], with the loops of [compareObjects] and [compareArrays]
    as local recursions: the key loop visits the keys of the old object in
    order (each is [removed] or compared), then the keys only the new object
    has; the index loop walks both arrays in step. *)
Fixpoint compareValues (oldVal newVal : JsonValue) (path : string)
  (mode : DiffMode) (diffs : list DiffItem) {struct oldVal}
  : list DiffItem :=
  if negb (tagEqb (getValueType oldVal) (getValueType newVal)) then
    push diffs (modifiedItem (orRoot path) oldVal newVal)
  else
    match oldVal, newVal with
    | VObject oldObj, VObject newObj =>
        let diffs0 :=
          match mode with
          | strict =>
              checkKeyOrder (Obj.keys oldObj) (Obj.keys newObj) path diffs
          | loose => diffs
          end in
        let diffs1 :=
          (fix oldKeysLoop (es : list (string * Value))
             (diffs : list DiffItem) : list DiffItem :=
             match es with
             | [] => diffs
             | (key, v) :: es' =>
                 let currentPath := keyPath path key in
                 oldKeysLoop es'
                   (match Obj.get key newObj with
                    | None => push diffs (removedItem currentPath v)
                    | Some v' => compareValues v v' currentPath mode diffs
                    end)
             end) oldObj diffs0 in
        addedKeys path oldObj newObj diffs1
    | VArray oldArr, VArray newArr =>
        (fix indexLoop (os ns : list Value) (i : nat)
           (diffs : list DiffItem) {struct os} : list DiffItem :=
           match os with
           | [] => addedItems path i ns diffs
           | o :: os' =>
               match ns with
               | [] =>
                   indexLoop os' [] (S i)
                     (push diffs (removedItem (indexPath path i) o))
               | n :: ns' =>
                   indexLoop os' ns' (S i)
                     (compareValues o n (indexPath path i) mode diffs)
               end
           end) oldArr newArr 0 diffs
    | _, _ =>
        if negb (isEqual oldVal (Some newVal))
        then push diffs (modifiedItem (orRoot path) oldVal newVal)
        else diffs
    end.

(** The key loop of [compareObjects] over the old object's entries. *)
Fixpoint oldKeysLoop (newObj : list (string * Value)) (basePath : string)
  (mode : DiffMode) (es : list (string * Value)) (diffs : list DiffItem)
  : list DiffItem :=
  match es with
  | [] => diffs
  | (key, v) :: es' =>
      let currentPath := keyPath basePath key in
      oldKeysLoop newObj basePath mode es'
        (match Obj.get key newObj with
         | None => push diffs (removedItem currentPath v)
         | Some v' => compareValues v v' currentPath mode diffs
         end)
  end.

Definition compareObjects (oldObj newObj : list (string * Value))
  (basePath : string) (mode : DiffMode) (diffs : list DiffItem)
  : list DiffItem :=
  let diffs0 :=
    match mode with
    | strict => checkKeyOrder (Obj.keys oldObj) (Obj.keys newObj) basePath diffs
    | loose => diffs
    end in
  addedKeys basePath oldObj newObj
    (oldKeysLoop newObj basePath mode oldObj diffs0).

(** The index loop of [compareArrays], from index [i] on. *)
Fixpoint indexLoop (basePath : string) (mode : DiffMode)
  (os ns : list Value) (i : nat) (diffs : list DiffItem) {struct os}
  : list DiffItem :=
  match os with
  | [] => addedItems basePath i ns diffs
  | o :: os' =>
      match ns with
      | [] =>
          indexLoop basePath mode os' [] (S i)
            (push diffs (removedItem (indexPath basePath i) o))
      | n :: ns' =>
          indexLoop basePath mode os' ns' (S i)
            (compareValues o n (indexPath basePath i) mode diffs)
      end
  end.

Definition compareArrays (oldArr newArr : list Value) (basePath : string)
  (mode : DiffMode) (diffs : list DiffItem) : list DiffItem :=
  indexLoop basePath mode oldArr newArr 0 diffs.

(** The key loop of [compareObjects] as the source writes it, over a list
    of keys: [hasOld], [hasNew] and the three branches.  A key of
    [allKeys] belongs to one of the two objects. *)
Fixpoint keysLoop (oldObj newObj : list (string * Value))
  (basePath : string) (mode : DiffMode) (keys : list string)
  (diffs : list DiffItem) : list DiffItem :=
  match keys with
  | [] => diffs
  | key :: keys' =>
      let currentPath := keyPath basePath key in
      keysLoop oldObj newObj basePath mode keys'
        (match Obj.get key oldObj, Obj.get key newObj with
         | Some o, None => push diffs (removedItem currentPath o)
         | None, Some n => push diffs (addedItem currentPath n)
         | Some o, Some n => compareValues o n currentPath mode diffs
         | None, None => diffs
         end)
  end.

Definition compareJson (oldJson newJson : JsonValue) (mode : DiffMode)
  : DiffResult :=
  let diffs := compareValues oldJson newJson EmptyString mode [] in
  mkDiffResult (match diffs with [] => true | _ => false end) diffs.

End JsonDiff.

(* ================================================================== *)
(** ** Regular expressions of the host language

    A backtracking matcher for the fragment the repository uses: character
    classes, sequence, ordered alternation, greedy and lazy repetition,
    capture groups, the anchors and the word boundary.  The flags are part
    of the expression: [i] is carried by the character tests, [m] by the
    anchors, [g] by the choice of [replaceAll] over [replace]. *)

Module Regex.

Inductive regex : Type :=
| Eps
| Chr (p : ascii -> bool)
| Cat (r1 r2 : regex)
| Alt (r1 r2 : regex)
| Star (greedy : bool) (r : regex)
| Group (n : nat) (r : regex)
| Bol (multiline : bool)
| Eol (multiline : bool)
| WordB.

(** Matcher state: the character before the cursor, the input from the
    cursor on, the captures so far. *)
Record state : Type := mkState {
  prev : option ascii;
  rest : string;
  caps : list (nat * string)
}.

Definition isWordOpt (c : option ascii) : bool :=
  match c with Some c => Js.isWord c | None => false end.

Definition next (s : state) : option ascii :=
  match rest s with String c _ => Some c | EmptyString => None end.

Definition consumed (from to : state) : string :=
  Js.take (String.length (rest from) - String.length (rest to)) (rest from).

(** Repetition of one iteration [iter]: at most [n] more iterations, each
    of which consumes input (an iteration that matches the empty string is
    not repeated); greedy repetition tries one more iteration before the
    continuation [k], lazy repetition after it. *)
Fixpoint starLoop (iter : (state -> option state) -> state -> option state)
  (greedy : bool) (k : state -> option state) (n : nat) (s : state)
  {struct n} : option state :=
  match n with
  | 0 => k s
  | S n' =>
      let more (_ : unit) :=
        iter (fun s' =>
                if String.length (rest s') <? String.length (rest s)
                then starLoop iter greedy k n' s' else None) s in
      if greedy then
        match more tt with
        | Some x => Some x
        | None => k s
        end
      else
        match k s with
        | Some x => Some x
        | None => more tt
        end
  end.

(** [run r k s]: match [r] at [s], then continue with [k]; the first
    success in backtracking order. *)
Fixpoint run (r : regex) (k : state -> option state) (s : state)
  {struct r} : option state :=
  match r with
  | Eps => k s
  | Chr p =>
      match rest s with
      | String c t => if p c then k (mkState (Some c) t (caps s)) else None
      | EmptyString => None
      end
  | Cat r1 r2 => run r1 (run r2 k) s
  | Alt r1 r2 =>
      match run r1 k s with
      | Some x => Some x
      | None => run r2 k s
      end
  | Star greedy r1 =>
      starLoop (run r1) greedy k (String.length (rest s)) s
  | Group n r1 =>
      run r1 (fun s' =>
                k (mkState (prev s') (rest s') ((n, consumed s s') :: caps s')))
          s
  | Bol multiline =>
      match prev s with
      | None => k s
      | Some c => if multiline && Js.isLineTerminator c then k s else None
      end
  | Eol multiline =>
      match rest s with
      | EmptyString => k s
      | String c _ => if multiline && Js.isLineTerminator c then k s else None
      end
  | WordB =>
      if xorb (isWordOpt (prev s)) (isWordOpt (next s)) then k s else None
  end.

(** The result of a successful match: the text before it, the match, the
    text after it, the groups. *)
Record MatchResult : Type := mkMatch {
  before : string;
  matched : string;
  after : string;
  groups : list (nat * string)
}.

(** [m[n]]: [None] for a group that did not take part. *)
Fixpoint lookupGroup (n : nat) (gs : list (nat * string)) : option string :=
  match gs with
  | [] => None
  | (n', s) :: gs' => if n =? n' then Some s else lookupGroup n gs'
  end.

Definition group (n : nat) (m : MatchResult) : option string :=
  lookupGroup n (groups m).

(** [m[n] || ''] *)
Definition groupOr (n : nat) (m : MatchResult) : string :=
  match group n m with Some s => s | None => EmptyString end.

Definition matchAt (r : regex) (p : option ascii) (s : string)
  : option state :=
  run r Some (mkState p s []).

(** Leftmost match: [revBefore] is the text before the cursor, reversed. *)
Fixpoint search (r : regex) (revBefore : string) (p : option ascii)
  (s : string) : option MatchResult :=
  match matchAt r p s with
  | Some st =>
      Some (mkMatch (Js.revStr EmptyString revBefore)
              (Js.take (String.length s - String.length (rest st)) s)
              (rest st) (caps st))
  | None =>
      match s with
      | EmptyString => None
      | String c s' => search r (String c revBefore) (Some c) s'
      end
  end.

(** [s.match(r)] for [r] without the [g] flag. *)
Definition exec (r : regex) (s : string) : option MatchResult :=
  search r EmptyString None s.

(** [r.test(s)] *)
Definition test (r : regex) (s : string) : bool :=
  match exec r s with Some _ => true | None => false end.

(** [s.replace(r, f)] for [r] without the [g] flag. *)
Definition replace (r : regex) (f : MatchResult -> string) (s : string)
  : string :=
  match exec r s with
  | Some m => before m +++ f m +++ after m
  | None => s
  end.

(** [s.replace(r, f)] for [r] with the [g] flag: the matches from left to
    right, an empty match followed by one step forward.  The field [before]
    of the result passed to [f] is not filled in. *)
Fixpoint replaceLoop (fuel : nat) (r : regex) (f : MatchResult -> string)
  (p : option ascii) (s : string) : string :=
  match fuel with
  | 0 => s
  | S fuel' =>
      let step (_ : unit) :=
        match s with
        | EmptyString => EmptyString
        | String c s' => String c (replaceLoop fuel' r f (Some c) s')
        end in
      match matchAt r p s with
      | Some st =>
          let m := Js.take (String.length s - String.length (rest st)) s in
          let out := f (mkMatch EmptyString m (rest st) (caps st)) in
          match m with
          | EmptyString => out +++ step tt
          | _ => out +++ replaceLoop fuel' r f (Js.lastChar p m) (rest st)
          end
      | None => step tt
      end
  end.

Definition replaceAll (r : regex) (f : MatchResult -> string) (s : string)
  : string :=
  replaceLoop (S (String.length s)) r f None s.

(** *** Notation of the source's patterns *)

Definition chr (c : ascii) : regex := Chr (Ascii.eqb c).
(** A letter under the [i] flag. *)
Definition chri (c : ascii) : regex :=
  Chr (fun x => Ascii.eqb (Js.toLowerChar x) (Js.toLowerChar c)).

Fixpoint lit (s : string) : regex :=
  match s with
  | EmptyString => Eps
  | String c EmptyString => chr c
  | String c s' => Cat (chr c) (lit s')
  end.

Fixpoint liti (s : string) : regex :=
  match s with
  | EmptyString => Eps
  | String c EmptyString => chri c
  | String c s' => Cat (chri c) (liti s')
  end.

Fixpoint inStr (c : ascii) (s : string) : bool :=
  match s with
  | EmptyString => false
  | String x s' => Ascii.eqb c x || inStr c s'
  end.

Definition oneOf (s : string) : regex := Chr (fun c => inStr c s).
Definition noneOf (s : string) : regex := Chr (fun c => negb (inStr c s)).

Definition plus (r : regex) : regex := Cat r (Star true r).
Definition star (r : regex) : regex := Star true r.
Definition opt (r : regex) : regex := Alt r Eps.

Fixpoint seq (rs : list regex) : regex :=
  match rs with
  | [] => Eps
  | [r] => r
  | r :: rs' => Cat r (seq rs')
  end.

Fixpoint alt (rs : list regex) : regex :=
  match rs with
  | [] => Eps
  | [r] => r
  | r :: rs' => Alt r (alt rs')
  end.

Definition d : regex := Chr Js.isDigit.                  (* \d *)
Definition w : regex := Chr Js.isWord.                   (* \w *)
Definition s : regex := Chr Js.isSpace.                  (* \s *)
Definition dot : regex := Chr (fun c => negb (Js.isLineTerminator c)). (* . *)
Definition any : regex := Chr (fun _ => true).           (* [\s\S] *)
(** The class of the three quote characters: backtick, double, single. *)
Definition quotes3 : string :=
  String Js.BACKTICK (String Js.DQUOTE (String Js.SQUOTE EmptyString)).
(** The class of the two quote characters: single, double. *)
Definition quotes2 : string :=
  String Js.SQUOTE (String Js.DQUOTE EmptyString).

End Regex.

(** The outcome of a function that may throw. *)
Inductive Result (E A : Type) : Type :=
| Ok (a : A)
| Throw (e : E).
Arguments Ok {E A} a.
Arguments Throw {E A} e.

(* ================================================================== *)
(** ** The DDL parser ([src/lib/ddl-parser.ts]) *)

Module Ddl.
Import Regex.

Inductive IndexType : Type := PRIMARY | UNIQUE | INDEX | FULLTEXT | SPATIAL.

Record FieldIndex : Type := mkFieldIndex {
  fi_name : string;
  fi_type : IndexType;
  fi_isFirst : bool
}.

(** The records of [types/ddl.ts]; a prefix tells apart the fields that
    several of them name alike ([name], [type], [indexes]). *)
Record TableField : Type := mkTableField {
  f_name : string;
  f_type : string;
  f_nullable : bool;
  f_defaultValue : option string;
  f_autoIncrement : bool;
  f_comment : string;
  f_isPrimaryKey : bool;
  f_indexes : list FieldIndex
}.

Record TableIndex : Type := mkTableIndex {
  ix_type : IndexType;
  ix_name : string;
  ix_columns : list string;
  ix_missingColumns : option (list string)
}.

Record TableInfo : Type := mkTableInfo {
  tableName : string;
  tableComment : string;
  fields : list TableField;
  indexes : list TableIndex
}.

Record StandaloneIndex : Type := mkStandaloneIndex {
  si_tableName : string;
  si_index : TableIndex
}.

Record DDLParseResult : Type := mkDDLParseResult {
  tables : list TableInfo;
  standaloneIndexes : list StandaloneIndex
}.

(** The two errors thrown by [parseCreateTable]: no table name, no
    parenthesized body. *)
Inductive Error : Type :=
| CannotRecognizeCreateTable
| CannotParseTableBody.

Definition q3 : regex := opt (oneOf quotes3).
Definition ws1 : regex := plus s.
Definition ws0 : regex := star s.

(** *** [parseIndexColumns] *)

Definition reColumn : regex := seq [q3; Group 1 (plus w); q3].

Definition parseIndexColumns (columnsStr : string) : list string :=
  filter Js.nonEmpty
    (map (fun col =>
            match exec reColumn (Js.trim col) with
            | Some m => groupOr 1 m
            | None => EmptyString
            end)
       (Js.split "," columnsStr)).

(** *** [parseCreateIndex] *)

Definition reCreateIndex : regex :=
  seq [liti "CREATE"; ws1;
       opt (Group 1 (alt [Cat (liti "UNIQUE") ws1;
                          Cat (liti "FULLTEXT") ws1;
                          Cat (liti "SPATIAL") ws1]));
       liti "INDEX"; ws1; q3; Group 2 (plus w); q3; ws1;
       liti "ON"; ws1; q3; Group 3 (plus w); q3; ws0;
       lit "("; Group 4 (plus (noneOf ")")); lit ")"].

Definition parseCreateIndex (stmt : string) : option StandaloneIndex :=
  match exec reCreateIndex stmt with
  | None => None
  | Some m =>
      let typeStr := Js.toUpperCase (Js.trim (groupOr 1 m)) in
      let type :=
        if String.eqb typeStr "UNIQUE" then UNIQUE
        else if String.eqb typeStr "FULLTEXT" then FULLTEXT
        else if String.eqb typeStr "SPATIAL" then SPATIAL
        else INDEX in
      let name := groupOr 2 m in
      let tableName := groupOr 3 m in
      let columns := parseIndexColumns (groupOr 4 m) in
      Some (mkStandaloneIndex tableName (mkTableIndex type name columns None))
  end.

(** *** [splitDefinitions] *)

Definition pushTrimmed (definitions : list string) (current : string)
  : list string :=
  definitions ++ [Js.trim current].

(** The character loop; [prevChar] is [content[i - 1]]. *)
Fixpoint splitLoop (content : string) (prevChar : option ascii)
  (definitions : list string) (current : string) (depth : Z)
  (inString : bool) (stringChar : ascii) : list string :=
  match content with
  | EmptyString =>
      if Js.nonEmpty (Js.trim current) then pushTrimmed definitions current
      else definitions
  | String char content' =>
      let continue := splitLoop content' (Some char) in
      let current' := current +++ Js.str1 char in
      if inString then
        if Ascii.eqb char stringChar
           && negb (match prevChar with
                    | Some p => Ascii.eqb p Js.BACKSLASH
                    | None => false
                    end)
        then continue definitions current' depth false stringChar
        else continue definitions current' depth true stringChar
      else if inStr char quotes3 then
        continue definitions current' depth true char
      else if Ascii.eqb char "(" then
        continue definitions current' (depth + 1)%Z false stringChar
      else if Ascii.eqb char ")" then
        continue definitions current' (depth - 1)%Z false stringChar
      else if Ascii.eqb char "," && Z.eqb depth 0 then
        continue (pushTrimmed definitions current) EmptyString depth false
          stringChar
      else
        continue definitions current' depth false stringChar
  end.

Definition splitDefinitions (content : string) : list string :=
  splitLoop content None [] EmptyString 0%Z false "000"%char.

(** *** [parseField] *)

Definition normalizeSpaces (s0 : string) : string :=
  replaceAll ws1 (fun _ => " ") s0.

Definition reFieldName : regex :=
  seq [Bol false; q3; Group 1 (plus w); q3; ws1; Group 2 (plus dot);
       Eol false].

Definition reFieldType : regex :=
  seq [Bol false;
       Group 1 (seq [plus w;
                     opt (seq [ws0; lit "("; plus (noneOf ")"); lit ")"]);
                     opt (Cat ws1 (liti "unsigned"));
                     opt (Cat ws1 (liti "zerofill"))])].

Definition reNotNull : regex :=
  seq [WordB; liti "NOT"; ws1; liti "NULL"; WordB].

Definition bs : string := Js.str1 Js.BACKSLASH.

(** A quoted run for the quote [q]: the quote, any number of characters
    other than the quote and the backslash or escaped characters, the
    quote. *)
Definition quotedRun (q : ascii) : regex :=
  seq [chr q;
       star (Alt (noneOf (String q bs)) (Cat (chr Js.BACKSLASH) dot));
       chr q].

Definition reDefault : regex :=
  seq [liti "DEFAULT"; ws1;
       Group 1 (alt [quotedRun Js.SQUOTE; quotedRun Js.DQUOTE;
                     plus (Chr (fun c => Js.isWord c || inStr c "()"))])].

Definition reOuterQuote : regex :=
  Alt (Cat (Bol false) (oneOf quotes2)) (Cat (oneOf quotes2) (Eol false)).

Definition reAutoIncrement : regex :=
  seq [WordB; liti "AUTO_INCREMENT"; WordB].

Definition reFieldComment : regex :=
  seq [liti "COMMENT"; ws1; oneOf quotes2; Group 1 (star (noneOf quotes2));
       oneOf quotes2].

Definition rePrimaryKeyInline : regex :=
  seq [WordB; liti "PRIMARY"; ws1; liti "KEY"; WordB].

Definition parseField (fieldDef : string) : option TableField :=
  let normalizedDef := Js.trim (normalizeSpaces fieldDef) in
  match exec reFieldName normalizedDef with
  | None => None
  | Some nameMatch =>
      let name := groupOr 1 nameMatch in
      let rest := groupOr 2 nameMatch in
      let type :=
        match exec reFieldType rest with
        | Some typeMatch => normalizeSpaces (Js.trim (groupOr 1 typeMatch))
        | None => "UNKNOWN"
        end in
      let nullable := negb (test reNotNull rest) in
      let defaultValue :=
        match exec reDefault rest with
        | Some defaultMatch =>
            Some (replaceAll reOuterQuote (fun _ => EmptyString)
                    (groupOr 1 defaultMatch))
        | None => None
        end in
      let autoIncrement := test reAutoIncrement rest in
      let comment :=
        match exec reFieldComment rest with
        | Some commentMatch => groupOr 1 commentMatch
        | None => EmptyString
        end in
      let isPrimaryKey := test rePrimaryKeyInline rest in
      Some (mkTableField name type nullable defaultValue autoIncrement
              comment isPrimaryKey [])
  end.

(** *** [parseInlineIndex] *)

Definition keyOrIndex : regex := Alt (liti "KEY") (liti "INDEX").

Definition rePrimaryKey : regex := seq [Bol false; liti "PRIMARY"; ws1; liti "KEY"].
Definition reParenList : regex :=
  seq [lit "("; Group 1 (plus (noneOf ")")); lit ")"].
Definition reNamedIndex (prefix : regex) : regex :=
  seq [Bol false; prefix; ws1; q3; Group 1 (plus w); q3; ws0;
       lit "("; Group 2 (plus (noneOf ")")); lit ")"].
Definition reUniquePrefix : regex :=
  seq [Bol false; liti "UNIQUE"; ws1; keyOrIndex].
Definition reFulltextPrefix : regex :=
  seq [Bol false; liti "FULLTEXT"; ws1; keyOrIndex].
Definition reKeyPrefix : regex := Cat (Bol false) keyOrIndex.

Definition namedIndex (prefix : regex) (normalizedDef : string)
  : string * list string :=
  match exec (reNamedIndex prefix) normalizedDef with
  | Some nameMatch =>
      (groupOr 1 nameMatch, parseIndexColumns (groupOr 2 nameMatch))
  | None => (EmptyString, [])
  end.

Definition parseInlineIndex (indexDef : string) : option TableIndex :=
  let normalizedDef := Js.trim (normalizeSpaces indexDef) in
  let '(type, name, columns) :=
    if test rePrimaryKey normalizedDef then
      (PRIMARY, "PRIMARY",
       match exec reParenList normalizedDef with
       | Some colMatch => parseIndexColumns (groupOr 1 colMatch)
       | None => []
       end)
    else if test reUniquePrefix normalizedDef then
      let '(n, c) :=
        namedIndex (seq [liti "UNIQUE"; ws1; keyOrIndex]) normalizedDef in
      (UNIQUE, n, c)
    else if test reFulltextPrefix normalizedDef then
      let '(n, c) :=
        namedIndex (seq [liti "FULLTEXT"; ws1; keyOrIndex]) normalizedDef in
      (FULLTEXT, n, c)
    else if test reKeyPrefix normalizedDef then
      let '(n, c) := namedIndex keyOrIndex normalizedDef in
      (INDEX, n, c)
    else (INDEX, EmptyString, []) in
  match columns with
  | [] => None
  | _ => Some (mkTableIndex type name columns None)
  end.

(** *** Linking fields and indexes *)

Definition sameName (a b : string) : bool :=
  String.eqb (Js.toLowerCase a) (Js.toLowerCase b).

(** [index.columns.some(col => col.toLowerCase() === name.toLowerCase())] *)
Definition coversField (index : TableIndex) (field : TableField) : bool :=
  existsb (fun col => sameName col (f_name field)) (ix_columns index).

(** The entry pushed on [field.indexes]; [columns[0]] exists wherever the
    source reads it, as some column has just matched. *)
Definition fieldIndexOf (index : TableIndex) (field : TableField)
  : FieldIndex :=
  mkFieldIndex (ix_name index) (ix_type index)
    (match ix_columns index with
     | c0 :: _ => sameName c0 (f_name field)
     | [] => false
     end).

Definition setFieldIndexes (field : TableField) (l : list FieldIndex)
  : TableField :=
  mkTableField (f_name field) (f_type field) (f_nullable field)
    (f_defaultValue field) (f_autoIncrement field) (f_comment field)
    (f_isPrimaryKey field) l.

(** The columns of [index] that are not field names. *)
Definition missingOf (fieldNames : list string) (index : TableIndex)
  : list string :=
  filter (fun col => negb (Obj.includes (Js.toLowerCase col) fieldNames))
    (ix_columns index).

Definition setMissingColumns (index : TableIndex) (l : list string)
  : TableIndex :=
  mkTableIndex (ix_type index) (ix_name index) (ix_columns index) (Some l).

(** *** [parseCreateTable] *)

Definition reTableName : regex :=
  seq [liti "CREATE"; ws1; liti "TABLE"; ws1;
       opt (seq [liti "IF"; ws1; liti "NOT"; ws1; liti "EXISTS"; ws1]);
       q3; Group 1 (plus w); q3].

Definition reTableComment : regex :=
  seq [lit ")"; ws0; star (noneOf ";"); liti "COMMENT"; ws0; opt (lit "=");
       ws0; oneOf quotes2; Group 1 (plus (noneOf quotes2)); oneOf quotes2].

Definition reTableContent : regex :=
  seq [liti "CREATE"; ws1; liti "TABLE"; star (noneOf "("); lit "(";
       Group 1 (plus any); lit ")"; star (noneOf ")"); Eol false].

Definition reIndexDefinition : regex :=
  Cat (Bol false)
    (alt [seq [liti "PRIMARY"; ws1; liti "KEY"];
          seq [liti "UNIQUE"; ws1; liti "KEY"];
          seq [liti "UNIQUE"; ws1; liti "INDEX"];
          liti "KEY";
          liti "INDEX";
          seq [liti "FULLTEXT"; ws1; liti "KEY"];
          seq [liti "FULLTEXT"; ws1; liti "INDEX"];
          seq [liti "SPATIAL"; ws1; liti "KEY"];
          seq [liti "SPATIAL"; ws1; liti "INDEX"];
          liti "CONSTRAINT"]).

Definition reFieldDefinition : regex :=
  seq [Bol false; q3; plus w; q3; ws1].

(** The loop over the definitions of the table body. *)
Fixpoint definitionsLoop (definitions : list string)
  (fields : list TableField) (indexes : list TableIndex)
  : list TableField * list TableIndex :=
  match definitions with
  | [] => (fields, indexes)
  | def :: definitions' =>
      let trimmedDef := Js.trim def in
      if negb (Js.nonEmpty trimmedDef) then
        definitionsLoop definitions' fields indexes
      else if test reIndexDefinition trimmedDef then
        match parseInlineIndex trimmedDef with
        | Some indexInfo =>
            definitionsLoop definitions' fields (indexes ++ [indexInfo])
        | None => definitionsLoop definitions' fields indexes
        end
      else if test reFieldDefinition trimmedDef then
        match parseField trimmedDef with
        | Some fieldInfo =>
            definitionsLoop definitions' (fields ++ [fieldInfo]) indexes
        | None => definitionsLoop definitions' fields indexes
        end
      else definitionsLoop definitions' fields indexes
  end.

Definition parseCreateTable (ddl : string) : Result Error TableInfo :=
  match exec reTableName ddl with
  | None => Throw CannotRecognizeCreateTable
  | Some tableNameMatch =>
      let tableName := groupOr 1 tableNameMatch in
      let tableComment :=
        match exec reTableComment ddl with
        | Some tableCommentMatch => groupOr 1 tableCommentMatch
        | None => EmptyString
        end in
      match exec reTableContent ddl with
      | None => Throw CannotParseTableBody
      | Some contentMatch =>
          let content := groupOr 1 contentMatch in
          let definitions := splitDefinitions content in
          let '(fields, indexes) := definitionsLoop definitions [] [] in
          let fieldNames :=
            map (fun f => Js.toLowerCase (f_name f)) fields in
          let fields' :=
            map (fun field =>
                   setFieldIndexes field
                     (map (fun index => fieldIndexOf index field)
                        (filter (fun index => coversField index field)
                           indexes)))
              fields in
          let indexes' :=
            map (fun index =>
                   setMissingColumns index (missingOf fieldNames index))
              indexes in
          Ok (mkTableInfo tableName tableComment fields' indexes')
      end
  end.

(** *** [parseDDL] *)

Definition reLineComment : regex := seq [lit "--"; star dot; Eol true].
Definition reBlockComment : regex := seq [lit "/*"; Star false any; lit "*/"].
Definition reCreateTable : regex := seq [liti "CREATE"; ws1; liti "TABLE"].
Definition reCreateIndexGate : regex :=
  seq [liti "CREATE"; ws1; opt (Cat (liti "UNIQUE") ws1); liti "INDEX"].

Definition removeComments (ddl : string) : string :=
  replaceAll reBlockComment (fun _ => EmptyString)
    (replaceAll reLineComment (fun _ => EmptyString) ddl).

Definition splitStatements (cleanDDL : string) : list string :=
  filter (fun s0 => 0 <? String.length s0)
    (map Js.trim (Js.split ";" cleanDDL)).

(** The index of a [CREATE INDEX] statement, attached to a table that is
    already known. *)
Definition attachIndex (table : TableInfo) (index : TableIndex)
  : TableInfo :=
  let fieldNames := map (fun f => Js.toLowerCase (f_name f)) (fields table) in
  let index' := setMissingColumns index (missingOf fieldNames index) in
  mkTableInfo (tableName table) (tableComment table)
    (map (fun field =>
            if coversField index' field
            then setFieldIndexes field
                   (f_indexes field ++ [fieldIndexOf index' field])
            else field)
       (fields table))
    (indexes table ++ [index']).

(** The loop over the statements; [tables] is the record of the tables seen
    so far, keyed by lower-cased name. *)
Fixpoint statementsLoop (statements : list string)
  (tables : list (string * TableInfo))
  (standaloneIndexes : list StandaloneIndex)
  : Result Error DDLParseResult :=
  match statements with
  | [] => Ok (mkDDLParseResult (Obj.values tables) standaloneIndexes)
  | stmt :: statements' =>
      if test reCreateTable stmt then
        match parseCreateTable stmt with
        | Throw e => Throw e
        | Ok tableResult =>
            statementsLoop statements'
              (Obj.set (Js.toLowerCase (tableName tableResult)) tableResult
                 tables)
              standaloneIndexes
        end
      else if test reCreateIndexGate stmt then
        match parseCreateIndex stmt with
        | Some indexResult =>
            let tableName := Js.toLowerCase (si_tableName indexResult) in
            match Obj.get tableName tables with
            | Some table =>
                statementsLoop statements'
                  (Obj.set tableName
                     (attachIndex table (si_index indexResult)) tables)
                  standaloneIndexes
            | None =>
                statementsLoop statements' tables
                  (standaloneIndexes ++ [indexResult])
            end
        | None => statementsLoop statements' tables standaloneIndexes
        end
      else statementsLoop statements' tables standaloneIndexes
  end.

Definition parseDDL (ddl : string) : Result Error DDLParseResult :=
  statementsLoop (splitStatements (removeComments ddl)) [] [].

End Ddl.

(* ================================================================== *)
(** ** The PHP-array converter ([src/lib/php-parser.ts]) *)

Module Php.
Import Regex.

Inductive Token : Type :=
| STRING (value : string) (quote : ascii)
| NUMBER (value : JsNumber)
| LITERAL (value : string)
| ARRAY
| ARROW
| LBRACKET
| RBRACKET
| LPAREN
| RPAREN
| COMMA
| IDENTIFIER (value : string).

(** The errors of the strict parser, and the [SyntaxError] of the host's
    [JSON.parse]. *)
Inductive ParseError : Type :=
| UnexpectedEndOfInput
| UnparsableValue (token : Token)
| JsonSyntaxError.

(** *** [unescapeString] *)

Definition replaceLit (pat repl : string) (s0 : string) : string :=
  replaceAll (lit pat) (fun _ => repl) s0.

Definition bs : string := Js.str1 Js.BACKSLASH.
Definition sq : string := Js.str1 Js.SQUOTE.
Definition dq : string := Js.str1 Js.DQUOTE.

Definition unescapeString (str : string) : string :=
  replaceLit (bs +++ bs) bs
    (replaceLit (bs +++ dq) dq
       (replaceLit (bs +++ sq) sq
          (replaceLit (bs +++ "t") (Js.str1 Js.TAB)
             (replaceLit (bs +++ "r") (Js.str1 Js.CR)
                (replaceLit (bs +++ "n") (Js.str1 Js.LF) str))))).

(** *** [tokenize] *)

(** The inner loop of a string token: the raw value, and the input after the
    closing quote. *)
Fixpoint scanString (quote : ascii) (str : string) (value : string)
  : string * string :=
  match str with
  | EmptyString => (value, EmptyString)
  | String c str' =>
      if Ascii.eqb c quote then (value, str')
      else if Ascii.eqb c Js.BACKSLASH then
        match str' with
        | String c2 str'' =>
            scanString quote str'' (value +++ String c (Js.str1 c2))
        | EmptyString => scanString quote str' (value +++ Js.str1 c)
        end
      else scanString quote str' (value +++ Js.str1 c)
  end.

(** The longest prefix of characters satisfying [p], and the rest. *)
Fixpoint span (p : ascii -> bool) (str : string) : string * string :=
  match str with
  | String c str' =>
      if p c then let '(a, b) := span p str' in (String c a, b)
      else (EmptyString, str)
  | EmptyString => (EmptyString, EmptyString)
  end.

Definition nextIs (p : ascii -> bool) (str : string) : bool :=
  match str with String c _ => p c | EmptyString => false end.

Definition singleCharTokens (char : ascii) : option Token :=
  if Ascii.eqb char "[" then Some LBRACKET
  else if Ascii.eqb char "]" then Some RBRACKET
  else if Ascii.eqb char "(" then Some LPAREN
  else if Ascii.eqb char ")" then Some RPAREN
  else if Ascii.eqb char "," then Some COMMA
  else None.

(** The [while] loop of [tokenize] on the input from the cursor on. *)
Fixpoint tokenizeLoop (fuel : nat) (str : string) (tokens : list Token)
  : list Token :=
  match fuel with
  | 0 => tokens
  | S fuel' =>
      match str with
      | EmptyString => tokens
      | String char str' =>
          if Js.isSpace char then tokenizeLoop fuel' str' tokens
          else if Ascii.eqb char Js.DQUOTE || Ascii.eqb char Js.SQUOTE then
            let '(value, rest) := scanString char str' EmptyString in
            tokenizeLoop fuel' rest
              (tokens ++ [STRING (unescapeString value) char])
          else if Js.isDigit char
                  || (Ascii.eqb char "-" && nextIs Js.isDigit str') then
            let '(sign, str0) :=
              if Ascii.eqb char "-" then ("-", str') else (EmptyString, str) in
            let '(digits, rest) :=
              span (fun c => Js.isDigit c || Ascii.eqb c ".") str0 in
            tokenizeLoop fuel' rest
              (tokens ++ [NUMBER (Num.parseFloat (sign +++ digits))])
          else if Js.isAlpha char || Ascii.eqb char "_" then
            let '(value, rest) := span Js.isWord str in
            let lower := Js.toLowerCase value in
            tokenizeLoop fuel' rest
              (tokens ++
               [if String.eqb value "array" then ARRAY
                else if String.eqb lower "true" || String.eqb lower "false"
                        || String.eqb lower "null"
                then LITERAL lower
                else IDENTIFIER value])
          else if Ascii.eqb char "=" && nextIs (Ascii.eqb ">") str' then
            tokenizeLoop fuel' (Js.drop 1 str') (tokens ++ [ARROW])
          else
            match singleCharTokens char with
            | Some t => tokenizeLoop fuel' str' (tokens ++ [t])
            | None => tokenizeLoop fuel' str' tokens
            end
      end
  end.

Definition tokenize (str : string) : list Token :=
  tokenizeLoop (S (String.length str)) str [].

(** *** [parseTokens] *)

(** [String(v)] *)
Fixpoint JsString (v : PHPValue) : string :=
  match v with
  | VNull => "null"
  | VBool true => "true"
  | VBool false => "false"
  | VNumber n => Num.toString n
  | VString s0 => s0
  | VArray items =>
      Js.join ","
        (map (fun x => match x with
                       | VNull => EmptyString
                       | _ => JsString x
                       end) items)
  | VObject _ => "[object Object]"
  end.

(** A step of the parser: [None] when the fuel of the embedding is used up,
    otherwise the value with the new cursor, or the error thrown. *)
Definition Parse (A : Type) : Type := option (Result ParseError A).

Definition bind {A B} (m : Parse A) (f : A -> Parse B) : Parse B :=
  match m with
  | None => None
  | Some (Throw e) => Some (Throw e)
  | Some (Ok a) => f a
  end.

Definition ret {A} (a : A) : Parse A := Some (Ok a).
Definition throw {A} (e : ParseError) : Parse A := Some (Throw e).

(** The local variables of [parseArray] with the cursor. *)
Record ArrayState : Type := mkArrayState {
  result : list (string * PHPValue);
  isIndexedArray : bool;
  index : nat;
  pos : nat
}.

Definition isClosing (t : option Token) : bool :=
  match t with
  | Some RBRACKET | Some RPAREN => true
  | _ => false
  end.

Definition isArrow (t : option Token) : bool :=
  match t with Some ARROW => true | _ => false end.

Definition isComma (t : option Token) : bool :=
  match t with Some COMMA => true | _ => false end.

(** The array built from an indexed result: [arr[i] = result[i]] for
    [i < index]. *)
Definition toArray (result : list (string * PHPValue)) (index : nat)
  : list PHPValue :=
  map (fun i => match Obj.get (Js.natToString i) result with
                | Some v => v
                | None => VNull
                end) (List.seq 0 index).

(** The cursor after the [array] keyword and its parenthesis, or after the
    opening bracket. *)
Definition skipOpening (tokens : list Token) (pos : nat) : nat :=
  match nth_error tokens pos with
  | Some ARRAY =>
      match nth_error tokens (S pos) with
      | Some LPAREN => S (S pos)
      | _ => S pos
      end
  | Some LBRACKET => S pos
  | _ => pos
  end.

(** The cursor after the closing bracket or parenthesis, when there is
    one. *)
Definition skipClosing (tokens : list Token) (pos : nat) : nat :=
  if isClosing (nth_error tokens pos) then S pos else pos.

Fixpoint parseValue (fuel : nat) (tokens : list Token) (pos : nat)
  {struct fuel} : Parse (PHPValue * nat) :=
  match fuel with
  | 0 => None
  | S fuel' =>
      match nth_error tokens pos with
      | None => throw UnexpectedEndOfInput
      | Some token =>
          match token with
          | STRING value _ => ret (VString value, S pos)
          | NUMBER value => ret (VNumber value, S pos)
          | LITERAL val =>
              ret (if String.eqb val "true" then VBool true
                   else if String.eqb val "false" then VBool false
                   else VNull, S pos)
          | LBRACKET | ARRAY => parseArray fuel' tokens pos
          | _ => throw (UnparsableValue token)
          end
      end
  end

with parseArray (fuel : nat) (tokens : list Token) (pos : nat)
  {struct fuel} : Parse (PHPValue * nat) :=
  match fuel with
  | 0 => None
  | S fuel' =>
      bind (elementsLoop fuel' tokens
              (mkArrayState [] true 0 (skipOpening tokens pos)))
        (fun st =>
           let pos' := skipClosing tokens (Php.pos st) in
           if isIndexedArray st
           then ret (VArray (toArray (result st) (index st)), pos')
           else ret (VObject (result st), pos'))
  end

with elementsLoop (fuel : nat) (tokens : list Token) (st : ArrayState)
  {struct fuel} : Parse ArrayState :=
  match fuel with
  | 0 => None
  | S fuel' =>
      let pos := Php.pos st in
      match nth_error tokens pos with
      | None => ret st
      | Some t =>
          if isClosing (Some t) then ret st
          else
            (* let key = index; then the optional key and the arrow *)
            bind
              (if isArrow (nth_error tokens (S pos)) then
                 bind (parseValue fuel' tokens pos)
                   (fun '(keyValue, pos') =>
                      let key :=
                        match keyValue with
                        | VNumber n => Num.toString n
                        | _ => JsString keyValue
                        end in
                      ret (key, S pos', false))
               else ret (Js.natToString (index st), pos, isIndexedArray st))
              (fun '(key, pos', isIndexedArray') =>
                 bind (parseValue fuel' tokens pos')
                   (fun '(value, pos'') =>
                      let result' := Obj.set key value (result st) in
                      let index' :=
                        if isIndexedArray' then S (index st) else index st in
                      let pos''' :=
                        if isComma (nth_error tokens pos'')
                        then S pos'' else pos'' in
                      elementsLoop fuel' tokens
                        (mkArrayState result' isIndexedArray' index' pos''')))
      end
  end.

(** Every call consumes a token or throws, so three units of fuel per token
    are never used up ([Termination.parseTokens_total]). *)
Definition parseTokens (tokens : list Token) : Parse PHPValue :=
  bind (parseValue (3 * List.length tokens + 3) tokens 0)
    (fun '(v, _) => ret v).

Definition smartParsePHPArray (phpString : string) : Parse PHPValue :=
  parseTokens (tokenize phpString).

(** *** [convertToPHP] *)

Definition nl : string := Js.str1 Js.LF.

(** [/^\d+$/] *)
Definition reDigits : regex := seq [Bol false; plus d; Eol false].

Fixpoint insertZ (x : Z) (l : list Z) : list Z :=
  match l with
  | [] => [x]
  | y :: l' => if (x <=? y)%Z then x :: l else y :: insertZ x l'
  end.

(** [nums.sort((a, b) => a - b)] *)
Definition sortZ (l : list Z) : list Z := fold_right insertZ [] l.

(** [nums.every((num, index) => num === index)], from [index] on. *)
Fixpoint everyIsIndex (nums : list Z) (index : Z) : bool :=
  match nums with
  | [] => true
  | num :: nums' => Z.eqb num index && everyIsIndex nums' (index + 1)%Z
  end.

(** [Number(key)] for a key made of digits. *)
Definition Number (key : string) : Z :=
  let '(n, _, _) := Num.readDigits 0%Z 0 key in n.

Definition escapeKey (key : string) : string :=
  replaceLit sq (bs +++ sq) (replaceLit bs (bs +++ bs) key).

Definition escapeString (obj : string) : string :=
  replaceLit (Js.str1 Js.TAB) (bs +++ "t")
    (replaceLit (Js.str1 Js.CR) (bs +++ "r")
       (replaceLit (Js.str1 Js.LF) (bs +++ "n")
          (replaceLit sq (bs +++ sq) (replaceLit bs (bs +++ bs) obj)))).

Definition comma {A} (following : list A) : string :=
  match following with [] => EmptyString | _ => "," end.

Fixpoint convertToPHP (obj : PHPValue) (indent : nat) {struct obj}
  : string :=
  let spaces := Js.repeat "    " indent in
  let nextSpaces := Js.repeat "    " (indent + 1) in
  match obj with
  | VArray items =>
      match items with
      | [] => "[]"
      | _ =>
          "[" +++ nl +++
          (fix each (l : list Value) : string :=
             match l with
             | [] => EmptyString
             | item :: l' =>
                 nextSpaces +++ convertToPHP item (indent + 1) +++
                 comma l' +++ nl +++ each l'
             end) items +++
          spaces +++ "]"
      end
  | VObject props =>
      let keys := Obj.keys props in
      match props with
      | [] => "[]"
      | _ =>
          let isNumericKeys := forallb (test reDigits) keys in
          let isSequentialKeys :=
            isNumericKeys && everyIsIndex (sortZ (map Number keys)) 0%Z in
          "[" +++ nl +++
          (fix each (l : list (string * Value)) : string :=
             match l with
             | [] => EmptyString
             | (key, v) :: l' =>
                 let quotedKey :=
                   if isNumericKeys && isSequentialKeys then EmptyString
                   else if test reDigits key then key +++ " => "
                   else sq +++ escapeKey key +++ sq +++ " => " in
                 nextSpaces +++ quotedKey +++ convertToPHP v (indent + 1) +++
                 comma l' +++ nl +++ each l'
             end) props +++
          spaces +++ "]"
      end
  | VString str => sq +++ escapeString str +++ sq
  | VBool b => if b then "true" else "false"
  | VNull => "null"
  | VNumber n =>
      match n with
      | NaN => "NAN"
      | PosInfinity => "INF"
      | NegInfinity => "-INF"
      | Finite _ _ => Num.toString n
      end
  end.

(** *** The degraded parser: [simpleParsePHPArray] and its rewriting steps *)

(** [/\barray\s*\(/g] *)
Definition reArrayOpen : regex := seq [WordB; lit "array"; star s; lit "("].

(** The loop of [replaceArraySyntax]: a pass that changes the text makes it
    shorter. *)
Fixpoint replaceArrayLoop (fuel : nat) (result : string) : string :=
  match fuel with
  | 0 => result
  | S fuel' =>
      let replaced := replaceAll reArrayOpen (fun _ => "[") result in
      if String.eqb result replaced then result
      else replaceArrayLoop fuel' replaced
  end.

Definition isQuote (c : ascii) : bool :=
  Ascii.eqb c Js.DQUOTE || Ascii.eqb c Js.SQUOTE.

Fixpoint balanceLoop (str : string) (inString : bool) (stringChar : ascii)
  (escaped : bool) : string :=
  match str with
  | EmptyString => EmptyString
  | String char str' =>
      if escaped then
        String char (balanceLoop str' inString stringChar false)
      else if Ascii.eqb char Js.BACKSLASH then
        String char (balanceLoop str' inString stringChar true)
      else if negb inString && isQuote char then
        String char (balanceLoop str' true char false)
      else if inString && Ascii.eqb char stringChar then
        String char (balanceLoop str' false "000"%char false)
      else if inString then
        String char (balanceLoop str' inString stringChar false)
      else if Ascii.eqb char "(" then
        String "["%char (balanceLoop str' inString stringChar false)
      else if Ascii.eqb char ")" then
        String "]"%char (balanceLoop str' inString stringChar false)
      else String char (balanceLoop str' inString stringChar false)
  end.

Definition balanceParentheses (str : string) : string :=
  balanceLoop str false "000"%char false.

Definition replaceArraySyntax (str : string) : string :=
  balanceParentheses (replaceArrayLoop (S (String.length str)) str).

(** A quoted key for the quote [q]: the quote, a run of characters other
    than the quote and the backslash, any number of times an escaped
    character and such a run, the quote. *)
Definition quotedKey (q : ascii) : regex :=
  let plain := star (noneOf (String q bs)) in
  seq [chr q; plain; star (seq [chr Js.BACKSLASH; dot; plain]); chr q].

Definition reArrow : regex :=
  seq [Group 1 (alt [quotedKey Js.SQUOTE; quotedKey Js.DQUOTE; plus w;
                     plus d]);
       star s; lit "=>"; star s].

Definition startsWithQuote (key : string) : bool :=
  match key with String c _ => isQuote c | EmptyString => false end.

Definition replaceArrowSyntax (str : string) : string :=
  replaceAll reArrow
    (fun m =>
       let key := groupOr 1 m in
       if test reDigits key then key +++ ": "
       else if startsWithQuote key then key +++ ": "
       else dq +++ key +++ dq +++ ": ")
    str.

Fixpoint singleQuotesLoop (str : string) (inDoubleQuote escaped : bool)
  : string :=
  match str with
  | EmptyString => EmptyString
  | String char str' =>
      if escaped then String char (singleQuotesLoop str' inDoubleQuote false)
      else if Ascii.eqb char Js.BACKSLASH then
        String char (singleQuotesLoop str' inDoubleQuote true)
      else if Ascii.eqb char Js.DQUOTE then
        String char (singleQuotesLoop str' (negb inDoubleQuote) false)
      else if inDoubleQuote then
        String char (singleQuotesLoop str' inDoubleQuote false)
      else if Ascii.eqb char Js.SQUOTE then
        String Js.DQUOTE (singleQuotesLoop str' inDoubleQuote false)
      else String char (singleQuotesLoop str' inDoubleQuote false)
  end.

Definition replaceSingleQuotes (str : string) : string :=
  singleQuotesLoop str false false.

(** [/\b(true|false|null|TRUE|FALSE|NULL)\b/g] *)
Definition reLiterals : regex :=
  seq [WordB;
       Group 1 (alt [lit "true"; lit "false"; lit "null";
                     lit "TRUE"; lit "FALSE"; lit "NULL"]);
       WordB].

(** [/\bINF\b/g], [/\bNAN\b/g] and [/\b-INF\b/g] *)
Definition reINF : regex := seq [WordB; lit "INF"; WordB].
Definition reNAN : regex := seq [WordB; lit "NAN"; WordB].
Definition reNegINF : regex := seq [WordB; lit "-INF"; WordB].

Definition quoted (str : string) : string := dq +++ str +++ dq.

Definition replacePhpValues (str : string) : string :=
  let result := replaceAll reLiterals (fun m => Js.toLowerCase (matched m)) str in
  let result := replaceAll reINF (fun _ => quoted "Infinity") result in
  let result := replaceAll reNAN (fun _ => quoted "NaN") result in
  let result := replaceAll reNegINF (fun _ => quoted "-Infinity") result in
  result.

(** A word, then a colon with the white space around it, as two groups. *)
Definition reKeyColon : regex :=
  seq [Group 1 (plus w); Group 2 (seq [star s; lit ":"; star s])].

Definition fixKeyFormat (str : string) : string :=
  replaceAll reKeyColon
    (fun m =>
       let key := groupOr 1 m in
       let colon := groupOr 2 m in
       if negb (test reDigits key) && negb (startsWithQuote key)
       then dq +++ key +++ dq +++ colon
       else matched m)
    str.

(** An open bracket on the stack of [convertBrackets], and a matched pair. *)
Record OpenBracket : Type := mkOpen {
  open_index : nat;
  open_containsColon : bool
}.

Record Pair : Type := mkPair {
  pair_open : nat;
  pair_close : nat;
  pair_containsColon : bool
}.

(** The scan of [convertBrackets]; the head of [stack] is its top. *)
Fixpoint bracketsLoop (str : string) (i : nat) (stack : list OpenBracket)
  (pairs : list Pair) (inString : bool) (stringChar : ascii)
  (escaped : bool) : list Pair :=
  match str with
  | EmptyString => pairs
  | String char str' =>
      let continue := bracketsLoop str' (S i) in
      if escaped then continue stack pairs inString stringChar false
      else if Ascii.eqb char Js.BACKSLASH then
        continue stack pairs inString stringChar true
      else if isQuote char then
        if negb inString then continue stack pairs true char false
        else if Ascii.eqb char stringChar then
          continue stack pairs false stringChar false
        else continue stack pairs inString stringChar false
      else if inString then continue stack pairs inString stringChar false
      else if Ascii.eqb char "[" then
        continue (mkOpen i false :: stack) pairs inString stringChar false
      else if Ascii.eqb char "]" then
        match stack with
        | top :: stack' =>
            continue stack'
              (pairs ++ [mkPair (open_index top) i (open_containsColon top)])
              inString stringChar false
        | [] => continue stack pairs inString stringChar false
        end
      else if Ascii.eqb char ":" then
        match stack with
        | top :: stack' =>
            continue (mkOpen (open_index top) true :: stack') pairs inString
              stringChar false
        | [] => continue stack pairs inString stringChar false
        end
      else continue stack pairs inString stringChar false
  end.

(** The writes [result[pair.open] = '{'] and [result[pair.close] = '}'] of
    the pairs that contain a colon; the positions are pairwise distinct, so
    the order of the writes does not matter. *)
Fixpoint writeBraces (str : string) (i : nat) (pairs : list Pair) : string :=
  match str with
  | EmptyString => EmptyString
  | String char str' =>
      let isOpen :=
        existsb (fun p => pair_containsColon p && (pair_open p =? i)) pairs in
      let isClose :=
        existsb (fun p => pair_containsColon p && (pair_close p =? i)) pairs in
      String (if isOpen then "{"%char else if isClose then "}"%char else char)
        (writeBraces str' (S i) pairs)
  end.

Definition convertBrackets (str : string) : string :=
  writeBraces str 0 (bracketsLoop str 0 [] [] false "000"%char false).

Section Fallback.

(** The host's [JSON.parse]: [None] stands for its [SyntaxError]. *)
Variable JSON_parse : string -> option PHPValue.

Definition simpleParsePHPArray (phpString : string) : Parse PHPValue :=
  let cleanString := replaceArraySyntax phpString in
  let cleanString := replaceArrowSyntax cleanString in
  let cleanString := replaceSingleQuotes cleanString in
  let cleanString := replacePhpValues cleanString in
  let cleanString := fixKeyFormat cleanString in
  let cleanString := convertBrackets cleanString in
  match JSON_parse cleanString with
  | Some v => ret v
  | None => throw JsonSyntaxError
  end.

(** *** [parsePHPArray] *)

Definition rePhpTags : regex := alt [lit "<?php"; lit "<?"; lit "?>"].
Definition reReturn : regex := seq [Bol false; lit "return"; plus s].
Definition reAssignment : regex :=
  seq [Bol false; lit "$"; plus w; star s; lit "="; star s].
Definition reFinalSemicolon : regex := Cat (lit ";") (Eol false).

Definition erase (_ : MatchResult) : string := EmptyString.

Definition cleanInput (phpString : string) : string :=
  let cleanString := Js.trim (replaceAll rePhpTags erase phpString) in
  let cleanString := replace reReturn erase cleanString in
  let cleanString := replace reAssignment erase cleanString in
  replace reFinalSemicolon erase cleanString.

Definition parsePHPArray (phpString : string) : Parse PHPValue :=
  let cleanString := cleanInput phpString in
  match smartParsePHPArray cleanString with
  | Some (Throw _) => simpleParsePHPArray cleanString
  | r => r
  end.

End Fallback.

End Php.

(* ================================================================== *)
(** ** Predicates and sample values of the statements below *)

Module DiffSpec.
Import JsonDiff.

(** The types of item that a comparison produces. *)
Definition emitted (d : DiffItem) : Prop :=
  type d = added \/ type d = removed \/ type d = modified \/
  type d = order_changed.

(** Comparing [v] with any value adds items of these types only. *)
Definition emitsAt (v : Value) : Prop :=
  forall newVal path mode diffs,
    Forall emitted diffs ->
    Forall emitted (compareValues v newVal path mode diffs).

(** Comparing a JSON value [v] with itself adds nothing. *)
Definition reflAt (v : Value) : Prop :=
  isJson v = true ->
  forall path mode diffs, compareValues v v path mode diffs = diffs.

Definition sampleTree : JsonValue :=
  VObject [("name", VString "Ann");
           ("tags", VArray [VNumber (Finite 15 1); VNull; VBool true]);
           ("meta", VObject [("x", VNumber (Finite 1 0));
                             ("y", VObject [])])].

End DiffSpec.

Module ParserSpec.
Import Regex Php.

(** The length of the input left to the matcher. *)
Definition len (st : state) : nat := String.length (rest st).

(** The tokens from the cursor on. *)
Definition remaining (tokens : list Token) (pos : nat) : nat :=
  List.length tokens - pos.

Definition isOpening (t : option Token) : bool :=
  match t with
  | Some LBRACKET | Some ARRAY => true
  | _ => false
  end.

Definition valueOk (tokens : list Token) (fuel : nat) : Prop :=
  forall pos,
    3 * remaining tokens pos + 1 <= fuel ->
    exists res,
      parseValue fuel tokens pos = Some res /\
      forall v pos', res = Ok (v, pos') -> pos < pos'.

Definition arrayOk (tokens : list Token) (fuel : nat) : Prop :=
  forall pos,
    isOpening (nth_error tokens pos) = true ->
    3 * remaining tokens pos <= fuel ->
    exists res,
      parseArray fuel tokens pos = Some res /\
      forall v pos', res = Ok (v, pos') -> pos < pos'.

Definition loopOk (tokens : list Token) (fuel : nat) : Prop :=
  forall st,
    3 * remaining tokens (pos st) + 2 <= fuel ->
    exists res,
      elementsLoop fuel tokens st = Some res /\
      forall st', res = Ok st' -> pos st <= pos st'.

(** The two-character string made of a backslash and the letter [n]. *)
Definition backslash_n : string := bs +++ "n".

End ParserSpec.

From Stdlib Require Import Sorted.

(* ================================================================== *)
(** ** Predicates of the further properties of the differ *)

Module DiffSpec2.
Import JsonDiff.

(** The fields an item carries, by its type: [added] has the new value
    only, [removed] the old value only, [modified] both, [order_changed]
    none but two different positions, the old one not negative and the new
    one not negative. *)
Definition wellShaped (d : DiffItem) : Prop :=
  match type d with
  | added =>
      oldValue d = None /\ newValue d <> None /\
      oldIndex d = None /\ newIndex d = None
  | removed =>
      oldValue d <> None /\ newValue d = None /\
      oldIndex d = None /\ newIndex d = None
  | modified =>
      oldValue d <> None /\ newValue d <> None /\
      oldIndex d = None /\ newIndex d = None
  | order_changed =>
      oldValue d = None /\ newValue d = None /\
      exists i j, oldIndex d = Some i /\ newIndex d = Some j /\
                  i <> j /\ (0 <= i)%Z /\ (0 <= j)%Z
  | unchanged => False
  end.

(** The paths of the [order_changed] items of a list. *)
Definition orderPaths (diffs : list DiffItem) : list string :=
  map path (filter (fun d => isOrderChanged (type d)) diffs).

(** [s.startsWith(p)] *)
Fixpoint startsWith (p s : string) : bool :=
  match p with
  | EmptyString => true
  | String a p' =>
      match s with
      | String b s' => Ascii.eqb a b && startsWith p' s'
      | EmptyString => false
      end
  end.

(** [q] is a path at or below the path [p] of a comparison; every path is
    below the root, whose path is empty. *)
Definition under (p q : string) : Prop :=
  p = EmptyString \/ startsWith p q = true.

(** Deep equality of two values up to the order of the keys of objects:
    the same type, equal primitives, arrays equal position by position,
    objects with the same keys and equal values under each key. *)
Fixpoint looseEq (a b : JsonValue) {struct a} : bool :=
  match a, b with
  | VNull, VNull => true
  | VBool x, VBool y => Bool.eqb x y
  | VNumber x, VNumber y => Num.eqb x y
  | VString x, VString y => String.eqb x y
  | VArray xs, VArray ys =>
      (fix all2 (xs ys : list Value) {struct xs} : bool :=
         match xs, ys with
         | [], [] => true
         | x :: xs', y :: ys' => looseEq x y && all2 xs' ys'
         | _, _ => false
         end) xs ys
  | VObject o, VObject o' =>
      (fix each (kvs : list (string * Value)) : bool :=
         match kvs with
         | [] => true
         | (k, v) :: kvs' =>
             match Obj.get k o' with
             | Some v' => looseEq v v'
             | None => false
             end && each kvs'
         end) o
      && forallb (fun k => Obj.has k o) (Obj.keys o')
  | _, _ => false
  end.

(** Deep equality of two values, the keys of objects in the same order. *)
Fixpoint strictEq (a b : JsonValue) {struct a} : bool :=
  match a, b with
  | VNull, VNull => true
  | VBool x, VBool y => Bool.eqb x y
  | VNumber x, VNumber y => Num.eqb x y
  | VString x, VString y => String.eqb x y
  | VArray xs, VArray ys =>
      (fix all2 (xs ys : list Value) {struct xs} : bool :=
         match xs, ys with
         | [], [] => true
         | x :: xs', y :: ys' => strictEq x y && all2 xs' ys'
         | _, _ => false
         end) xs ys
  | VObject o, VObject o' =>
      (fix all2 (kvs kvs' : list (string * Value)) {struct kvs} : bool :=
         match kvs, kvs' with
         | [], [] => true
         | (k, v) :: r, (k', v') :: r' =>
             String.eqb k k' && strictEq v v' && all2 r r'
         | _, _ => false
         end) o o'
  | _, _ => false
  end.

(** The [added] items for the elements [ys] at the indices from [i] on. *)
Fixpoint addedFrom (basePath : string) (i : nat) (ys : list Value)
  : list DiffItem :=
  match ys with
  | [] => []
  | y :: ys' =>
      addedItem (indexPath basePath i) y :: addedFrom basePath (S i) ys'
  end.

(** The [removed] items for the elements [ys] at the indices from [i] on. *)
Fixpoint removedFrom (basePath : string) (i : nat) (ys : list Value)
  : list DiffItem :=
  match ys with
  | [] => []
  | y :: ys' =>
      removedItem (indexPath basePath i) y :: removedFrom basePath (S i) ys'
  end.

(** The keys that both lists have, in the order of the first list. *)
Definition commonInOrder (keys others : list string) : list string :=
  filter (fun k => Obj.includes k others) keys.

End DiffSpec2.

(* ================================================================== *)
(** ** Predicates of the further properties of the DDL parser *)

Module DdlSpec.
Import Regex Ddl.

(** A statement that the loop of [parseDDL] looks at: it passes the test
    for [CREATE TABLE], or the test for [CREATE [UNIQUE] INDEX]. *)
Definition gated (stmt : string) : bool :=
  test reCreateTable stmt || test reCreateIndexGate stmt.

Definition isSome {A} (o : option A) : bool :=
  match o with Some _ => true | None => false end.

(** A statement from which [parseCreateTable] can take the table name and
    the parenthesized body. *)
Definition extractable (stmt : string) : bool :=
  isSome (exec reTableName stmt) && isSome (exec reTableContent stmt).

(** A non-empty run of letters, digits and underscores. *)
Definition isIdentifier (name : string) : bool :=
  Js.nonEmpty name && Js.allStr Js.isWord name.

(** The columns of an index that name no field of the table, case apart. *)
Definition missingColumnsOf (table : TableInfo) (index : TableIndex)
  : list string :=
  filter (fun col =>
            negb (existsb (fun field => sameName col (f_name field))
                    (fields table)))
    (ix_columns index).

(** The index entries of a field: one for each index of the table that
    has the field among its columns, in the order of the indexes. *)
Definition indexesOfField (table : TableInfo) (field : TableField)
  : list FieldIndex :=
  map (fun index => fieldIndexOf index field)
    (filter (fun index => coversField index field) (indexes table)).

(** The table is consistent: every index records its missing columns, and
    every field the indexes that cover it. *)
Definition linked (table : TableInfo) : Prop :=
  Forall (fun index =>
            ix_missingColumns index = Some (missingColumnsOf table index))
    (indexes table) /\
  Forall (fun field => f_indexes field = indexesOfField table field)
    (fields table).

(** The names of an index are identifiers. *)
Definition indexNamed (index : TableIndex) : Prop :=
  isIdentifier (ix_name index) = true /\
  Forall (fun col => isIdentifier col = true) (ix_columns index).

(** The names of a table, of its fields and of its indexes are
    identifiers. *)
Definition tableNamed (table : TableInfo) : Prop :=
  isIdentifier (tableName table) = true /\
  Forall (fun field => isIdentifier (f_name field) = true) (fields table) /\
  Forall indexNamed (indexes table).

(** Names that a lookup in the record of tables would find on every
    record, whatever its own keys; the record of tables is modelled with
    its own keys only. *)
Definition inheritedName (key : string) : bool :=
  String.eqb key "__proto__" || String.eqb key "constructor".

(** The statement neither creates a table named [__proto__] nor names an
    inherited name as the table of an index. *)
Definition ownNamesOnly (stmt : string) : bool :=
  match parseCreateTable stmt with
  | Ok table =>
      negb (String.eqb (Js.toLowerCase (tableName table)) "__proto__")
  | Throw _ => true
  end
  && match parseCreateIndex stmt with
     | Some indexResult =>
         negb (inheritedName (Js.toLowerCase (si_tableName indexResult)))
     | None => true
     end.

(** The statements of an input, as [parseDDL] splits them. *)
Definition statementsOf (ddl : string) : list string :=
  splitStatements (removeComments ddl).

End DdlSpec.

(* ================================================================== *)
(** ** Predicates on patterns and their captures *)

Module RegexSpec.
Import Regex DdlSpec.

(** Every group of [r] whose number is in [ids] is a non-empty run of
    word characters. *)
Fixpoint wordGroups (ids : nat -> bool) (r : regex) : Prop :=
  match r with
  | Cat r1 r2 | Alt r1 r2 => wordGroups ids r1 /\ wordGroups ids r2
  | Star _ r1 => wordGroups ids r1
  | Group n r1 => if ids n then r1 = plus w else wordGroups ids r1
  | _ => True
  end.

(** The first group, and the second and third. *)
Definition group1 (n : nat) : bool := n =? 1.
Definition group23 (n : nat) : bool := (n =? 2) || (n =? 3).

(** The captures of the groups in [ids] are identifiers. *)
Definition capsOk (ids : nat -> bool) (cs : list (nat * string)) : Prop :=
  forall n s0, In (n, s0) cs -> ids n = true -> isIdentifier s0 = true.

(** A continuation that keeps a property of the captures. *)
Definition preserves (I : list (nat * string) -> Prop)
  (k : state -> option state) : Prop :=
  forall st out, I (caps st) -> k st = Some out -> I (caps out).

(** Group [n] has captured. *)
Definition captured (n : nat) (cs : list (nat * string)) : Prop :=
  lookupGroup n cs <> None.

(** Every match of [r] goes through group [n]. *)
Fixpoint mustCapture (n : nat) (r : regex) : bool :=
  match r with
  | Cat r1 r2 => mustCapture n r1 || mustCapture n r2
  | Alt r1 r2 => mustCapture n r1 && mustCapture n r2
  | Group n' r1 => (n =? n') || mustCapture n r1
  | _ => false
  end.

End RegexSpec.

(* ================================================================== *)
(** ** Predicates of the further properties of the PHP-array converter *)

Module PhpSpec.
Import Regex Php.

(** Every occurrence of the character [c] replaced by [repl]. *)
Fixpoint replaceChar (c : ascii) (repl : string) (str : string) : string :=
  match str with
  | EmptyString => EmptyString
  | String x str' =>
      if Ascii.eqb c x then repl +++ replaceChar c repl str'
      else String x (replaceChar c repl str')
  end.

(** Every occurrence of the two characters [a], [b] replaced by [repl],
    from left to right. *)
Fixpoint replacePair (a b : ascii) (repl : string) (str : string) : string :=
  match str with
  | EmptyString => EmptyString
  | String x str' =>
      match str' with
      | EmptyString => str
      | String y str'' =>
          if Ascii.eqb a x && Ascii.eqb b y
          then repl +++ replacePair a b repl str''
          else String x (replacePair a b repl str')
      end
  end.

(** The text has no backslash. *)
Definition noBackslash (str : string) : bool :=
  Js.allStr (fun c => negb (Ascii.eqb c Js.BACKSLASH)) str.

(** What [escapeString] writes for a character other than the backslash. *)
Definition escapeChar (c : ascii) : string :=
  if Ascii.eqb c Js.SQUOTE then bs +++ sq
  else if Ascii.eqb c Js.LF then bs +++ "n"
  else if Ascii.eqb c Js.CR then bs +++ "r"
  else if Ascii.eqb c Js.TAB then bs +++ "t"
  else Js.str1 c.

Fixpoint flatMap (g : ascii -> string) (str : string) : string :=
  match str with
  | EmptyString => EmptyString
  | String x str' => g x +++ flatMap g str'
  end.

(** [str'] is [str] with some characters changed, each change allowed by
    [change]. *)
Fixpoint changedOnly (change : ascii -> ascii -> bool) (str str' : string)
  : bool :=
  match str, str' with
  | EmptyString, EmptyString => true
  | String c s0, String c' s0' =>
      (Ascii.eqb c c' || change c c') && changedOnly change s0 s0'
  | _, _ => false
  end.

(** A round parenthesis into the square bracket of the same side. *)
Definition parenToBracket (c c' : ascii) : bool :=
  (Ascii.eqb c "(" && Ascii.eqb c' "[") || (Ascii.eqb c ")" && Ascii.eqb c' "]").

(** A single quote into a double quote. *)
Definition singleToDouble (c c' : ascii) : bool :=
  Ascii.eqb c Js.SQUOTE && Ascii.eqb c' Js.DQUOTE.

(** A square bracket into the brace of the same side. *)
Definition bracketToBrace (c c' : ascii) : bool :=
  (Ascii.eqb c "[" && Ascii.eqb c' "{") || (Ascii.eqb c "]" && Ascii.eqb c' "}").

(** The pair points at an opening and at a closing square bracket of
    [full]. *)
Definition validPair (full : string) (p : Pair) : Prop :=
  String.get (pair_open p) full = Some "["%char /\
  String.get (pair_close p) full = Some "]"%char.

Definition validOpen (full : string) (o : OpenBracket) : Prop :=
  String.get (open_index o) full = Some "["%char.

(** [str] is [full] from position [i] on. *)
Definition suffixAt (full : string) (i : nat) (str : string) : Prop :=
  forall k, String.get (i + k) full = String.get k str.

End PhpSpec.

(* ================================================================== *)
(** ** The loops of the embedding run to their end

    The loops of the source that move a cursor through a string or a token
    array are recursions on a counter here.  The counter given to each of
    them is enough: a larger one gives the same result, and the strict
    parser never stops for lack of it. *)

Module Termination.
Import Regex ParserSpec.


(** The matcher only moves forward: the state handed to the continuation is
    no longer than the state at which the expression starts. *)
Lemma run_forward r :
  forall k st0 out,
    run r k st0 = Some out ->
    exists st1, k st1 = Some out /\ len st1 <= len st0.
Proof.
  induction r as [|p|r1 IH1 r2 IH2|r1 IH1 r2 IH2|greedy r1 IH1|n r1 IH1
                  |m|m|]; intros k st0 out H; simpl in H.
  - eauto.
  - destruct (rest st0) as [|c t] eqn:E; [discriminate|].
    destruct (p c); [|discriminate].
    eexists; split; [exact H|]. unfold len. simpl. rewrite E. simpl. lia.
  - apply IH1 in H. destruct H as [st1 [H Hle]].
    apply IH2 in H. destruct H as [st2 [H Hle2]].
    exists st2. split; [exact H|lia].
  - destruct (run r1 k st0) eqn:E.
    + inversion H; subst. apply IH1 in E. exact E.
    + apply IH2 in H. exact H.
  - revert H. generalize (String.length (rest st0)) as fuel.
    intros fuel. revert st0 out.
    induction fuel as [|fuel IHf]; intros st0 out H; [eauto|].
    simpl in H.
    assert (Hmore : forall o,
      run r1 (fun s' =>
                if String.length (rest s') <? String.length (rest st0)
                then starLoop (run r1) greedy k fuel s' else None) st0
      = Some o ->
      exists st1, k st1 = Some o /\ len st1 <= len st0).
    { intros o Ho. apply IH1 in Ho. destruct Ho as [st1 [Ho Hle]].
      destruct (String.length (rest st1) <? String.length (rest st0));
        [|discriminate].
      apply IHf in Ho. destruct Ho as [st2 [Ho Hle2]].
      exists st2. split; [exact Ho|lia]. }
    destruct greedy.
    + destruct (run r1 _ st0) as [o|]; [|eauto]. apply Hmore, H.
    + destruct (k st0) eqn:Ek; [inversion H; subst; eauto|].
      apply Hmore, H.
  - apply IH1 in H. destruct H as [st1 [H Hle]].
    eexists; split; [exact H|]. exact Hle.
  - destruct (prev st0); [|eauto].
    destruct (m && Js.isLineTerminator a); [eauto|discriminate].
  - destruct (rest st0) eqn:E; [eauto|].
    destruct (m && Js.isLineTerminator a); [eauto|discriminate].
  - destruct (xorb _ _); [eauto|discriminate].
Qed.

Lemma matchAt_forward r p str st :
  matchAt r p str = Some st -> String.length (rest st) <= String.length str.
Proof.
  unfold matchAt. intros H. apply run_forward in H.
  destruct H as [st1 [H Hle]]. inversion H; subst. exact Hle.
Qed.

(** [replaceAll] gives its loop enough steps: more of them change
    nothing. *)
Lemma replaceLoop_enough r f :
  forall fuel1 fuel2 p str,
    String.length str < fuel1 -> String.length str < fuel2 ->
    replaceLoop fuel1 r f p str = replaceLoop fuel2 r f p str.
Proof.
  induction fuel1 as [|fuel1 IH]; intros fuel2 p str H1 H2; [lia|].
  destruct fuel2 as [|fuel2]; [lia|]. simpl.
  assert (Hstep :
    match str with
    | EmptyString => EmptyString
    | String c s' => String c (replaceLoop fuel1 r f (Some c) s')
    end =
    match str with
    | EmptyString => EmptyString
    | String c s' => String c (replaceLoop fuel2 r f (Some c) s')
    end).
  { destruct str as [|c s']; [reflexivity|]. simpl in H1, H2.
    f_equal. apply IH; lia. }
  destruct (matchAt r p str) as [st|] eqn:E; [|exact Hstep].
  pose proof (matchAt_forward _ _ _ _ E) as Hle.
  destruct (Js.take (String.length str - String.length (rest st)) str)
    as [|c m] eqn:Em.
  - rewrite Hstep. reflexivity.
  - f_equal. apply IH.
    + assert (String.length str - String.length (rest st) <> 0).
      { intros Hz. rewrite Hz in Em. destruct str; discriminate. }
      lia.
    + assert (String.length str - String.length (rest st) <> 0).
      { intros Hz. rewrite Hz in Em. destruct str; discriminate. }
      lia.
Qed.

Lemma replaceAll_enough r f str fuel :
  String.length str < fuel ->
  replaceLoop fuel r f None str = replaceAll r f str.
Proof. intros H. apply replaceLoop_enough; [exact H|lia]. Qed.

(** *** The tokenizer *)

Import Php.

Lemma scanString_shorter quote :
  forall n str value raw after,
    String.length str <= n ->
    scanString quote str value = (raw, after) ->
    String.length after <= String.length str.
Proof.
  induction n as [|n IH]; intros str value raw after Hn H.
  - destruct str; [|simpl in Hn; lia]. inversion H; subst. simpl. lia.
  - destruct str as [|c str']; [inversion H; subst; simpl; lia|].
    simpl in Hn, H.
    destruct (Ascii.eqb c quote); [inversion H; subst; simpl; lia|].
    destruct (Ascii.eqb c Js.BACKSLASH).
    + destruct str' as [|c2 str''].
      * simpl in H. inversion H; subst. simpl. lia.
      * apply IH in H; simpl in *; lia.
    + apply IH in H; simpl in *; lia.
Qed.

Lemma span_shorter p :
  forall str taken after,
    span p str = (taken, after) ->
    String.length after <= String.length str /\
    (Php.nextIs p str = true -> String.length after < String.length str).
Proof.
  induction str as [|c str' IH]; intros taken after H; simpl in H.
  - inversion H; subst. simpl. split; [lia|discriminate].
  - simpl. destruct (p c) eqn:E.
    + destruct (span p str') as [a b] eqn:Es. inversion H; subst.
      destruct (IH a after eq_refl) as [Hle _]. split; [lia|intros _; lia].
    + inversion H; subst. simpl. split; [lia|discriminate].
Qed.

(** [tokenize] gives its loop enough steps. *)
Lemma tokenizeLoop_enough :
  forall fuel1 fuel2 str tokens,
    String.length str < fuel1 -> String.length str < fuel2 ->
    tokenizeLoop fuel1 str tokens = tokenizeLoop fuel2 str tokens.
Proof.
  induction fuel1 as [|fuel1 IH]; intros fuel2 str tokens H1 H2; [lia|].
  destruct fuel2 as [|fuel2]; [lia|].
  destruct str as [|char str']; [reflexivity|].
  simpl in H1, H2. cbn [tokenizeLoop].
  destruct (Js.isSpace char); [apply IH; lia|].
  destruct (Ascii.eqb char Js.DQUOTE || Ascii.eqb char Js.SQUOTE).
  { destruct (scanString char str' EmptyString) as [value after] eqn:E.
    apply scanString_shorter with (n := String.length str') in E; [|lia].
    apply IH; lia. }
  destruct (Js.isDigit char
            || Ascii.eqb char "-" && nextIs Js.isDigit str') eqn:Enum.
  { destruct (Ascii.eqb char "-") eqn:Eminus.
    - destruct (span _ str') as [digits after] eqn:E.
      apply span_shorter in E. apply IH; lia.
    - destruct (span _ (String char str')) as [digits after] eqn:E.
      apply span_shorter in E. destruct E as [_ E].
      simpl in Enum. rewrite orb_false_r in Enum.
      simpl in E. rewrite Enum in E. specialize (E eq_refl).
      simpl in E. apply IH; lia. }
  destruct (Js.isAlpha char || Ascii.eqb char "_") eqn:Eid.
  { destruct (span Js.isWord (String char str')) as [value after] eqn:E.
    apply span_shorter in E. destruct E as [_ E].
    assert (Hw : Js.isWord char = true).
    { unfold Js.isWord. apply orb_true_iff in Eid.
      destruct Eid as [Ha|Hu].
      - rewrite Ha. reflexivity.
      - apply Ascii.eqb_eq in Hu. subst. reflexivity. }
    simpl in E. specialize (E Hw). simpl in E. apply IH; lia. }
  destruct (Ascii.eqb char "=" && nextIs (Ascii.eqb ">") str').
  { apply IH; destruct str'; simpl in *; lia. }
  destruct (singleCharTokens char); apply IH; lia.
Qed.

Lemma tokenize_enough str fuel :
  String.length str < fuel ->
  tokenizeLoop fuel str [] = tokenize str.
Proof. intros H. apply tokenizeLoop_enough; [exact H|lia]. Qed.

(** *** The strict parser *)

Section StrictParser.

Variable tokens : list Token.


Lemma remaining_pos p t :
  nth_error tokens p = Some t -> 0 < remaining tokens p.
Proof.
  intros H. assert (p < List.length tokens)
    by (apply nth_error_Some; congruence).
  unfold remaining. lia.
Qed.

Lemma remaining_mono p q :
  p <= q -> remaining tokens q <= remaining tokens p.
Proof. unfold remaining. lia. Qed.

Lemma remaining_step p q :
  0 < remaining tokens p -> p < q ->
  remaining tokens q < remaining tokens p.
Proof. unfold remaining. lia. Qed.

Lemma valueOk_step fuel : arrayOk tokens fuel -> valueOk tokens (S fuel).
Proof.
  intros HA pos Hfuel. simpl.
  destruct (nth_error tokens pos) as [token|] eqn:E.
  - destruct token;
      try (eexists; split; [reflexivity|];
           intros v pos' Heq; inversion Heq; subst; lia);
      try (eexists; split; [reflexivity|]; intros v pos' Heq; discriminate);
      apply HA; try (rewrite E; reflexivity); lia.
  - eexists; split; [reflexivity|]. intros v pos' Heq. discriminate.
Qed.

Lemma skipOpening_forward pos :
  isOpening (nth_error tokens pos) = true -> pos < skipOpening tokens pos.
Proof.
  unfold skipOpening. destruct (nth_error tokens pos) as [[]|];
    try discriminate; intros _; [|lia].
  destruct (nth_error tokens (S pos)) as [[]|]; lia.
Qed.

Lemma skipClosing_forward pos : pos <= skipClosing tokens pos.
Proof. unfold skipClosing. destruct (isClosing _); lia. Qed.

Lemma arrayOk_step fuel : loopOk tokens fuel -> arrayOk tokens (S fuel).
Proof.
  intros HL pos Hopen Hfuel. simpl.
  pose proof (skipOpening_forward pos Hopen) as Hpos1.
  assert (Hpos : 0 < remaining tokens pos).
  { destruct (nth_error tokens pos) eqn:E; [|discriminate].
    eapply remaining_pos, E. }
  destruct (HL (mkArrayState [] true 0 (skipOpening tokens pos)))
    as [res [Hres Hprog]].
  { simpl. pose proof (remaining_step _ _ Hpos Hpos1). lia. }
  rewrite Hres. destruct res as [st|e]; simpl.
  - specialize (Hprog st eq_refl). simpl in Hprog.
    pose proof (skipClosing_forward (Php.pos st)).
    destruct (isIndexedArray st); eexists; (split; [reflexivity|]);
      intros v pos' Heq; inversion Heq; subst; lia.
  - eexists; split; [reflexivity|]. intros v pos' Heq. discriminate.
Qed.

Lemma elementsLoop_step fuel st :
  elementsLoop (S fuel) tokens st =
  match nth_error tokens (pos st) with
  | None => ret st
  | Some t =>
      if isClosing (Some t) then ret st
      else
        bind
          (if isArrow (nth_error tokens (S (pos st))) then
             bind (parseValue fuel tokens (pos st))
               (fun '(keyValue, pos') =>
                  let key :=
                    match keyValue with
                    | VNumber n => Num.toString n
                    | _ => JsString keyValue
                    end in
                  ret (key, S pos', false))
           else ret (Js.natToString (index st), pos st, isIndexedArray st))
          (fun '(key, pos', isIndexedArray') =>
             bind (parseValue fuel tokens pos')
               (fun '(value, pos'') =>
                  elementsLoop fuel tokens
                    (mkArrayState (Obj.set key value (result st))
                       isIndexedArray'
                       (if isIndexedArray' then S (index st) else index st)
                       (if isComma (nth_error tokens pos'')
                        then S pos'' else pos''))))
  end.
Proof. reflexivity. Qed.

Lemma loopOk_step fuel :
  valueOk tokens fuel -> loopOk tokens fuel -> loopOk tokens (S fuel).
Proof.
  intros HV HL st Hfuel. rewrite elementsLoop_step.
  destruct (nth_error tokens (pos st)) as [t|] eqn:E.
  2:{ eexists; split; [reflexivity|]. intros st' Heq.
      inversion Heq; subst. lia. }
  destruct (isClosing (Some t)).
  { eexists; split; [reflexivity|]. intros st' Heq.
    inversion Heq; subst. lia. }
  pose proof (remaining_pos _ _ E) as Hpos.
  (* the value, then the rest of the loop, from a cursor [p >= pos st] *)
  assert (Hvalue : forall key p isIdx,
    pos st <= p ->
    exists res,
      bind (parseValue fuel tokens p)
        (fun '(value, pos'') =>
           elementsLoop fuel tokens
             (mkArrayState (Obj.set key value (result st)) isIdx
                (if isIdx then S (index st) else index st)
                (if isComma (nth_error tokens pos'') then S pos''
                 else pos''))) = Some res /\
      forall st', res = Ok st' -> pos st <= pos st').
  { intros key p isIdx Hp.
    destruct (HV p) as [res [Hres Hprog]].
    { pose proof (remaining_mono _ _ Hp). lia. }
    rewrite Hres. destruct res as [[value pos'']|e]; cbn [bind].
    - specialize (Hprog value pos'' eq_refl).
      set (st1 := mkArrayState _ _ _ _).
      assert (Hst1 : pos st < pos st1)
        by (unfold st1; cbn [pos]; destruct (isComma _); lia).
      destruct (HL st1) as [res2 [Hres2 Hprog2]].
      { pose proof (remaining_step _ _ Hpos Hst1). lia. }
      exists res2. split; [exact Hres2|].
      intros st' Heq. specialize (Hprog2 st' Heq). lia.
    - eexists; split; [reflexivity|]. intros st' Heq. discriminate. }
  destruct (isArrow (nth_error tokens (S (pos st)))).
  - destruct (HV (pos st)) as [res [Hres Hprog]]; [lia|].
    rewrite Hres. destruct res as [[keyValue pos']|e]; cbn [bind ret].
    + specialize (Hprog keyValue pos' eq_refl).
      apply Hvalue. lia.
    + eexists; split; [reflexivity|]. intros st' Heq. discriminate.
  - cbn [bind ret]. apply Hvalue. lia.
Qed.

Lemma parser_ok fuel :
  valueOk tokens fuel /\ arrayOk tokens fuel /\ loopOk tokens fuel.
Proof.
  induction fuel as [|fuel [HV [HA HL]]].
  - split; [|split].
    + intros pos H. lia.
    + intros pos Hopen H.
      destruct (nth_error tokens pos) eqn:E; [|discriminate].
      pose proof (remaining_pos _ _ E). lia.
    + intros st H. lia.
  - split; [|split].
    + apply valueOk_step, HA.
    + apply arrayOk_step, HL.
    + apply loopOk_step; assumption.
Qed.

(** The strict parser returns a value or throws: it never stops for lack of
    fuel. *)
Lemma parseTokens_total :
  exists res, parseTokens tokens = Some res.
Proof.
  unfold parseTokens.
  destruct (parser_ok (3 * List.length tokens + 3)) as [HV _].
  destruct (HV 0) as [res [Hres _]]; [unfold remaining; lia|].
  rewrite Hres. destruct res as [[v p]|e]; eexists; reflexivity.
Qed.

End StrictParser.

Lemma smartParsePHPArray_total phpString :
  exists res, smartParsePHPArray phpString = Some res.
Proof. apply parseTokens_total. Qed.

Lemma parsePHPArray_total JSON_parse phpString :
  exists res, parsePHPArray JSON_parse phpString = Some res.
Proof.
  unfold parsePHPArray.
  destruct (smartParsePHPArray_total (cleanInput phpString)) as [res H].
  rewrite H. destruct res; [eexists; reflexivity|].
  unfold simpleParsePHPArray.
  destruct (JSON_parse _); eexists; reflexivity.
Qed.

End Termination.

(* ================================================================== *)
(** ** Properties of the JSON differ *)

Module JsonDiffFacts.
Import JsonDiff DiffSpec.

(** *** The source's functions as equations of [compareValues] *)

Lemma compareValues_objects oldObj newObj path mode diffs :
  compareValues (VObject oldObj) (VObject newObj) path mode diffs =
  compareObjects oldObj newObj path mode diffs.
Proof.
  unfold compareObjects. simpl. f_equal.
  generalize (match mode with
              | strict =>
                  checkKeyOrder (Obj.keys oldObj) (Obj.keys newObj) path diffs
              | loose => diffs
              end).
  induction oldObj as [|[k v] es IH]; intros d; simpl; [reflexivity|].
  apply IH.
Qed.

Lemma compareValues_arrays oldArr newArr path mode diffs :
  compareValues (VArray oldArr) (VArray newArr) path mode diffs =
  compareArrays oldArr newArr path mode diffs.
Proof.
  unfold compareArrays. simpl. generalize 0 at 1 2. revert newArr diffs.
  induction oldArr as [|o os IH]; intros ns d i; simpl; [reflexivity|].
  destruct ns; apply IH.
Qed.

Lemma compareValues_mismatch oldVal newVal path mode diffs :
  tagEqb (getValueType oldVal) (getValueType newVal) = false ->
  compareValues oldVal newVal path mode diffs =
  push diffs (modifiedItem (orRoot path) oldVal newVal).
Proof.
  intros H. destruct oldVal; simpl in *; rewrite H; reflexivity.
Qed.

Lemma tagEqb_eq a b : tagEqb a b = true <-> a = b.
Proof. destruct a, b; simpl; split; congruence. Qed.

(** *** Membership and distinct keys *)

Lemma includes_In k ks : Obj.includes k ks = true <-> In k ks.
Proof.
  induction ks as [|k' ks IH]; simpl; [split; [discriminate|tauto]|].
  rewrite orb_true_iff, IH, String.eqb_eq. split; intros [H|H]; auto.
Qed.

Lemma distinct_NoDup ks : Obj.distinct ks = true <-> NoDup ks.
Proof.
  induction ks as [|k ks IH]; simpl; [split; [constructor|reflexivity]|].
  rewrite andb_true_iff, negb_true_iff, IH. split.
  - intros [Hn Hd]. constructor; [|exact Hd].
    intros Hin. apply includes_In in Hin. congruence.
  - intros H. inversion H; subst. split; [|assumption].
    destruct (Obj.includes k ks) eqn:E; [|reflexivity].
    apply includes_In in E. contradiction.
Qed.

Lemma get_In {A} k (v : A) o :
  NoDup (Obj.keys o) -> In (k, v) o -> Obj.get k o = Some v.
Proof.
  induction o as [|[k' v'] o IH]; simpl; intros Hnd Hin; [contradiction|].
  inversion Hnd; subst. destruct Hin as [Heq|Hin].
  - inversion Heq; subst. rewrite String.eqb_refl. reflexivity.
  - destruct (String.eqb k k') eqn:E.
    + apply String.eqb_eq in E; subst. exfalso. apply H1.
      change k' with (fst (k', v)). apply in_map. exact Hin.
    + apply IH; assumption.
Qed.

Lemma has_In {A} k (v : A) o : In (k, v) o -> Obj.has k o = true.
Proof.
  unfold Obj.has. induction o as [|[k' v'] o IH]; simpl; [contradiction|].
  intros [Heq|Hin].
  - inversion Heq; subst. rewrite String.eqb_refl. reflexivity.
  - destruct (String.eqb k k'); [reflexivity|]. apply IH, Hin.
Qed.

(** *** The key loop is the loop over [allKeys] *)

Lemma has_includes {A} k (o : list (string * A)) :
  Obj.has k o = Obj.includes k (Obj.keys o).
Proof.
  unfold Obj.has. induction o as [|[k' v'] o IH]; simpl; [reflexivity|].
  destruct (String.eqb k k'); [reflexivity|exact IH].
Qed.

Lemma get_None {A} k (o : list (string * A)) :
  Obj.includes k (Obj.keys o) = false -> Obj.get k o = None.
Proof.
  rewrite <- has_includes. unfold Obj.has.
  destruct (Obj.get k o); [discriminate|reflexivity].
Qed.

Lemma keysLoop_app oldObj newObj basePath mode keys1 keys2 :
  forall diffs,
    keysLoop oldObj newObj basePath mode (keys1 ++ keys2) diffs =
    keysLoop oldObj newObj basePath mode keys2
      (keysLoop oldObj newObj basePath mode keys1 diffs).
Proof.
  induction keys1 as [|k keys1 IH]; intros diffs; simpl; [reflexivity|].
  apply IH.
Qed.

Lemma keysLoop_old oldObj newObj basePath mode es :
  (forall k v, In (k, v) es -> Obj.get k oldObj = Some v) ->
  forall diffs,
    keysLoop oldObj newObj basePath mode (Obj.keys es) diffs =
    oldKeysLoop newObj basePath mode es diffs.
Proof.
  induction es as [|[k v] es IH]; intros Hget diffs; simpl; [reflexivity|].
  rewrite (Hget k v) by (left; reflexivity).
  rewrite IH by (intros k' v' Hin; apply Hget; right; exact Hin).
  destruct (Obj.get k newObj); reflexivity.
Qed.

Lemma keysLoop_new oldObj newObj basePath mode es :
  (forall k v, In (k, v) es -> Obj.get k newObj = Some v) ->
  forall diffs,
    keysLoop oldObj newObj basePath mode
      (filter (fun key => negb (Obj.includes key (Obj.keys oldObj)))
         (Obj.keys es)) diffs =
    addedKeys basePath oldObj es diffs.
Proof.
  induction es as [|[k v] es IH]; intros Hget diffs; simpl; [reflexivity|].
  rewrite has_includes.
  destruct (Obj.includes k (Obj.keys oldObj)) eqn:E; simpl.
  - apply IH. intros k' v' Hin. apply Hget. right. exact Hin.
  - rewrite (get_None _ _ E), (Hget k v) by (left; reflexivity).
    apply IH. intros k' v' Hin. apply Hget. right. exact Hin.
Qed.

(** On objects with distinct keys, [compareObjects] is the source's loop
    over the union of the keys, after the order check of strict mode. *)
Lemma compareObjects_allKeys oldObj newObj basePath mode diffs :
  NoDup (Obj.keys oldObj) -> NoDup (Obj.keys newObj) ->
  compareObjects oldObj newObj basePath mode diffs =
  keysLoop oldObj newObj basePath mode
    (allKeys (Obj.keys oldObj) (Obj.keys newObj))
    (match mode with
     | strict =>
         checkKeyOrder (Obj.keys oldObj) (Obj.keys newObj) basePath diffs
     | loose => diffs
     end).
Proof.
  intros Hold Hnew. unfold compareObjects, allKeys.
  rewrite keysLoop_app, keysLoop_old, keysLoop_new; [reflexivity| |].
  - intros k v Hin. apply get_In; assumption.
  - intros k v Hin. apply get_In; assumption.
Qed.

(** *** Reflexivity *)

Lemma num_eqb_refl n : Num.isFinite n = true -> Num.eqb n n = true.
Proof. destruct n; simpl; try discriminate. intros _. apply Z.eqb_refl. Qed.

Lemma checkKeyOrderLoop_same basePath rest :
  forall pre diffs,
    checkKeyOrderLoop (pre ++ rest) basePath (List.length pre) rest diffs
    = diffs.
Proof.
  induction rest as [|key rest IH]; intros pre diffs; simpl; [reflexivity|].
  rewrite nth_error_app2 by lia. rewrite Nat.sub_diag. simpl.
  rewrite String.eqb_refl. simpl.
  replace (pre ++ key :: rest) with ((pre ++ [key]) ++ rest)
    by (rewrite <- app_assoc; reflexivity).
  replace (S (List.length pre)) with (List.length (pre ++ [key]))
    by (rewrite length_app; simpl; lia).
  apply IH.
Qed.

Lemma checkKeyOrder_same keys basePath diffs :
  checkKeyOrder keys keys basePath diffs = diffs.
Proof.
  unfold checkKeyOrder. apply (checkKeyOrderLoop_same basePath _ []).
Qed.

Lemma addedKeys_subset basePath oldObj newObj diffs :
  (forall k v, In (k, v) newObj -> Obj.has k oldObj = true) ->
  addedKeys basePath oldObj newObj diffs = diffs.
Proof.
  revert diffs. induction newObj as [|[k v] o IH]; intros diffs H; simpl;
    [reflexivity|].
  rewrite (H k v) by (left; reflexivity).
  apply IH. intros k' v' Hin. apply (H k' v'). right. exact Hin.
Qed.

Lemma isJson_object props :
  isJson (VObject props) = true ->
  NoDup (Obj.keys props) /\
  Forall (fun kv => isJson (snd kv) = true) props.
Proof.
  unfold isJson. simpl. rewrite !andb_true_iff.
  intros [[Hd Hu] Hf]. split; [apply distinct_NoDup, Hd|].
  rewrite forallb_forall in Hu, Hf. apply Forall_forall. intros kv Hin.
  rewrite (Hu kv Hin), (Hf kv Hin). reflexivity.
Qed.

Lemma isJson_array items :
  isJson (VArray items) = true ->
  Forall (fun v => isJson v = true) items.
Proof.
  unfold isJson. simpl. rewrite andb_true_iff. intros [Hu Hf].
  rewrite forallb_forall in Hu, Hf. apply Forall_forall. intros v Hin.
  rewrite (Hu v Hin), (Hf v Hin). reflexivity.
Qed.


Lemma oldKeysLoop_same newObj basePath mode es :
  Forall (fun kv => reflAt (snd kv)) es ->
  Forall (fun kv => isJson (snd kv) = true) es ->
  (forall k v, In (k, v) es -> Obj.get k newObj = Some v) ->
  forall diffs, oldKeysLoop newObj basePath mode es diffs = diffs.
Proof.
  induction es as [|[k v] es IH]; intros Hr Hj Hget diffs; simpl;
    [reflexivity|].
  inversion Hr; subst. inversion Hj; subst. simpl in *.
  rewrite (Hget k v) by (left; reflexivity).
  rewrite H1 by assumption.
  apply IH; try assumption. intros k' v' Hin. apply Hget. right. exact Hin.
Qed.

Lemma indexLoop_same basePath mode os :
  Forall reflAt os ->
  Forall (fun v => isJson v = true) os ->
  forall i diffs, indexLoop basePath mode os os i diffs = diffs.
Proof.
  induction os as [|o os IH]; intros Hr Hj i diffs; simpl; [reflexivity|].
  inversion Hr; subst. inversion Hj; subst.
  rewrite H1 by assumption. apply IH; assumption.
Qed.

Lemma compareValues_refl v : reflAt v.
Proof.
  induction v using Value_deep_ind; intros Hj path mode diffs.
  - reflexivity.
  - simpl. rewrite Bool.eqb_reflx. reflexivity.
  - simpl. rewrite num_eqb_refl; [reflexivity|].
    unfold isJson in Hj. simpl in Hj. exact Hj.
  - simpl. rewrite String.eqb_refl. reflexivity.
  - rewrite compareValues_arrays. unfold compareArrays.
    apply indexLoop_same; [assumption|]. apply isJson_array, Hj.
  - rewrite compareValues_objects. unfold compareObjects.
    destruct (isJson_object _ Hj) as [Hnd Hall].
    assert (Hloop : forall d, oldKeysLoop props path mode props d = d).
    { apply oldKeysLoop_same; try assumption.
      intros k v Hin. apply get_In; assumption. }
    rewrite Hloop. rewrite addedKeys_subset.
    + destruct mode; [apply checkKeyOrder_same|reflexivity].
    + intros k v Hin. eapply has_In, Hin.
Qed.

(** C9. Reflexivity of the differ: comparing a JSON value with itself, in
    strict or in loose mode, reports equality and an empty list of
    differences. *)
Theorem compareJson_reflexive (a : JsonValue) (mode : DiffMode) :
  isJson a = true ->
  compareJson a a mode = mkDiffResult true [].
Proof.
  intros Hj. unfold compareJson.
  rewrite (compareValues_refl a Hj). reflexivity.
Qed.


Lemma compareJson_reflexive_witness :
  isJson sampleTree = true /\
  compareJson sampleTree sampleTree strict = mkDiffResult true [] /\
  compareJson sampleTree sampleTree loose = mkDiffResult true [].
Proof.
  split; [reflexivity|].
  split; apply compareJson_reflexive; reflexivity.
Defined.

(** *** Loose mode ignores the order of keys *)

(** C6. Loose-mode order invariance: two objects made of the same key-value
    pairs, in any two orders, compare equal in loose mode. *)
Theorem compareJson_loose_permutation
  (oldProps newProps : list (string * JsonValue)) :
  isJson (VObject oldProps) = true ->
  Permutation oldProps newProps ->
  res_isEqual (compareJson (VObject oldProps) (VObject newProps) loose)
  = true.
Proof.
  intros Hj Hperm. unfold compareJson.
  rewrite compareValues_objects. unfold compareObjects.
  destruct (isJson_object _ Hj) as [Hnd Hall].
  assert (Hnd' : NoDup (Obj.keys newProps)).
  { eapply Permutation_NoDup; [|exact Hnd].
    unfold Obj.keys. apply Permutation_map, Hperm. }
  rewrite oldKeysLoop_same.
  - rewrite addedKeys_subset; [reflexivity|].
    intros k v Hin. apply (has_In k v).
    eapply Permutation_in; [apply Permutation_sym, Hperm|exact Hin].
  - apply Forall_forall. intros kv _. apply compareValues_refl.
  - exact Hall.
  - intros k v Hin. apply get_In; [exact Hnd'|].
    eapply Permutation_in; [exact Hperm|exact Hin].
Qed.

Lemma compareJson_loose_permutation_witness :
  res_isEqual
    (compareJson
       (VObject [("x", VNumber (Finite 1 0)); ("y", VArray [VNull]);
                 ("z", VString "s")])
       (VObject [("z", VString "s"); ("x", VNumber (Finite 1 0));
                 ("y", VArray [VNull])])
       loose) = true.
Proof.
  apply compareJson_loose_permutation; [reflexivity|].
  apply Permutation_sym. apply (Permutation_cons_app [_; _] []).
  reflexivity.
Defined.

(** *** Type mismatch *)

(** C7. Type-mismatch termination: when the two values compared at a path
    have different type tags, the differ adds exactly one item, of type
    [modified], at that path (the root being written [(root)]), carrying both
    values as they are; nothing is reported for what lies below the path. *)
Theorem compareValues_type_mismatch
  (oldVal newVal : JsonValue) (path : string) (mode : DiffMode)
  (diffs : list DiffItem) :
  getValueType oldVal <> getValueType newVal ->
  compareValues oldVal newVal path mode diffs =
  diffs ++ [mkDiffItem (if Js.nonEmpty path then path else "(root)")
              modified (Some oldVal) (Some newVal) None None].
Proof.
  intros Hne. apply compareValues_mismatch.
  destruct (tagEqb (getValueType oldVal) (getValueType newVal)) eqn:E;
    [|reflexivity].
  apply tagEqb_eq in E. contradiction.
Qed.

Lemma compareValues_type_mismatch_witness :
  let oldVal := VObject [("a", VObject [("b", VNumber (Finite 1 0))])] in
  let newVal := VArray [VObject [("b", VNumber (Finite 2 0))]] in
  compareValues oldVal newVal "cfg" strict [] =
    [mkDiffItem "cfg" modified (Some oldVal) (Some newVal) None None] /\
  res_diffs (compareJson oldVal newVal loose) =
    [mkDiffItem "(root)" modified (Some oldVal) (Some newVal) None None].
Proof.
  split.
  - apply (compareValues_type_mismatch _ _ "cfg" strict []).
    simpl. discriminate.
  - unfold compareJson, res_diffs.
    apply (compareValues_type_mismatch _ _ EmptyString loose []).
    simpl. discriminate.
Defined.

(** *** The types of the reported items *)


Lemma emitted_push diffs d :
  Forall emitted diffs -> emitted d -> Forall emitted (push diffs d).
Proof.
  intros Hd He. unfold push. apply Forall_app. split; [assumption|].
  constructor; [assumption|constructor].
Qed.

Ltac emit := apply emitted_push; [assumption | unfold emitted; simpl; tauto].

Lemma emitted_checkKeyOrderLoop newCommonOrder basePath rest :
  forall i diffs,
    Forall emitted diffs ->
    Forall emitted (checkKeyOrderLoop newCommonOrder basePath i rest diffs).
Proof.
  induction rest as [|key rest IH]; intros i diffs H; simpl; [assumption|].
  apply IH.
  destruct (negb (sameKey key (nth_error newCommonOrder i))); [|assumption].
  destruct (negb (Z.of_nat i =? indexOf key newCommonOrder)%Z);
    [|assumption].
  destruct (negb _); [|assumption]. emit.
Qed.

Lemma emitted_addedKeys basePath oldObj newObj :
  forall diffs,
    Forall emitted diffs ->
    Forall emitted (addedKeys basePath oldObj newObj diffs).
Proof.
  induction newObj as [|[k v] o IH]; intros diffs H; simpl; [assumption|].
  apply IH. destruct (Obj.has k oldObj); [assumption|]. emit.
Qed.

Lemma emitted_addedItems basePath newArr :
  forall i diffs,
    Forall emitted diffs ->
    Forall emitted (addedItems basePath i newArr diffs).
Proof.
  induction newArr as [|v l IH]; intros i diffs H; simpl; [assumption|].
  apply IH. emit.
Qed.


Lemma emitted_oldKeysLoop newObj basePath mode es :
  Forall (fun kv => emitsAt (snd kv)) es ->
  forall diffs,
    Forall emitted diffs ->
    Forall emitted (oldKeysLoop newObj basePath mode es diffs).
Proof.
  induction es as [|[k v] es IH]; intros Hall diffs H; simpl; [assumption|].
  inversion Hall; subst. apply IH; [assumption|].
  destruct (Obj.get k newObj); [apply H2, H | emit].
Qed.

Lemma emitted_indexLoop basePath mode os :
  Forall emitsAt os ->
  forall ns i diffs,
    Forall emitted diffs ->
    Forall emitted (indexLoop basePath mode os ns i diffs).
Proof.
  induction os as [|o os IH]; intros Hall ns i diffs H; simpl.
  - apply emitted_addedItems, H.
  - inversion Hall; subst. destruct ns; apply IH; try assumption.
    + emit.
    + apply H2, H.
Qed.

Lemma emitted_compareValues v : emitsAt v.
Proof.
  induction v using Value_deep_ind; intros newVal path mode diffs Hd;
    match goal with
    | |- Forall _ (compareValues ?o ?n _ _ _) =>
        destruct (tagEqb (getValueType o) (getValueType n)) eqn:E
    end;
    try (rewrite compareValues_mismatch by exact E; emit);
    destruct newVal; try discriminate E.
  - simpl. assumption.
  - simpl. destruct (negb _); [emit|assumption].
  - simpl. destruct (negb _); [emit|assumption].
  - simpl. destruct (negb _); [emit|assumption].
  - rewrite compareValues_arrays. apply emitted_indexLoop; assumption.
  - rewrite compareValues_objects. unfold compareObjects.
    apply emitted_addedKeys, emitted_oldKeysLoop; [assumption|].
    destruct mode; [|assumption].
    apply emitted_checkKeyOrderLoop, Hd.
Qed.

(** C10. Whatever the two values and the mode, every item of the list that
    [compareJson] returns has type [added], [removed], [modified] or
    [order_changed]; an item of type [unchanged] is never produced. *)
Theorem compareJson_item_types (oldJson newJson : JsonValue)
  (mode : DiffMode) :
  Forall (fun d => (type d = added \/ type d = removed \/
                    type d = modified \/ type d = order_changed) /\
                   type d <> unchanged)
    (res_diffs (compareJson oldJson newJson mode)).
Proof.
  unfold compareJson, res_diffs.
  eapply Forall_impl; [|apply emitted_compareValues; constructor].
  intros d Hd. split; [exact Hd|].
  destruct Hd as [H|[H|[H|H]]]; rewrite H; discriminate.
Qed.

(** *** Strict mode sees the order of keys *)

(** C5. Strict-mode order sensitivity: for [a = {x:1, y:2}] and
    [b = {y:2, x:1}] the strict comparison is not equal and its list
    contains an item of type [order_changed]. *)
Theorem compareJson_strict_order_sensitive :
  let a := VObject [("x", VNumber (Finite 1 0)); ("y", VNumber (Finite 2 0))] in
  let b := VObject [("y", VNumber (Finite 2 0)); ("x", VNumber (Finite 1 0))] in
  res_isEqual (compareJson a b strict) = false /\
  Exists (fun d => type d = order_changed)
    (res_diffs (compareJson a b strict)).
Proof.
  split; [reflexivity|]. apply Exists_cons_hd. reflexivity.
Qed.

End JsonDiffFacts.

(* ================================================================== *)
(** ** Properties of the DDL parser *)

Module DdlFacts.
Import Regex Ddl.

(** *** One step of the statement loop *)

(** A statement that passes neither gate is skipped. *)
Lemma statementsLoop_skip stmt rest tables standaloneIndexes :
  test reCreateTable stmt = false ->
  test reCreateIndexGate stmt = false ->
  statementsLoop (stmt :: rest) tables standaloneIndexes =
  statementsLoop rest tables standaloneIndexes.
Proof. intros H1 H2. simpl. rewrite H1, H2. reflexivity. Qed.

(** A statement that passes the index gate and parses as an index is
    attached to its table when the table is known, and listed as a
    standalone index otherwise. *)
Lemma statementsLoop_index stmt rest tables standaloneIndexes indexResult :
  test reCreateTable stmt = false ->
  test reCreateIndexGate stmt = true ->
  parseCreateIndex stmt = Some indexResult ->
  statementsLoop (stmt :: rest) tables standaloneIndexes =
  let name := Js.toLowerCase (si_tableName indexResult) in
  match Obj.get name tables with
  | Some table =>
      statementsLoop rest
        (Obj.set name (attachIndex table (si_index indexResult)) tables)
        standaloneIndexes
  | None =>
      statementsLoop rest tables (standaloneIndexes ++ [indexResult])
  end.
Proof. intros H1 H2 H3. simpl. rewrite H1, H2, H3. reflexivity. Qed.

(** *** A malformed [CREATE TABLE] is fatal *)

Lemma parseCreateTable_throws stmt :
  exec reTableName stmt = None \/ exec reTableContent stmt = None ->
  exists e, parseCreateTable stmt = Throw e.
Proof.
  intros H. unfold parseCreateTable.
  destruct (exec reTableName stmt) as [nameMatch|].
  - destruct H as [H|H]; [discriminate|]. rewrite H. eauto.
  - eauto.
Qed.

Lemma statementsLoop_throws stmt statements :
  In stmt statements ->
  test reCreateTable stmt = true ->
  (exists e, parseCreateTable stmt = Throw e) ->
  forall tables standaloneIndexes,
    exists e, statementsLoop statements tables standaloneIndexes = Throw e.
Proof.
  intros Hin Hgate [e He].
  induction statements as [|s0 rest IH]; [contradiction|].
  intros tables standaloneIndexes. simpl.
  destruct Hin as [Heq|Hin].
  - subst s0. rewrite Hgate, He. eauto.
  - specialize (IH Hin).
    destruct (test reCreateTable s0).
    + destruct (parseCreateTable s0); [apply IH|eauto].
    + destruct (test reCreateIndexGate s0); [|apply IH].
      destruct (parseCreateIndex s0); [|apply IH].
      destruct (Obj.get _ tables); apply IH.
Qed.

(** C8. A fatal DDL error leaves no partial result: when some statement of
    the input matches [CREATE TABLE] and its table name or its parenthesized
    body cannot be extracted, [parseDDL] throws; it returns no result, and so
    none of the tables parsed from the statements before it. *)
Theorem parseDDL_fatal_create_table (ddl stmt : string) :
  In stmt (splitStatements (removeComments ddl)) ->
  test reCreateTable stmt = true ->
  exec reTableName stmt = None \/ exec reTableContent stmt = None ->
  (exists e, parseDDL ddl = Throw e) /\
  (forall r, parseDDL ddl <> Ok r).
Proof.
  intros Hin Hgate Hbad.
  assert (H : exists e, parseDDL ddl = Throw e).
  { unfold parseDDL. eapply statementsLoop_throws; eauto.
    apply parseCreateTable_throws, Hbad. }
  split; [exact H|]. destruct H as [e He]. intros r. rewrite He.
  discriminate.
Qed.

Lemma parseDDL_fatal_create_table_witness :
  let ddl := "CREATE TABLE users (id INT); CREATE TABLE orders;" in
  (exists t, parseDDL "CREATE TABLE users (id INT);"
             = Ok (mkDDLParseResult [t] [])) /\
  (exists e, parseDDL ddl = Throw e) /\
  (forall r, parseDDL ddl <> Ok r).
Proof.
  split; [eexists; vm_compute; reflexivity|].
  apply (parseDDL_fatal_create_table _ "CREATE TABLE orders").
  - vm_compute. right. left. reflexivity.
  - vm_compute. reflexivity.
  - right. vm_compute. reflexivity.
Defined.

(** *** [CREATE FULLTEXT INDEX] and [CREATE SPATIAL INDEX] statements *)

(** C2, at the input [CREATE FULLTEXT INDEX idx_ft ON articles (body);]:
    [parseCreateIndex] reads the statement as a [FULLTEXT] index on
    [articles], yet [parseDDL] does not pass the statement to it: the index
    is neither attached to the table [articles] when that table is known,
    nor listed among the standalone indexes when it is not.  The same holds
    for [SPATIAL]. *)
Theorem parseDDL_drops_fulltext_and_spatial_index :
  let fulltext := "CREATE FULLTEXT INDEX idx_ft ON articles (body)" in
  let spatial := "CREATE SPATIAL INDEX idx_sp ON places (location)" in
  parseCreateIndex fulltext =
    Some (mkStandaloneIndex "articles"
            (mkTableIndex FULLTEXT "idx_ft" ["body"] None)) /\
  parseCreateIndex spatial =
    Some (mkStandaloneIndex "places"
            (mkTableIndex SPATIAL "idx_sp" ["location"] None)) /\
  test reCreateIndexGate fulltext = false /\
  test reCreateIndexGate spatial = false /\
  parseDDL (fulltext +++ ";") = Ok (mkDDLParseResult [] []) /\
  parseDDL (spatial +++ ";") = Ok (mkDDLParseResult [] []) /\
  parseDDL ("CREATE TABLE articles (body TEXT);" +++ fulltext +++ ";") =
    Ok (mkDDLParseResult
          [mkTableInfo "articles" EmptyString
             [mkTableField "body" "TEXT" true None false EmptyString false []]
             []]
          []).
Proof. vm_compute. repeat split. Qed.

(** The two forms that the statement loop does recognize. *)
Lemma parseDDL_plain_and_unique_index :
  parseDDL "CREATE INDEX idx_a ON t (a); CREATE UNIQUE INDEX idx_b ON t (b);"
  = Ok (mkDDLParseResult []
          [mkStandaloneIndex "t" (mkTableIndex INDEX "idx_a" ["a"] None);
           mkStandaloneIndex "t" (mkTableIndex UNIQUE "idx_b" ["b"] None)]).
Proof. vm_compute. reflexivity. Qed.

End DdlFacts.

(* ================================================================== *)
(** ** Properties of the PHP-array converter *)

Module PhpFacts.
Import Regex Php ParserSpec.

(** *** The sequential key of the strict parser *)

(** What the element loop does with its counter: an element without a key
    is stored under the current counter, and the counter advances only while
    the array is still taken for an indexed one. *)
Lemma elementsLoop_unkeyed fuel tokens st t :
  nth_error tokens (pos st) = Some t ->
  isClosing (Some t) = false ->
  isArrow (nth_error tokens (S (pos st))) = false ->
  elementsLoop (S fuel) tokens st =
  bind (parseValue fuel tokens (pos st))
    (fun '(value, pos'') =>
       elementsLoop fuel tokens
         (mkArrayState
            (Obj.set (Js.natToString (index st)) value (result st))
            (isIndexedArray st)
            (if isIndexedArray st then S (index st) else index st)
            (if isComma (nth_error tokens pos'') then S pos'' else pos''))).
Proof.
  intros Ht Hc Ha. rewrite Termination.elementsLoop_step.
  rewrite Ht, Hc, Ha. reflexivity.
Qed.

(** Once an explicit key has been seen, the counter stays where it is until
    the end of the array. *)
Lemma elementsLoop_counter_frozen tokens :
  forall fuel st st',
    isIndexedArray st = false ->
    elementsLoop fuel tokens st = Some (Ok st') ->
    index st' = index st /\ isIndexedArray st' = false.
Proof.
  induction fuel as [|fuel IH]; intros st st' Hidx H; [discriminate|].
  rewrite Termination.elementsLoop_step in H.
  destruct (nth_error tokens (pos st)) as [t|];
    [|inversion H; subst; auto].
  destruct (isClosing (Some t)); [inversion H; subst; auto|].
  assert (Hvalue : forall key p,
    bind (parseValue fuel tokens p)
      (fun '(value, pos'') =>
         elementsLoop fuel tokens
           (mkArrayState (Obj.set key value (result st)) false (index st)
              (if isComma (nth_error tokens pos'') then S pos''
               else pos''))) = Some (Ok st') ->
    index st' = index st /\ isIndexedArray st' = false).
  { intros key p Hb.
    destruct (parseValue fuel tokens p) as [[[value pos'']|e]|];
      try discriminate Hb.
    cbn [bind] in Hb. apply IH in Hb; [|reflexivity]. exact Hb. }
  destruct (isArrow (nth_error tokens (S (pos st)))).
  - destruct (parseValue fuel tokens (pos st)) as [[[keyValue pos']|e]|];
      try discriminate H.
    cbn [bind ret] in H. eapply Hvalue, H.
  - cbn [bind ret] in H. rewrite Hidx in H. eapply Hvalue, H.
Qed.

(** C1, at the inputs [[5 => 'a', 'b']] and [['a', 5 => 'x', 'b', 'c']].
    In the first, ['b'] takes key 0: the explicit key 5 leaves the counter
    alone.  In the second, ['a'] takes key 0 and the counter advances to 1;
    after the explicit key the counter no longer advances, so ['b'] and
    ['c'] both take key 1 and ['c'] replaces ['b']: the two elements do not
    get distinct successive keys, and ['b'] is absent from the result. *)
Theorem parseArray_counter_stops_after_explicit_key :
  smartParsePHPArray "[5 => 'a', 'b']" =
    Some (Ok (VObject [("0", VString "b"); ("5", VString "a")])) /\
  smartParsePHPArray "['a', 5 => 'x', 'b', 'c']" =
    Some (Ok (VObject [("0", VString "a"); ("1", VString "c");
                       ("5", VString "x")])) /\
  smartParsePHPArray "['a', 'b', 'c']" =
    Some (Ok (VArray [VString "a"; VString "b"; VString "c"])).
Proof. vm_compute. repeat split. Qed.

(** *** Serializing and parsing back *)


Lemma unescape_escape_backslash_n :
  escapeString backslash_n = bs +++ bs +++ "n" /\
  unescapeString (escapeString backslash_n) = bs +++ Js.str1 Js.LF.
Proof. vm_compute. split; reflexivity. Qed.

(** C3, at the value [v] that is the string of a backslash followed by
    [n] (no number, no map): [convertToPHP v] is the quoted text with the
    backslash doubled; the strict parser reads it, and [unescapeString]
    rewrites backslash-n before it rewrites the doubled backslash, so the
    value parsed back is a backslash followed by a line feed.  It is not
    [v], whatever the host's [JSON.parse] does, and the repository's own
    deep equality tells them apart. *)
Theorem roundtrip_breaks_on_backslash_n
  (JSON_parse : string -> option PHPValue) :
  let v := VString backslash_n in
  let v' := VString (bs +++ Js.str1 Js.LF) in
  convertToPHP v 0 = sq +++ bs +++ bs +++ "n" +++ sq /\
  parsePHPArray JSON_parse (convertToPHP v 0) = Some (Ok v') /\
  v' <> v /\
  JsonDiff.isEqual v (Some v') = false.
Proof.
  cbv zeta. split; [vm_compute; reflexivity|].
  split; [vm_compute; reflexivity|].
  split; [vm_compute; discriminate|vm_compute; reflexivity].
Qed.

(** Without a backslash the same shape of value comes back. *)
Lemma roundtrip_sample (JSON_parse : string -> option PHPValue) :
  let v := VObject [("name", VString "it's");
                    ("tags", VArray [VNull; VBool true;
                                     VNumber (Finite (-15) 1)]);
                    ("n", VObject [("7", VString "x")])] in
  parsePHPArray JSON_parse (convertToPHP v 0) = Some (Ok v).
Proof. vm_compute. reflexivity. Qed.

(** *** The rewriting of [INF], [-INF] and [NAN] *)

(** C4, at the input [-INF]: the rewriting of [INF] runs first and turns
    the text into a minus sign followed by the quoted word [Infinity]; the
    rewriting of [-INF] then finds nothing.  The result does not contain
    the quoted sentinel [-Infinity].  The tokens [INF] and [NAN] are
    rewritten to their quoted sentinels. *)
Theorem replacePhpValues_negative_infinity :
  replacePhpValues "-INF" = "-" +++ quoted "Infinity" /\
  Js.includes (quoted "-Infinity") (replacePhpValues "-INF") = false /\
  replacePhpValues "[INF, -INF, NAN]" =
    "[" +++ quoted "Infinity" +++ ", -" +++ quoted "Infinity" +++ ", "
        +++ quoted "NaN" +++ "]".
Proof. vm_compute. repeat split. Qed.

End PhpFacts.

(* ================================================================== *)
(** ** Further properties of the JSON differ *)

Module JsonDiffMore.
Import JsonDiff DiffSpec DiffSpec2 JsonDiffFacts.

(** *** Sorting and positions of keys *)

Lemma indexOf_bounds k ks : (-1 <= indexOf k ks)%Z.
Proof.
  induction ks as [|k' ks IH]; simpl; [lia|].
  destruct (String.eqb k k'); [lia|].
  destruct (indexOf k ks <? 0)%Z eqn:E; [lia|].
  apply Z.ltb_ge in E. lia.
Qed.

Lemma indexOf_In k ks : In k ks <-> (0 <= indexOf k ks)%Z.
Proof.
  induction ks as [|k' ks IH]; simpl; [split; [tauto|lia]|].
  destruct (String.eqb k k') eqn:E.
  - apply String.eqb_eq in E. subst. split; [lia|auto].
  - apply String.eqb_neq in E.
    destruct (indexOf k ks <? 0)%Z eqn:E2.
    + apply Z.ltb_lt in E2. split; [|lia].
      intros [H|H]; [congruence|]. apply IH in H. lia.
    + apply Z.ltb_ge in E2. split; [lia|]. intros _. right.
      apply IH. exact E2.
Qed.

Lemma indexOf_nth k ks i :
  indexOf k ks = Z.of_nat i -> nth_error ks i = Some k.
Proof.
  revert i. induction ks as [|k' ks IH]; intros i H; simpl in H; [lia|].
  destruct (String.eqb k k') eqn:E.
  - apply String.eqb_eq in E. subst. destruct i; [reflexivity|lia].
  - destruct (indexOf k ks <? 0)%Z eqn:E2; [lia|].
    destruct i as [|i]; [apply Z.ltb_ge in E2; lia|].
    simpl. apply IH. lia.
Qed.

Lemma insertBy_In cmp x y l : In y (insertBy cmp x l) <-> y = x \/ In y l.
Proof.
  induction l as [|z l IH]; simpl; [intuition|].
  destruct (cmp x z <=? 0)%Z; simpl; [intuition|].
  rewrite IH. intuition.
Qed.

Lemma sortBy_In cmp y l : In y (sortBy cmp l) <-> In y l.
Proof.
  induction l as [|x l IH]; simpl; [tauto|].
  unfold sortBy in *. simpl. rewrite insertBy_In, IH. intuition.
Qed.

(** *** An invariant of the accumulated list

    [R] holds of the paths at which values are compared, [Inv] of the list
    of items: the four ways in which the differ extends the list keep
    [Inv]. *)

Section Invariant.

Variable mode : DiffMode.
Variable R : string -> Prop.
Variable Inv : list DiffItem -> Prop.

Hypothesis R_key : forall p k, R p -> R (keyPath p k).
Hypothesis R_index : forall p i, R p -> R (indexPath p i).
Hypothesis Inv_modified :
  forall d p o n, R p -> Inv d -> Inv (push d (modifiedItem (orRoot p) o n)).
Hypothesis Inv_removed :
  forall d p o, R p -> Inv d -> Inv (push d (removedItem p o)).
Hypothesis Inv_added :
  forall d p n, R p -> Inv d -> Inv (push d (addedItem p n)).
Hypothesis Inv_order :
  mode = strict ->
  forall d p i j,
    R p -> Inv d ->
    existsb (fun x => String.eqb (path x) p && isOrderChanged (type x)) d
    = false ->
    i <> j -> (0 <= i)%Z -> (0 <= j)%Z ->
    Inv (push d (orderItem p i j)).

Lemma inv_checkKeyOrderLoop newCommonOrder basePath rest :
  mode = strict -> R basePath ->
  (forall k, In k rest -> In k newCommonOrder) ->
  forall i diffs,
    Inv diffs ->
    Inv (checkKeyOrderLoop newCommonOrder basePath i rest diffs).
Proof.
  intros Hm HR. induction rest as [|key rest IH]; intros Hin i diffs H;
    simpl; [assumption|].
  apply IH; [intros k Hk; apply Hin; right; exact Hk|].
  destruct (negb (sameKey key (nth_error newCommonOrder i))); [|assumption].
  destruct (negb (Z.of_nat i =? indexOf key newCommonOrder)%Z) eqn:E;
    [|assumption].
  destruct (negb (existsb _ diffs)) eqn:E2; [|assumption].
  apply negb_true_iff in E, E2. apply Z.eqb_neq in E.
  apply Inv_order; auto; try lia.
  apply indexOf_In, Hin. left. reflexivity.
Qed.

Lemma inv_checkKeyOrder oldKeys newKeys basePath diffs :
  mode = strict -> R basePath -> Inv diffs ->
  Inv (checkKeyOrder oldKeys newKeys basePath diffs).
Proof.
  intros Hm HR H. unfold checkKeyOrder.
  apply inv_checkKeyOrderLoop; auto.
  intros k Hk. apply sortBy_In. apply sortBy_In in Hk. exact Hk.
Qed.

Lemma inv_addedKeys basePath oldObj newObj :
  R basePath ->
  forall diffs, Inv diffs -> Inv (addedKeys basePath oldObj newObj diffs).
Proof.
  intros HR. induction newObj as [|[k v] o IH]; intros diffs H; simpl;
    [assumption|].
  apply IH. destruct (Obj.has k oldObj); [assumption|].
  apply Inv_added; auto.
Qed.

Lemma inv_addedItems basePath newArr :
  R basePath ->
  forall i diffs, Inv diffs -> Inv (addedItems basePath i newArr diffs).
Proof.
  intros HR. induction newArr as [|v l IH]; intros i diffs H; simpl;
    [assumption|].
  apply IH. apply Inv_added; auto.
Qed.

Lemma inv_oldKeysLoop newObj basePath es :
  R basePath ->
  Forall (fun kv => forall newVal path diffs,
              R path -> Inv diffs ->
              Inv (compareValues (snd kv) newVal path mode diffs)) es ->
  forall diffs,
    Inv diffs -> Inv (oldKeysLoop newObj basePath mode es diffs).
Proof.
  intros HR. induction es as [|[k v] es IH]; intros Hall diffs H; simpl;
    [assumption|].
  inversion Hall; subst. apply IH; [assumption|].
  destruct (Obj.get k newObj); [apply H2; auto|apply Inv_removed; auto].
Qed.

Lemma inv_indexLoop basePath os :
  R basePath ->
  Forall (fun v => forall newVal path diffs,
              R path -> Inv diffs ->
              Inv (compareValues v newVal path mode diffs)) os ->
  forall ns i diffs,
    Inv diffs -> Inv (indexLoop basePath mode os ns i diffs).
Proof.
  intros HR. induction os as [|o os IH]; intros Hall ns i diffs H; simpl.
  - apply inv_addedItems; assumption.
  - inversion Hall; subst. destruct ns; apply IH; try assumption.
    + apply Inv_removed; auto.
    + apply H2; auto.
Qed.

Lemma inv_compareValues v :
  forall newVal path diffs,
    R path -> Inv diffs -> Inv (compareValues v newVal path mode diffs).
Proof.
  induction v using Value_deep_ind; intros newVal path diffs HR Hd;
    match goal with
    | |- Inv (compareValues ?o ?n _ _ _) =>
        destruct (tagEqb (getValueType o) (getValueType n)) eqn:E
    end;
    try (rewrite compareValues_mismatch by exact E;
         apply Inv_modified; assumption);
    destruct newVal; try discriminate E.
  - simpl. assumption.
  - simpl. destruct (negb _); [apply Inv_modified|]; assumption.
  - simpl. destruct (negb _); [apply Inv_modified|]; assumption.
  - simpl. destruct (negb _); [apply Inv_modified|]; assumption.
  - rewrite compareValues_arrays. apply inv_indexLoop; assumption.
  - rewrite compareValues_objects. unfold compareObjects.
    apply inv_addedKeys; [assumption|].
    apply inv_oldKeysLoop; [assumption|assumption|].
    assert (Hm : mode = strict \/ mode = loose) by (destruct mode; auto).
    destruct Hm as [Hm|Hm]; rewrite Hm; [|assumption].
    apply inv_checkKeyOrder; auto.
Qed.

End Invariant.

(** *** Loose mode never reports an order change *)

(** X1. In loose mode no item of type [order_changed] is produced,
    whatever the two values. *)
Theorem compareJson_loose_no_order_changed (oldJson newJson : JsonValue) :
  Forall (fun d => type d <> order_changed)
    (res_diffs (compareJson oldJson newJson loose)).
Proof.
  unfold compareJson, res_diffs.
  apply (inv_compareValues loose (fun _ => True)
           (Forall (fun d => type d <> order_changed)));
    try (intros; exact I); try constructor;
    try (intros; apply Forall_app; split; [assumption|];
         constructor; [simpl; discriminate|constructor]).
Qed.

(** *** The items and their fields *)

Lemma wellShaped_push d it :
  Forall wellShaped d -> wellShaped it -> Forall wellShaped (push d it).
Proof.
  intros H1 H2. apply Forall_app. split; [assumption|].
  constructor; [assumption|constructor].
Qed.

(** X2. Every item carries the fields of its type: an [added] item the
    new value only, a [removed] item the old value only, a [modified] item
    both, an [order_changed] item no value but an old and a new position
    that differ and are not negative. *)
Theorem compareJson_items_well_shaped (oldJson newJson : JsonValue)
  (mode : DiffMode) :
  Forall wellShaped (res_diffs (compareJson oldJson newJson mode)).
Proof.
  unfold compareJson, res_diffs.
  apply (inv_compareValues mode (fun _ => True) (Forall wellShaped));
    try (intros; exact I); try constructor;
    intros; apply wellShaped_push; try assumption;
    unfold wellShaped; simpl; repeat split; try discriminate.
  eexists _, _. repeat split; assumption.
Qed.

(** *** One order change per path *)

Lemma orderPaths_push_other d it :
  isOrderChanged (type it) = false -> orderPaths (push d it) = orderPaths d.
Proof.
  intros H. unfold orderPaths, push. rewrite filter_app. simpl.
  rewrite H. rewrite app_nil_r. reflexivity.
Qed.

Lemma orderPaths_push_order d p i j :
  orderPaths (push d (orderItem p i j)) = orderPaths d ++ [p].
Proof.
  unfold orderPaths, push. rewrite filter_app, map_app. reflexivity.
Qed.

Lemma not_in_orderPaths d p :
  existsb (fun x => String.eqb (path x) p && isOrderChanged (type x)) d
  = false ->
  ~ In p (orderPaths d).
Proof.
  intros H Hin. unfold orderPaths in Hin. apply in_map_iff in Hin.
  destruct Hin as [x [Hp Hx]]. apply filter_In in Hx.
  destruct Hx as [Hx Ho].
  assert (existsb (fun x => String.eqb (path x) p
                            && isOrderChanged (type x)) d = true).
  { apply existsb_exists. exists x. split; [assumption|].
    rewrite Hp, String.eqb_refl, Ho. reflexivity. }
  congruence.
Qed.

(** X3. No path is reported as [order_changed] twice: the paths of the
    [order_changed] items of a result are pairwise distinct. *)
Theorem compareJson_order_changed_once (oldJson newJson : JsonValue)
  (mode : DiffMode) :
  NoDup (orderPaths (res_diffs (compareJson oldJson newJson mode))).
Proof.
  unfold compareJson, res_diffs.
  apply (inv_compareValues mode (fun _ => True)
           (fun d => NoDup (orderPaths d)));
    try (intros; exact I); try constructor;
    try (intros; rewrite orderPaths_push_other by reflexivity; assumption).
  intros _ d p i j _ Hd Hex _ _ _. rewrite orderPaths_push_order.
  apply NoDup_app. repeat split.
  - exact Hd.
  - constructor; [intros []|constructor].
  - intros x Hx [Hp|[]]. subst. eapply not_in_orderPaths; eassumption.
Qed.

(** *** The list only grows, with items below the compared path *)

Lemma startsWith_refl p : startsWith p p = true.
Proof.
  induction p as [|c p IH]; simpl; [reflexivity|].
  rewrite Ascii.eqb_refl. exact IH.
Qed.

Lemma startsWith_app p q r :
  startsWith p q = true -> startsWith p (q +++ r) = true.
Proof.
  revert q. induction p as [|c p IH]; intros q H; simpl; [reflexivity|].
  destruct q as [|c' q]; simpl in *; [discriminate|].
  apply andb_true_iff in H. destruct H as [H1 H2].
  rewrite H1. apply IH, H2.
Qed.

Lemma startsWith_empty p : startsWith p EmptyString = true -> p = EmptyString.
Proof. destruct p; simpl; [reflexivity|discriminate]. Qed.

Lemma under_orRoot p0 p : under p0 p -> under p0 (orRoot p).
Proof.
  intros [H|H]; [left; exact H|].
  destruct p as [|c p]; [left; apply startsWith_empty, H|].
  right. exact H.
Qed.

Lemma under_keyPath p0 p k : under p0 p -> under p0 (keyPath p k).
Proof.
  intros [H|H]; [left; exact H|].
  destruct p as [|c p]; [left; apply startsWith_empty, H|].
  right. unfold keyPath. simpl Js.nonEmpty. cbv iota.
  apply startsWith_app, H.
Qed.

Lemma under_indexPath p0 p i : under p0 p -> under p0 (indexPath p i).
Proof.
  intros [H|H]; [left; exact H|].
  right. unfold indexPath. apply startsWith_app, H.
Qed.

Lemma under_self p : under p p.
Proof. right. apply startsWith_refl. Qed.

(** X4. A comparison only adds to the list it is given: the items already
    there stay, in place and unchanged, and every item added for the values
    compared at a path has that path or a path that extends it. *)
Theorem compareValues_appends_below (oldVal newVal : JsonValue)
  (path0 : string) (mode : DiffMode) (diffs : list DiffItem) :
  exists items,
    compareValues oldVal newVal path0 mode diffs = diffs ++ items /\
    Forall (fun d => under path0 (path d)) items.
Proof.
  apply (inv_compareValues mode (under path0)
           (fun d => exists items,
                d = diffs ++ items /\
                Forall (fun x => under path0 (path x)) items)).
  - intros p k. apply under_keyPath.
  - intros p i. apply under_indexPath.
  - intros d p o n HR [items [-> Hall]]. eexists.
    unfold push. rewrite <- app_assoc. split; [reflexivity|].
    apply Forall_app. split; [assumption|].
    constructor; [apply under_orRoot, HR|constructor].
  - intros d p o HR [items [-> Hall]]. eexists.
    unfold push. rewrite <- app_assoc. split; [reflexivity|].
    apply Forall_app. split; [assumption|].
    constructor; [exact HR|constructor].
  - intros d p n HR [items [-> Hall]]. eexists.
    unfold push. rewrite <- app_assoc. split; [reflexivity|].
    apply Forall_app. split; [assumption|].
    constructor; [exact HR|constructor].
  - intros _ d p i j HR [items [-> Hall]] _ _ _ _. eexists.
    unfold push. rewrite <- app_assoc. split; [reflexivity|].
    apply Forall_app. split; [assumption|].
    constructor; [exact HR|constructor].
  - apply under_self.
  - exists []. rewrite app_nil_r. split; [reflexivity|constructor].
Qed.

(** *** Loose mode: each comparison adds its items independently *)

Lemma addedKeys_split basePath oldObj newObj :
  forall diffs,
    addedKeys basePath oldObj newObj diffs =
    diffs ++ addedKeys basePath oldObj newObj [].
Proof.
  induction newObj as [|[k v] o IH]; intros diffs; simpl;
    [rewrite app_nil_r; reflexivity|].
  rewrite IH. rewrite (IH (if Obj.has k oldObj then [] else _)).
  destruct (Obj.has k oldObj); [reflexivity|].
  unfold push. simpl. rewrite <- app_assoc. reflexivity.
Qed.

Lemma addedItems_from basePath newArr :
  forall i diffs,
    addedItems basePath i newArr diffs = diffs ++ addedFrom basePath i newArr.
Proof.
  induction newArr as [|v l IH]; intros i diffs; simpl;
    [rewrite app_nil_r; reflexivity|].
  rewrite IH. unfold push. rewrite <- app_assoc. reflexivity.
Qed.

Lemma oldKeysLoop_split newObj basePath es :
  Forall (fun kv => forall n p d,
              compareValues (snd kv) n p loose d =
              d ++ compareValues (snd kv) n p loose []) es ->
  forall diffs,
    oldKeysLoop newObj basePath loose es diffs =
    diffs ++ oldKeysLoop newObj basePath loose es [].
Proof.
  induction es as [|[k v] es IH]; intros Hall diffs; simpl;
    [rewrite app_nil_r; reflexivity|].
  inversion Hall; subst. simpl in *.
  rewrite (IH H2). rewrite (IH H2 (match Obj.get k newObj with
                                   | Some v' => _
                                   | None => _
                                   end)).
  destruct (Obj.get k newObj).
  - rewrite H1. rewrite <- app_assoc. reflexivity.
  - unfold push. simpl. rewrite <- app_assoc. reflexivity.
Qed.

Lemma indexLoop_split basePath os :
  Forall (fun v => forall n p d,
              compareValues v n p loose d =
              d ++ compareValues v n p loose []) os ->
  forall ns i diffs,
    indexLoop basePath loose os ns i diffs =
    diffs ++ indexLoop basePath loose os ns i [].
Proof.
  induction os as [|o os IH]; intros Hall ns i diffs; simpl.
  - rewrite !addedItems_from. reflexivity.
  - inversion Hall; subst. destruct ns as [|n ns].
    + rewrite (IH H2). rewrite (IH H2 _ _ (push [] _)).
      unfold push. simpl. rewrite <- app_assoc. reflexivity.
    + rewrite (IH H2). rewrite (IH H2 _ _ (compareValues o n _ loose [])).
      rewrite H1. rewrite <- app_assoc. reflexivity.
Qed.

Lemma compareValues_loose_split (oldVal : JsonValue) :
  forall (newVal : JsonValue) (path : string) (diffs : list DiffItem),
    compareValues oldVal newVal path loose diffs =
    diffs ++ compareValues oldVal newVal path loose [].
Proof.
  induction oldVal using Value_deep_ind; intros newVal path diffs;
    match goal with
    | |- compareValues ?o ?n _ _ _ = _ =>
        destruct (tagEqb (getValueType o) (getValueType n)) eqn:E
    end;
    try (rewrite !compareValues_mismatch by exact E; reflexivity);
    destruct newVal; try discriminate E.
  - simpl. rewrite app_nil_r. reflexivity.
  - simpl. destruct (negb _); [reflexivity|rewrite app_nil_r; reflexivity].
  - simpl. destruct (negb _); [reflexivity|rewrite app_nil_r; reflexivity].
  - simpl. destruct (negb _); [reflexivity|rewrite app_nil_r; reflexivity].
  - rewrite !compareValues_arrays. apply indexLoop_split. assumption.
  - rewrite !compareValues_objects. unfold compareObjects.
    rewrite addedKeys_split.
    rewrite (addedKeys_split _ _ _ (oldKeysLoop _ _ _ _ [])).
    rewrite oldKeysLoop_split by assumption.
    rewrite <- app_assoc. reflexivity.
Qed.

(** X5. In loose mode the items that a comparison adds do not depend on
    the items found before it: the result on a list is that list followed
    by the result on the empty list. *)
Theorem compareValues_loose_independent (oldVal newVal : JsonValue)
  (path : string) (diffs : list DiffItem) :
  compareValues oldVal newVal path loose diffs =
  diffs ++ compareValues oldVal newVal path loose [].
Proof. apply compareValues_loose_split. Qed.

(** *** Loose equality is deep equality up to the order of keys *)

Lemma addedKeys_empty basePath oldObj newObj :
  addedKeys basePath oldObj newObj [] = [] <->
  forallb (fun k => Obj.has k oldObj) (Obj.keys newObj) = true.
Proof.
  induction newObj as [|[k v] o IH]; simpl; [tauto|].
  rewrite addedKeys_split. destruct (Obj.has k oldObj); simpl.
  - exact IH.
  - split; discriminate.
Qed.

Lemma looseEq_empty oldVal :
  forall newVal path,
    compareValues oldVal newVal path loose [] = [] <->
    looseEq oldVal newVal = true.
Proof.
  induction oldVal using Value_deep_ind; intros newVal path;
    match goal with
    | |- compareValues ?o ?n _ _ _ = _ <-> _ =>
        destruct (tagEqb (getValueType o) (getValueType n)) eqn:E
    end;
    try (rewrite compareValues_mismatch by exact E;
         destruct newVal; try discriminate E; simpl;
         split; discriminate);
    destruct newVal; try discriminate E.
  - simpl. tauto.
  - simpl. destruct (Bool.eqb b b0); simpl; split; auto; discriminate.
  - simpl. destruct (Num.eqb n n0); simpl; split; auto; discriminate.
  - simpl. destruct (String.eqb s s0); simpl; split; auto; discriminate.
  - rewrite compareValues_arrays. unfold compareArrays. simpl looseEq.
    clear E. generalize 0 as i. revert items0.
    induction items as [|o os IH]; intros ns i; simpl.
    + rewrite addedItems_from. destruct ns; simpl; [tauto|].
      split; discriminate.
    + inversion H; subst. destruct ns as [|n ns].
      * rewrite indexLoop_split
          by (eapply Forall_impl; [|exact H3]; intros;
              apply compareValues_loose_split).
        simpl. split; discriminate.
      * rewrite indexLoop_split
          by (eapply Forall_impl; [|exact H3]; intros;
              apply compareValues_loose_split).
        rewrite andb_true_iff, <- (H2 n (indexPath path i)),
          <- (IH H3 ns (S i)).
        split.
        -- intros Hnil. apply app_eq_nil in Hnil. exact Hnil.
        -- intros [H1 H4]. rewrite H1, H4. reflexivity.
  - rewrite compareValues_objects. unfold compareObjects. simpl looseEq.
    rewrite addedKeys_split, andb_true_iff, <- addedKeys_empty.
    assert (Hloop : forall es,
      Forall (fun kv => forall newVal path,
                  compareValues (snd kv) newVal path loose [] = [] <->
                  looseEq (snd kv) newVal = true) es ->
      oldKeysLoop props0 path loose es [] = [] <->
      (fix each (kvs : list (string * Value)) : bool :=
         match kvs with
         | [] => true
         | (k, v) :: kvs' =>
             match Obj.get k props0 with
             | Some v' => looseEq v v'
             | None => false
             end && each kvs'
         end) es = true).
    { induction es as [|[k v] es IH]; intros Hall; simpl; [tauto|].
      inversion Hall; subst. simpl in *.
      rewrite oldKeysLoop_split
        by (apply Forall_forall; intros;
            apply compareValues_loose_split).
      rewrite andb_true_iff, <- (IH H3).
      destruct (Obj.get k props0) as [v'|].
      - rewrite <- (H2 v' (keyPath path k)). split.
        + intros Hnil. apply app_eq_nil in Hnil. exact Hnil.
        + intros [H1 H4]. rewrite H1, H4. reflexivity.
      - simpl. split; [discriminate|]. intros [Hf _]. discriminate. }
    rewrite <- (Hloop props H). split.
    + intros Hnil. apply app_eq_nil in Hnil. exact Hnil.
    + intros [H1 H4]. rewrite H1, H4. reflexivity.
Qed.

(** X6. In loose mode [isEqual] is deep equality up to the order of keys:
    it is true exactly when the two values have the same type and equal
    primitives, arrays that are equal position by position, and objects
    with the same keys and equal values under each key. *)
Theorem compareJson_loose_isEqual (oldJson newJson : JsonValue) :
  res_isEqual (compareJson oldJson newJson loose) = looseEq oldJson newJson.
Proof.
  unfold compareJson, res_isEqual.
  pose proof (looseEq_empty oldJson newJson EmptyString) as H.
  destruct (compareValues oldJson newJson EmptyString loose []).
  - symmetry. apply H. reflexivity.
  - destruct (looseEq oldJson newJson); [|reflexivity].
    destruct H as [_ H]. discriminate (H eq_refl).
Qed.

(** *** Arrays are compared position by position *)

Lemma indexLoop_removed basePath mode os :
  forall i diffs,
    indexLoop basePath mode os [] i diffs =
    diffs ++ removedFrom basePath i os.
Proof.
  induction os as [|o os IH]; intros i diffs; simpl;
    [rewrite app_nil_r; reflexivity|].
  rewrite IH. unfold push. rewrite <- app_assoc. reflexivity.
Qed.

Lemma indexLoop_longer_new basePath mode os ys :
  Forall reflAt os -> Forall (fun v => isJson v = true) os ->
  forall i diffs,
    indexLoop basePath mode os (os ++ ys) i diffs =
    diffs ++ addedFrom basePath (i + List.length os) ys.
Proof.
  induction os as [|o os IH]; intros Hr Hj i diffs; simpl.
  - rewrite addedItems_from, Nat.add_0_r. reflexivity.
  - inversion Hr; subst. inversion Hj; subst.
    rewrite H1 by assumption. rewrite IH by assumption.
    replace (S i + List.length os) with (i + S (List.length os)) by lia.
    reflexivity.
Qed.

Lemma indexLoop_longer_old basePath mode os ys :
  Forall reflAt os -> Forall (fun v => isJson v = true) os ->
  forall i diffs,
    indexLoop basePath mode (os ++ ys) os i diffs =
    diffs ++ removedFrom basePath (i + List.length os) ys.
Proof.
  induction os as [|o os IH]; intros Hr Hj i diffs; simpl.
  - rewrite Nat.add_0_r. destruct ys as [|y ys]; simpl.
    + rewrite app_nil_r. reflexivity.
    + rewrite indexLoop_removed. unfold push. rewrite <- app_assoc.
      reflexivity.
  - inversion Hr; subst. inversion Hj; subst.
    rewrite H1 by assumption. rewrite IH by assumption.
    replace (S i + List.length os) with (i + S (List.length os)) by lia.
    reflexivity.
Qed.

(** X7. Arrays have no insertion or deletion other than at the end: for a
    JSON array [xs], comparing it with [xs] followed by more elements adds
    one [added] item per new element, at the indices after those of [xs],
    and nothing else; comparing the longer array with [xs] adds one
    [removed] item per element that is gone. *)
Theorem compareValues_array_grown_or_cut (xs ys : list JsonValue)
  (path : string) (mode : DiffMode) (diffs : list DiffItem) :
  isJson (VArray xs) = true ->
  compareValues (VArray xs) (VArray (xs ++ ys)) path mode diffs =
    diffs ++ addedFrom path (List.length xs) ys /\
  compareValues (VArray (xs ++ ys)) (VArray xs) path mode diffs =
    diffs ++ removedFrom path (List.length xs) ys.
Proof.
  intros Hj. pose proof (isJson_array _ Hj) as Hall.
  assert (Hr : Forall reflAt xs).
  { apply Forall_forall. intros v _. apply compareValues_refl. }
  rewrite !compareValues_arrays. unfold compareArrays.
  rewrite indexLoop_longer_new, indexLoop_longer_old by assumption.
  split; reflexivity.
Qed.

Lemma compareValues_array_grown_or_cut_witness :
  let xs := [VNumber (Finite 1 0); VObject [("a", VNull)]] in
  let ys := [VString "x"; VBool true] in
  res_diffs (compareJson (VArray xs) (VArray (xs ++ ys)) strict) =
    [addedItem "[2]" (VString "x"); addedItem "[3]" (VBool true)] /\
  res_diffs (compareJson (VArray (xs ++ ys)) (VArray xs) loose) =
    [removedItem "[2]" (VString "x"); removedItem "[3]" (VBool true)].
Proof.
  cbv zeta. unfold compareJson, res_diffs.
  pose proof (compareValues_array_grown_or_cut
                [VNumber (Finite 1 0); VObject [("a", VNull)]]
                [VString "x"; VBool true] EmptyString) as H.
  split.
  - apply (H strict []). reflexivity.
  - apply (H loose []). reflexivity.
Defined.

(** *** The order check compares the relative order of the common keys *)

Section SortByPosition.

Variable idx : string -> Z.

Let cmp (a b : string) : Z := (idx a - idx b)%Z.
Let le (a b : string) : Prop := (idx a <= idx b)%Z.

Lemma insertBy_perm x l : Permutation (insertBy cmp x l) (x :: l).
Proof.
  induction l as [|y l IH]; simpl; [reflexivity|].
  destruct (cmp x y <=? 0)%Z; [reflexivity|].
  rewrite IH. apply perm_swap.
Qed.

Lemma sortBy_perm l : Permutation (sortBy cmp l) l.
Proof.
  induction l as [|x l IH]; simpl; [reflexivity|].
  unfold sortBy in *. simpl. rewrite insertBy_perm, IH. reflexivity.
Qed.

Lemma insertBy_sorted x l :
  StronglySorted le l -> StronglySorted le (insertBy cmp x l).
Proof.
  induction l as [|y l IH]; intros Hs; simpl.
  - constructor; constructor.
  - inversion Hs; subst. destruct (cmp x y <=? 0)%Z eqn:E.
    + apply Z.leb_le in E. constructor; [exact Hs|].
      constructor; [unfold le, cmp in *; lia|].
      eapply Forall_impl; [|exact H2]. intros a Ha.
      unfold le, cmp in *. lia.
    + apply Z.leb_gt in E. constructor; [apply IH, H1|].
      apply Forall_forall. intros a Ha. apply insertBy_In in Ha.
      destruct Ha as [->|Ha]; [unfold le, cmp in *; lia|].
      rewrite Forall_forall in H2. apply H2, Ha.
Qed.

Lemma sortBy_sorted l : StronglySorted le (sortBy cmp l).
Proof.
  induction l as [|x l IH]; [constructor|].
  unfold sortBy in *. simpl. apply insertBy_sorted, IH.
Qed.

Lemma sortBy_id l : StronglySorted le l -> sortBy cmp l = l.
Proof.
  induction l as [|x l IH]; intros Hs; [reflexivity|].
  inversion Hs; subst. unfold sortBy in *. simpl. rewrite (IH H1).
  destruct l as [|y l]; [reflexivity|]. simpl.
  inversion H2; subst. unfold le in H3.
  replace (cmp x y <=? 0)%Z with true; [reflexivity|].
  symmetry. apply Z.leb_le. unfold cmp. lia.
Qed.

Lemma sorted_perm_unique l1 :
  forall l2,
    StronglySorted le l1 -> StronglySorted le l2 -> Permutation l1 l2 ->
    (forall a b, In a l1 -> In b l1 -> idx a = idx b -> a = b) ->
    l1 = l2.
Proof.
  induction l1 as [|x l1 IH]; intros l2 H1 H2 Hp Hinj.
  - apply Permutation_nil in Hp. congruence.
  - destruct l2 as [|y l2];
      [apply Permutation_sym, Permutation_nil in Hp; discriminate|].
    inversion H1; subst. inversion H2; subst.
    assert (Hxy : x = y).
    { assert (Hy : In y (x :: l1))
        by (eapply Permutation_in;
            [apply Permutation_sym, Hp|left; reflexivity]).
      assert (Hx : In x (y :: l2))
        by (eapply Permutation_in; [exact Hp|left; reflexivity]).
      destruct Hy as [Hy|Hy]; [exact Hy|].
      destruct Hx as [Hx|Hx]; [congruence|].
      rewrite Forall_forall in H4, H6.
      pose proof (H4 y Hy). pose proof (H6 x Hx). unfold le in *.
      apply Hinj; [left; reflexivity|right; exact Hy|lia]. }
    subst y. f_equal. apply IH; try assumption.
    + eapply Permutation_cons_inv, Hp.
    + intros a b Ha Hb. apply Hinj; right; assumption.
Qed.

End SortByPosition.

Lemma StronglySorted_weaken {A} (R R' : A -> A -> Prop) l :
  (forall a b, In a l -> In b l -> R a b -> R' a b) ->
  StronglySorted R l -> StronglySorted R' l.
Proof.
  induction l as [|x l IH]; intros Himp Hs; [constructor|].
  inversion Hs; subst. constructor.
  - apply IH; [|assumption]. intros a b Ha Hb. apply Himp; right; assumption.
  - apply Forall_forall. intros b Hb. rewrite Forall_forall in H2.
    apply Himp; [left; reflexivity|right; exact Hb|apply H2, Hb].
Qed.

Lemma StronglySorted_filter {A} (R : A -> A -> Prop) f l :
  StronglySorted R l -> StronglySorted R (filter f l).
Proof.
  induction l as [|x l IH]; intros Hs; [constructor|].
  inversion Hs; subst. simpl. destruct (f x); [|apply IH, H1].
  constructor; [apply IH, H1|].
  apply Forall_forall. intros b Hb. apply filter_In in Hb.
  rewrite Forall_forall in H2. apply H2, Hb.
Qed.

Lemma indexOf_cons_other k x l :
  k <> x -> In k l -> indexOf k (x :: l) = (indexOf k l + 1)%Z.
Proof.
  intros Hne Hin. simpl. apply String.eqb_neq in Hne. rewrite Hne.
  apply indexOf_In in Hin.
  destruct (indexOf k l <? 0)%Z eqn:E; [apply Z.ltb_lt in E; lia|].
  reflexivity.
Qed.

Lemma indexOf_sorted l :
  NoDup l ->
  StronglySorted (fun a b => (indexOf a l < indexOf b l)%Z) l.
Proof.
  induction l as [|x l IH]; intros Hnd; [constructor|].
  inversion Hnd; subst. constructor.
  - eapply StronglySorted_weaken; [|apply IH, H2].
    intros a b Ha Hb Hlt. simpl in Hlt.
    assert (Hax : a <> x) by (intros ->; contradiction).
    assert (Hbx : b <> x) by (intros ->; contradiction).
    rewrite (indexOf_cons_other a x l Hax Ha).
    rewrite (indexOf_cons_other b x l Hbx Hb). lia.
  - apply Forall_forall. intros b Hb.
    assert (Hbx : b <> x) by (intros ->; contradiction).
    rewrite (indexOf_cons_other b x l Hbx Hb).
    simpl. rewrite String.eqb_refl. apply indexOf_In in Hb. lia.
Qed.

Lemma indexOf_injective l a b :
  In a l -> indexOf a l = indexOf b l -> a = b.
Proof.
  intros Ha Heq. apply indexOf_In in Ha.
  pose proof (indexOf_nth a l (Z.to_nat (indexOf a l))) as H1.
  pose proof (indexOf_nth b l (Z.to_nat (indexOf a l))) as H2.
  rewrite Z2Nat.id in H1, H2 by exact Ha.
  specialize (H1 eq_refl). specialize (H2 (eq_sym Heq)). congruence.
Qed.

Lemma common_sorted keys others :
  NoDup keys ->
  StronglySorted (fun a b => (indexOf a keys <= indexOf b keys)%Z)
    (commonInOrder keys others).
Proof.
  intros Hnd. unfold commonInOrder. apply StronglySorted_filter.
  eapply StronglySorted_weaken; [|apply indexOf_sorted, Hnd].
  intros a b _ _ H. simpl in H. lia.
Qed.

Lemma common_In keys others k :
  In k (commonInOrder keys others) <-> In k keys /\ In k others.
Proof.
  unfold commonInOrder. rewrite filter_In, includes_In. tauto.
Qed.

(** The two sorted lists of [checkKeyOrder]: the common keys in the order
    of the old object, and in the order of the new one. *)
Lemma oldCommonOrder_eq oldKeys newKeys :
  NoDup oldKeys ->
  sortBy (fun a b => (indexOf a oldKeys - indexOf b oldKeys)%Z)
    (commonInOrder oldKeys newKeys) = commonInOrder oldKeys newKeys.
Proof. intros H. apply sortBy_id, common_sorted, H. Qed.

Lemma newCommonOrder_eq oldKeys newKeys :
  NoDup oldKeys -> NoDup newKeys ->
  sortBy (fun a b => (indexOf a newKeys - indexOf b newKeys)%Z)
    (commonInOrder oldKeys newKeys) = commonInOrder newKeys oldKeys.
Proof.
  intros Ho Hn.
  apply (sorted_perm_unique (fun k => indexOf k newKeys)).
  - apply sortBy_sorted.
  - apply common_sorted, Hn.
  - rewrite sortBy_perm. apply NoDup_Permutation.
    + apply NoDup_filter, Ho.
    + apply NoDup_filter, Hn.
    + intros k. rewrite !common_In. tauto.
  - intros a b Ha Hb Heq. apply sortBy_In, common_In in Ha.
    eapply indexOf_injective; [apply Ha|exact Heq].
Qed.

Lemma checkKeyOrder_common oldKeys newKeys basePath diffs :
  NoDup oldKeys -> NoDup newKeys ->
  checkKeyOrder oldKeys newKeys basePath diffs =
  checkKeyOrderLoop (commonInOrder newKeys oldKeys) basePath 0
    (commonInOrder oldKeys newKeys) diffs.
Proof.
  intros Ho Hn. unfold checkKeyOrder.
  change (filter (fun key => Obj.includes key newKeys) oldKeys)
    with (commonInOrder oldKeys newKeys).
  rewrite oldCommonOrder_eq, newCommonOrder_eq by assumption.
  reflexivity.
Qed.

Lemma checkKeyOrderLoop_extends newCommonOrder basePath rest :
  forall i diffs,
    exists items,
      checkKeyOrderLoop newCommonOrder basePath i rest diffs
      = diffs ++ items.
Proof.
  induction rest as [|key rest IH]; intros i diffs; simpl.
  - exists []. rewrite app_nil_r. reflexivity.
  - match goal with
    | |- exists _, checkKeyOrderLoop _ _ _ _ ?d = _ =>
        destruct (IH (S i) d) as [items Hitems]; rewrite Hitems
    end.
    destruct (negb (sameKey key (nth_error newCommonOrder i)));
      [|eauto].
    destruct (negb (Z.of_nat i =? indexOf key newCommonOrder)%Z); [|eauto].
    destruct (negb (existsb _ diffs)); [|eauto].
    unfold push. rewrite <- app_assoc. eauto.
Qed.

Lemma checkKeyOrderLoop_empty newCommonOrder basePath rest :
  forall i,
    checkKeyOrderLoop newCommonOrder basePath i rest [] = [] <->
    (forall j k, nth_error rest j = Some k ->
                 nth_error newCommonOrder (i + j) = Some k).
Proof.
  induction rest as [|key rest IH]; intros i; simpl.
  - split; [intros _ j k H; destruct j; discriminate|reflexivity].
  - destruct (sameKey key (nth_error newCommonOrder i)) eqn:Es; simpl.
    + rewrite IH. unfold sameKey in Es.
      destruct (nth_error newCommonOrder i) as [k0|] eqn:En;
        [|discriminate].
      apply String.eqb_eq in Es. subst k0. split.
      * intros H [|j] k Hk; simpl in Hk.
        -- inversion Hk; subst. rewrite Nat.add_0_r. exact En.
        -- replace (i + S j) with (S i + j) by lia. apply H, Hk.
      * intros H j k Hk. replace (S i + j) with (i + S j) by lia.
        apply H. exact Hk.
    + split.
      * intros H. exfalso.
        destruct (Z.of_nat i =? indexOf key newCommonOrder)%Z eqn:Ei;
          simpl in H.
        -- apply Z.eqb_eq in Ei. symmetry in Ei.
           apply indexOf_nth in Ei. rewrite Ei in Es. simpl in Es.
           rewrite String.eqb_refl in Es. discriminate.
        -- destruct (checkKeyOrderLoop_extends newCommonOrder basePath rest
                       (S i) (push [] (orderItem (keyPath basePath key)
                                         (Z.of_nat i)
                                         (indexOf key newCommonOrder))))
             as [items Hitems].
           rewrite Hitems in H. discriminate.
      * intros H. specialize (H 0 key eq_refl).
        rewrite Nat.add_0_r in H. rewrite H in Es. simpl in Es.
        rewrite String.eqb_refl in Es. discriminate.
Qed.

Lemma nth_error_agree {A} (l1 l2 : list A) :
  List.length l1 = List.length l2 ->
  (forall j k, nth_error l1 j = Some k -> nth_error l2 j = Some k) ->
  l1 = l2.
Proof.
  revert l2. induction l1 as [|x l1 IH]; intros l2 Hlen H.
  - destruct l2; [reflexivity|discriminate].
  - destruct l2 as [|y l2]; [discriminate|].
    pose proof (H 0 x eq_refl) as H0. simpl in H0. inversion H0; subst.
    f_equal. apply IH; [simpl in Hlen; lia|].
    intros j k Hk. apply (H (S j) k). exact Hk.
Qed.

(** X8. The order check of strict mode looks at the keys that both objects
    have, and at nothing else: when these keys come in the same relative
    order on both sides, it adds no item, whatever keys were added or
    removed around them; and when it adds no item to an empty list, they
    do come in the same relative order. *)
Theorem checkKeyOrder_relative_order (oldKeys newKeys : list string)
  (basePath : string) :
  NoDup oldKeys -> NoDup newKeys ->
  (commonInOrder oldKeys newKeys = commonInOrder newKeys oldKeys ->
   forall diffs, checkKeyOrder oldKeys newKeys basePath diffs = diffs) /\
  (checkKeyOrder oldKeys newKeys basePath [] = [] ->
   commonInOrder oldKeys newKeys = commonInOrder newKeys oldKeys).
Proof.
  intros Ho Hn. split.
  - intros Heq diffs. rewrite checkKeyOrder_common by assumption.
    rewrite Heq. apply (checkKeyOrderLoop_same basePath _ []).
  - rewrite checkKeyOrder_common by assumption. intros H.
    pose proof (proj1 (checkKeyOrderLoop_empty _ _ _ _) H) as Hnth.
    apply nth_error_agree.
    + apply Permutation_length, NoDup_Permutation;
        try (apply NoDup_filter; assumption).
      intros k. rewrite !common_In. tauto.
    + exact Hnth.
Qed.

Lemma checkKeyOrder_relative_order_witness :
  let oldKeys := ["a"; "gone"; "b"; "c"] in
  let newKeys := ["new"; "a"; "b"; "x"; "c"] in
  (forall diffs, checkKeyOrder oldKeys newKeys "cfg" diffs = diffs) /\
  commonInOrder oldKeys newKeys = commonInOrder newKeys oldKeys.
Proof.
  cbv zeta.
  assert (Ho : NoDup ["a"; "gone"; "b"; "c"])
    by (repeat constructor; simpl; intuition discriminate).
  assert (Hn : NoDup ["new"; "a"; "b"; "x"; "c"])
    by (repeat constructor; simpl; intuition discriminate).
  destruct (checkKeyOrder_relative_order _ _ "cfg" Ho Hn) as [H1 H2].
  split; [apply H1; reflexivity|apply H2; reflexivity].
Defined.

(** *** Strict equality is deep equality with the keys in order *)

Lemma compareValues_extends mode oldVal newVal path diffs :
  exists items,
    compareValues oldVal newVal path mode diffs = diffs ++ items.
Proof.
  apply (inv_compareValues mode (fun _ => True)
           (fun d => exists items, d = diffs ++ items));
    try (intros; exact I);
    try (intros d p; intros; unfold push;
         match goal with
         | H : exists _, _ = _ |- _ => destruct H as [items ->]
         end;
         rewrite <- app_assoc; eauto).
  exists []. rewrite app_nil_r. reflexivity.
Qed.

Lemma oldKeysLoop_extends newObj basePath mode es diffs :
  exists items,
    oldKeysLoop newObj basePath mode es diffs = diffs ++ items.
Proof.
  revert diffs. induction es as [|[k v] es IH]; intros diffs; simpl.
  - exists []. rewrite app_nil_r. reflexivity.
  - match goal with
    | |- exists _, oldKeysLoop _ _ _ _ ?d = _ =>
        destruct (IH d) as [items Hitems]; rewrite Hitems
    end.
    destruct (Obj.get k newObj) as [v'|].
    + destruct (compareValues_extends mode v v' (keyPath basePath k) diffs)
        as [items' ->].
      rewrite <- app_assoc. eauto.
    + unfold push. rewrite <- app_assoc. eauto.
Qed.

Lemma indexLoop_extends basePath mode os :
  forall ns i diffs,
    exists items,
      indexLoop basePath mode os ns i diffs = diffs ++ items.
Proof.
  induction os as [|o os IH]; intros ns i diffs; simpl.
  - rewrite addedItems_from. eauto.
  - destruct ns as [|n ns].
    + destruct (IH [] (S i) (push diffs (removedItem (indexPath basePath i)
                                           o))) as [items ->].
      unfold push. rewrite <- app_assoc. eauto.
    + destruct (IH ns (S i)
                  (compareValues o n (indexPath basePath i) mode diffs))
        as [items ->].
      destruct (compareValues_extends mode o n (indexPath basePath i) diffs)
        as [items' ->].
      rewrite <- app_assoc. eauto.
Qed.

Lemma oldKeysLoop_empty newObj basePath mode es :
  oldKeysLoop newObj basePath mode es [] = [] <->
  Forall (fun kv =>
            exists v', Obj.get (fst kv) newObj = Some v' /\
                       compareValues (snd kv) v'
                         (keyPath basePath (fst kv)) mode [] = []) es.
Proof.
  induction es as [|[k v] es IH]; simpl; [split; auto|].
  split.
  - intros H.
    match type of H with
    | oldKeysLoop _ _ _ _ ?d = _ =>
        destruct (oldKeysLoop_extends newObj basePath mode es d)
          as [items Hitems];
        assert (Hd : d = [])
          by (rewrite Hitems in H; apply app_eq_nil in H; tauto)
    end.
    rewrite Hd in H. constructor; [|apply IH, H].
    simpl. destruct (Obj.get k newObj) as [v'|]; [eauto|discriminate].
  - intros H. inversion H as [|? ? [v' [Hget Hcmp]] Hrest]; subst.
    simpl in *. rewrite Hget, Hcmp. apply IH, Hrest.
Qed.

Lemma strictEq_objects o o' :
  strictEq (VObject o) (VObject o') = true <->
  Forall2 (fun kv kv' => fst kv = fst kv' /\
                         strictEq (snd kv) (snd kv') = true) o o'.
Proof.
  simpl. revert o'. induction o as [|[k v] o IH]; intros [|[k' v'] o'];
    try (split; [discriminate|intros H; inversion H]);
    [split; [constructor|reflexivity]|].
  rewrite !andb_true_iff, String.eqb_eq, IH. split.
  - intros [[H1 H2] H3]. constructor; [split|]; assumption.
  - intros H. inversion H; subst. simpl in *. tauto.
Qed.

Lemma strictEq_arrays xs ys :
  strictEq (VArray xs) (VArray ys) = true <->
  Forall2 (fun x y => strictEq x y = true) xs ys.
Proof.
  simpl. revert ys. induction xs as [|x xs IH]; intros [|y ys];
    try (split; [discriminate|intros H; inversion H]);
    [split; [constructor|reflexivity]|].
  rewrite andb_true_iff, IH. split.
  - intros [H1 H2]. constructor; assumption.
  - intros H. inversion H; subst. tauto.
Qed.

Lemma uniqueKeys_object props :
  uniqueKeys (VObject props) = true ->
  NoDup (Obj.keys props) /\
  Forall (fun kv => uniqueKeys (snd kv) = true) props.
Proof.
  simpl. rewrite andb_true_iff. intros [Hd Hu].
  split; [apply distinct_NoDup, Hd|].
  rewrite forallb_forall in Hu. apply Forall_forall, Hu.
Qed.

Lemma get_Some_In {A} k (v : A) o : Obj.get k o = Some v -> In (k, v) o.
Proof.
  induction o as [|[k' v'] o IH]; simpl; [discriminate|].
  destruct (String.eqb k k') eqn:E.
  - apply String.eqb_eq in E. intros H. inversion H; subst. auto.
  - intros H. right. apply IH, H.
Qed.

(** With the same keys in the same order, looking up each key of the old
    object in the new one pairs the entries position by position. *)
Lemma entries_paired (Q : string * Value -> Value -> Prop) :
  forall old new : list (string * Value),
    Obj.keys old = Obj.keys new -> NoDup (Obj.keys new) ->
    (Forall (fun kv => exists v', Obj.get (fst kv) new = Some v' /\ Q kv v')
       old <->
     Forall2 (fun kv kv' => fst kv = fst kv' /\ Q kv (snd kv')) old new).
Proof.
  induction old as [|[k v] old IH]; intros [|[k' v'] new] Hk Hnd;
    try discriminate Hk.
  - split; constructor.
  - simpl in Hk. inversion Hk as [[Hk1 Hk2]]. subst k'.
    inversion Hnd as [|? ? Hnotin Hnd2]; subst.
    assert (Htail : forall kv : string * Value,
              In kv old -> Obj.get (fst kv) ((k, v') :: new)
                           = Obj.get (fst kv) new).
    { intros [k2 v2] Hin. simpl.
      destruct (String.eqb k2 k) eqn:E; [|reflexivity].
      apply String.eqb_eq in E. subst. exfalso. apply Hnotin.
      rewrite <- Hk2. change k with (fst (k, v2)). apply in_map, Hin. }
    split.
    + intros H. inversion H as [|? ? [w [Hget HQ]] Hrest]; subst.
      simpl in Hget. rewrite String.eqb_refl in Hget.
      inversion Hget; subst w. constructor; [split; [reflexivity|exact HQ]|].
      apply (IH new Hk2 Hnd2). apply Forall_forall. intros kv Hin.
      rewrite Forall_forall in Hrest. destruct (Hrest kv Hin) as [w [Hg Hq]].
      rewrite Htail in Hg by exact Hin. eauto.
    + intros H. inversion H as [|? ? ? ? [_ HQ] Hrest]; subst. simpl in HQ.
      constructor.
      * exists v'. simpl. rewrite String.eqb_refl. split; [reflexivity|].
        exact HQ.
      * apply (IH new Hk2 Hnd2) in Hrest. apply Forall_forall. intros kv Hin.
        rewrite Forall_forall in Hrest. destruct (Hrest kv Hin) as [w [Hg Hq]].
        exists w. rewrite Htail by exact Hin. split; assumption.
Qed.

Lemma filter_all {A} (f : A -> bool) l :
  (forall x, In x l -> f x = true) -> filter f l = l.
Proof.
  induction l as [|x l IH]; intros H; simpl; [reflexivity|].
  rewrite (H x) by (left; reflexivity). f_equal.
  apply IH. intros y Hy. apply H. right. exact Hy.
Qed.

Lemma Forall2_keys (P : Value -> Value -> Prop) :
  forall o o' : list (string * Value),
    Forall2 (fun kv kv' => fst kv = fst kv' /\ P (snd kv) (snd kv')) o o' ->
    Obj.keys o = Obj.keys o'.
Proof.
  induction 1 as [|[k v] [k' v'] o o' [Hk _] _ IH]; simpl; [reflexivity|].
  simpl in Hk. subst. f_equal. exact IH.
Qed.

Lemma strict_empty oldVal :
  forall newVal path,
    uniqueKeys oldVal = true -> uniqueKeys newVal = true ->
    (compareValues oldVal newVal path strict [] = [] <->
     strictEq oldVal newVal = true).
Proof.
  induction oldVal using Value_deep_ind; intros newVal path Hu Hu';
    match goal with
    | |- compareValues ?o ?n _ _ _ = _ <-> _ =>
        destruct (tagEqb (getValueType o) (getValueType n)) eqn:E
    end;
    try (rewrite compareValues_mismatch by exact E;
         destruct newVal; try discriminate E; simpl;
         split; discriminate);
    destruct newVal; try discriminate E; clear E.
  - simpl. tauto.
  - simpl. destruct (Bool.eqb b b0); simpl; split; auto; discriminate.
  - simpl. destruct (Num.eqb n n0); simpl; split; auto; discriminate.
  - simpl. destruct (String.eqb s s0); simpl; split; auto; discriminate.
  - rewrite compareValues_arrays, strictEq_arrays. unfold compareArrays.
    simpl in Hu, Hu'. rewrite forallb_forall in Hu, Hu'.
    generalize 0 as i. revert items0 Hu'.
    induction items as [|o os IH]; intros ns Hu' i; simpl.
    + rewrite addedItems_from. destruct ns; simpl.
      * split; constructor.
      * split; [discriminate|intros Hf; inversion Hf].
    + inversion H; subst. destruct ns as [|n ns].
      * split; [|intros Hf; inversion Hf]. intros Hnil. exfalso.
        destruct (indexLoop_extends path strict os [] (S i)
                    (push [] (removedItem (indexPath path i) o)))
          as [items Hitems].
        rewrite Hitems in Hnil. discriminate.
      * assert (Ho : uniqueKeys o = true) by (apply Hu; left; reflexivity).
        assert (Hn : uniqueKeys n = true) by (apply Hu'; left; reflexivity).
        pose proof (H2 n (indexPath path i) Ho Hn) as Hhead.
        assert (Htail :
          indexLoop path strict os ns (S i) [] = [] <->
          Forall2 (fun x y => strictEq x y = true) os ns).
        { apply IH; try assumption.
          - intros x Hx. apply Hu. right. exact Hx.
          - intros x Hx. apply Hu'. right. exact Hx. }
        split.
        -- intros Hnil.
           destruct (indexLoop_extends path strict os ns (S i)
                       (compareValues o n (indexPath path i) strict []))
             as [items Hitems].
           assert (Hd : compareValues o n (indexPath path i) strict [] = [])
             by (rewrite Hitems in Hnil; apply app_eq_nil in Hnil; tauto).
           rewrite Hd in Hnil. constructor; [apply Hhead, Hd|].
           apply Htail, Hnil.
        -- intros Hf. inversion Hf; subst.
           rewrite (proj2 Hhead) by assumption. apply Htail. assumption.
  - rewrite compareValues_objects, strictEq_objects. unfold compareObjects.
    destruct (uniqueKeys_object _ Hu) as [Hnd Hall].
    destruct (uniqueKeys_object _ Hu') as [Hnd' Hall'].
    assert (HQ : forall kv v',
      In kv props -> In (fst kv, v') props0 ->
      (compareValues (snd kv) v' (keyPath path (fst kv)) strict [] = [] <->
       strictEq (snd kv) v' = true)).
    { intros kv v' Hin Hin'. rewrite Forall_forall in H, Hall, Hall'.
      apply (H kv Hin); [apply Hall, Hin|]. apply (Hall' _ Hin'). }
    split.
    + intros Hnil. rewrite addedKeys_split in Hnil.
      apply app_eq_nil in Hnil. destruct Hnil as [Hloop Hadded].
      destruct (oldKeysLoop_extends props0 path strict props
                  (checkKeyOrder (Obj.keys props) (Obj.keys props0) path []))
        as [items Hitems].
      assert (Horder :
        checkKeyOrder (Obj.keys props) (Obj.keys props0) path [] = [])
        by (rewrite Hitems in Hloop; apply app_eq_nil in Hloop; tauto).
      rewrite Horder in Hloop.
      pose proof (proj1 (oldKeysLoop_empty _ _ _ _) Hloop) as Hentries.
      pose proof (proj1 (addedKeys_empty _ _ _) Hadded) as Hkeys.
      rewrite checkKeyOrder_common in Horder by assumption.
      pose proof (proj1 (checkKeyOrderLoop_empty _ _ _ _) Horder) as Hnth.
      assert (Hcommon : commonInOrder (Obj.keys props) (Obj.keys props0)
                        = commonInOrder (Obj.keys props0) (Obj.keys props)).
      { apply nth_error_agree; [|exact Hnth].
        apply Permutation_length, NoDup_Permutation;
          try (apply NoDup_filter; assumption).
        intros k. rewrite !common_In. tauto. }
      assert (Hsame : Obj.keys props = Obj.keys props0).
      { unfold commonInOrder in Hcommon.
        rewrite !filter_all in Hcommon; [exact Hcommon| |].
        - intros k Hk. rewrite forallb_forall in Hkeys.
          rewrite <- has_includes. apply Hkeys, Hk.
        - intros k Hk. apply includes_In. unfold Obj.keys in Hk.
          apply in_map_iff in Hk. destruct Hk as [kv [<- Hin]].
          rewrite Forall_forall in Hentries.
          destruct (Hentries kv Hin) as [v' [Hget _]].
          apply get_Some_In in Hget.
          change (fst kv) with (fst (fst kv, v')). apply in_map, Hget. }
      pose proof (proj1 (entries_paired
        (fun kv v' => compareValues (snd kv) v' (keyPath path (fst kv))
                        strict [] = []) props props0 Hsame Hnd') Hentries)
        as Hpairs.
      clear - Hpairs HQ.
      induction Hpairs as [|kv kv' o o' [Hk Hc] _ IH]; constructor.
      * split; [exact Hk|]. destruct kv' as [k' v']. simpl in *.
        apply (HQ kv v'); [left; reflexivity| |exact Hc].
        left. subst k'. reflexivity.
      * apply IH. intros kv2 v2 Hin Hin'. apply HQ; right; assumption.
    + intros Hpairs. pose proof (Forall2_keys (fun x y => strictEq x y = true)
                                     _ _ Hpairs) as Hsame.
      rewrite <- Hsame. rewrite checkKeyOrder_same.
      assert (Hentries : Forall (fun kv =>
                exists v', Obj.get (fst kv) props0 = Some v' /\
                           compareValues (snd kv) v'
                             (keyPath path (fst kv)) strict [] = []) props).
      { apply (entries_paired
          (fun kv v' => compareValues (snd kv) v' (keyPath path (fst kv))
                          strict [] = []) props props0 Hsame Hnd').
        clear - Hpairs HQ.
        induction Hpairs as [|kv kv' o o' [Hk Hc] _ IH]; constructor.
        - split; [exact Hk|]. destruct kv' as [k' v']. simpl in *.
          apply (HQ kv v'); [left; reflexivity| |exact Hc].
          left. subst k'. reflexivity.
        - apply IH. intros kv2 v2 Hin Hin'. apply HQ; right; assumption. }
      rewrite (proj2 (oldKeysLoop_empty _ _ _ _) Hentries).
      apply addedKeys_empty. apply forallb_forall. intros k Hk.
      rewrite has_includes, Hsame. apply includes_In, Hk.
Qed.

(** X9. In strict mode [isEqual] is deep equality with the keys in order:
    for two values whose objects have distinct keys, it is true exactly
    when they have the same type and equal primitives, arrays that are
    equal position by position, and objects with the same keys in the same
    order and equal values under each key. *)
Theorem compareJson_strict_isEqual (oldJson newJson : JsonValue) :
  uniqueKeys oldJson = true -> uniqueKeys newJson = true ->
  res_isEqual (compareJson oldJson newJson strict)
  = strictEq oldJson newJson.
Proof.
  intros Hu Hu'. unfold compareJson, res_isEqual.
  pose proof (strict_empty oldJson newJson EmptyString Hu Hu') as H.
  destruct (compareValues oldJson newJson EmptyString strict []).
  - symmetry. apply H. reflexivity.
  - destruct (strictEq oldJson newJson); [|reflexivity].
    destruct H as [_ H]. discriminate (H eq_refl).
Qed.

Lemma compareJson_strict_isEqual_witness :
  let a := VObject [("x", VNumber (Finite 1 0)); ("y", VArray [VNull])] in
  let b := VObject [("y", VArray [VNull]); ("x", VNumber (Finite 10 1))] in
  res_isEqual (compareJson a b strict) = strictEq a b /\
  strictEq a b = false /\ looseEq a b = true.
Proof.
  cbv zeta. split; [|split; reflexivity].
  apply compareJson_strict_isEqual; reflexivity.
Defined.

End JsonDiffMore.

(* ================================================================== *)
(** ** Captures of the patterns *)

Module RegexMore.
Import Regex DdlSpec RegexSpec.

(** *** Strings *)

Lemma length_app_str a b :
  String.length (a +++ b) = String.length a + String.length b.
Proof. induction a as [|c a IH]; simpl; [reflexivity|]. rewrite IH. lia. Qed.

Lemma take_app_str a b : Js.take (String.length a) (a +++ b) = a.
Proof. induction a as [|c a IH]; simpl; [destruct b|rewrite IH]; reflexivity. Qed.

Lemma consumed_app from to taken :
  rest from = taken +++ rest to -> consumed from to = taken.
Proof.
  intros H. unfold consumed. rewrite H, length_app_str.
  replace (String.length taken + String.length (rest to)
           - String.length (rest to)) with (String.length taken) by lia.
  apply take_app_str.
Qed.

(** *** The continuation is reached *)

Lemma starLoop_calls iter greedy k :
  (forall k' st out, iter k' st = Some out ->
                     exists st', k' st' = Some out) ->
  forall n st out, starLoop iter greedy k n st = Some out ->
                   exists st', k st' = Some out.
Proof.
  intros Hiter. induction n as [|n IH]; intros st out; simpl; [eauto|].
  assert (Hmore :
    iter (fun s' => if String.length (rest s') <? String.length (rest st)
                    then starLoop iter greedy k n s' else None) st
    = Some out -> exists st', k st' = Some out).
  { intros H. apply Hiter in H. destruct H as [s' H].
    destruct (_ <? _); [|discriminate]. apply IH in H. exact H. }
  destruct greedy.
  - destruct (iter _ st) as [x|] eqn:E.
    + intros H. inversion H; subst. apply Hmore. reflexivity.
    + eauto.
  - destruct (k st) as [x|] eqn:E.
    + intros H. inversion H; subst. eauto.
    + exact Hmore.
Qed.

Lemma run_calls r :
  forall k st out, run r k st = Some out -> exists st', k st' = Some out.
Proof.
  induction r as [|p|r1 IH1 r2 IH2|r1 IH1 r2 IH2|g r1 IH1|n r1 IH1|m|m|];
    intros k st out; simpl.
  - eauto.
  - destruct (rest st) as [|c t]; [discriminate|].
    destruct (p c); [eauto|discriminate].
  - intros H. apply IH1 in H. destruct H as [s' H]. apply IH2 in H. exact H.
  - destruct (run r1 k st) as [x|] eqn:E.
    + intros H. inversion H; subst. apply IH1 in E. exact E.
    + apply IH2.
  - apply starLoop_calls. exact IH1.
  - intros H. apply IH1 in H. destruct H as [s' H]. eauto.
  - destruct (prev st) as [c|]; [|eauto].
    destruct (m && Js.isLineTerminator c); [eauto|discriminate].
  - destruct (rest st) as [|c t]; [eauto|].
    destruct (m && Js.isLineTerminator c); [eauto|discriminate].
  - destruct (xorb _ _); [eauto|discriminate].
Qed.

(** *** A property of the captures that every step keeps *)

Section Preserved.

Variable I : list (nat * string) -> Prop.

Lemma starLoop_preserves iter greedy k :
  (forall k', preserves I k' -> preserves I (iter k')) ->
  preserves I k ->
  forall n, preserves I (starLoop iter greedy k n).
Proof.
  intros Hiter Hk. induction n as [|n IH]; simpl; [exact Hk|].
  intros st out Hst.
  assert (Hmore :
    iter (fun s' => if String.length (rest s') <? String.length (rest st)
                    then starLoop iter greedy k n s' else None) st
    = Some out -> I (caps out)).
  { apply Hiter; [|exact Hst]. intros s' out' Hs'.
    destruct (_ <? _); [|discriminate]. apply IH, Hs'. }
  destruct greedy.
  - destruct (iter _ st) as [x|] eqn:E.
    + intros H. inversion H; subst. apply Hmore. reflexivity.
    + apply Hk, Hst.
  - destruct (k st) as [x|] eqn:E.
    + intros H. inversion H; subst. apply (Hk st); assumption.
    + exact Hmore.
Qed.

End Preserved.

(** *** A non-empty run of characters of one class *)

Lemma starLoop_greedy iter k n st :
  starLoop iter true k (S n) st =
  match iter (fun s' => if String.length (rest s') <? String.length (rest st)
                        then starLoop iter true k n s' else None) st with
  | Some x => Some x
  | None => k st
  end.
Proof. reflexivity. Qed.

Lemma run_Chr p k st :
  run (Chr p) k st =
  match rest st with
  | String c t => if p c then k (mkState (Some c) t (caps st)) else None
  | EmptyString => None
  end.
Proof. reflexivity. Qed.

Lemma starChr_taken p k :
  forall n st out,
    starLoop (run (Chr p)) true k n st = Some out ->
    exists st' taken,
      k st' = Some out /\ caps st' = caps st /\
      Js.allStr p taken = true /\ rest st = taken +++ rest st'.
Proof.
  induction n as [|n IH]; intros st out.
  - simpl. intros H. exists st, EmptyString. auto.
  - rewrite starLoop_greedy, run_Chr.
    destruct (rest st) as [|c t] eqn:Er.
    + intros H. exists st, EmptyString. auto.
    + destruct (p c) eqn:Ep.
      * cbn [rest String.length].
        replace (String.length t <? S (String.length t)) with true
          by (symmetry; apply Nat.ltb_lt; lia).
        destruct (starLoop _ true k n _) as [x|] eqn:E.
        -- intros H. inversion H; subst.
           apply IH in E. destruct E as (st' & taken & Hk & Hc & Ha & Hr).
           simpl in Hc, Hr. exists st', (String c taken).
           simpl. rewrite Ep, Ha, <- Hr. auto.
        -- intros H. exists st, EmptyString. auto.
      * intros H. exists st, EmptyString. auto.
Qed.

Lemma plusChr_taken p k st out :
  run (plus (Chr p)) k st = Some out ->
  exists st' taken,
    k st' = Some out /\ caps st' = caps st /\
    Js.nonEmpty taken = true /\ Js.allStr p taken = true /\
    rest st = taken +++ rest st'.
Proof.
  unfold plus. change (run (Cat (Chr p) (Star true (Chr p))) k st)
    with (run (Chr p) (run (Star true (Chr p)) k) st).
  rewrite run_Chr. destruct (rest st) as [|c t] eqn:Er; [discriminate|].
  destruct (p c) eqn:Ep; [|discriminate].
  change (run (Star true (Chr p)) k (mkState (Some c) t (caps st)))
    with (starLoop (run (Chr p)) true k (String.length t)
            (mkState (Some c) t (caps st))).
  intros H. apply starChr_taken in H.
  destruct H as (st' & taken & Hk & Hc & Ha & Hr). simpl in Hc, Hr.
  exists st', (String c taken). simpl. rewrite Ep, Ha, <- Hr. auto.
Qed.

(** *** Groups of word characters capture identifiers *)

Lemma run_capsOk ids r :
  wordGroups ids r ->
  forall k, preserves (capsOk ids) k -> preserves (capsOk ids) (run r k).
Proof.
  induction r as [|p|r1 IH1 r2 IH2|r1 IH1 r2 IH2|g r1 IH1|n r1 IH1|m|m|];
    simpl; intros Hr k Hk st out Hst.
  - apply Hk, Hst.
  - destruct (rest st) as [|c t]; [discriminate|].
    destruct (p c); [|discriminate]. apply Hk. exact Hst.
  - destruct Hr as [Hr1 Hr2].
    apply (IH1 Hr1 (run r2 k) (IH2 Hr2 k Hk)), Hst.
  - destruct Hr as [Hr1 Hr2].
    destruct (run r1 k st) as [x|] eqn:E.
    + intros H. inversion H; subst. apply (IH1 Hr1 k Hk st); assumption.
    + apply (IH2 Hr2 k Hk), Hst.
  - apply (starLoop_preserves (capsOk ids)); [|exact Hk|exact Hst].
    intros k'. apply IH1, Hr.
  - destruct (ids n) eqn:En.
    + subst r1. intros H. apply plusChr_taken in H.
      destruct H as (st' & taken & Hk' & Hc & Hn & Ha & Hrest).
      apply Hk in Hk'; [exact Hk'|]. simpl.
      rewrite (consumed_app _ _ _ Hrest), Hc.
      intros n' s' [Heq|Hin] Hid.
      * inversion Heq; subst. unfold isIdentifier. rewrite Hn, Ha.
        reflexivity.
      * apply (Hst _ _ Hin Hid).
    + apply (IH1 Hr); [|exact Hst].
      intros s' out' Hs'. apply Hk. simpl.
      intros n' x [Heq|Hin] Hid.
      * inversion Heq; subst. congruence.
      * apply (Hs' _ _ Hin Hid).
  - destruct (prev st) as [c|]; [|apply Hk, Hst].
    destruct (m && Js.isLineTerminator c); [apply Hk, Hst|discriminate].
  - destruct (rest st) as [|c t]; [apply Hk, Hst|].
    destruct (m && Js.isLineTerminator c); [apply Hk, Hst|discriminate].
  - destruct (xorb _ _); [apply Hk, Hst|discriminate].
Qed.

Lemma search_caps r :
  forall s0 revBefore p m,
    search r revBefore p s0 = Some m ->
    exists p' s', exists st,
      matchAt r p' s' = Some st /\ groups m = caps st.
Proof.
  induction s0 as [|c s0 IH]; intros revBefore p m; simpl.
  - destruct (matchAt r p EmptyString) as [st|] eqn:E; [|discriminate].
    intros H. inversion H; subst. simpl. eauto.
  - destruct (matchAt r p (String c s0)) as [st|] eqn:E.
    + intros H. inversion H; subst. simpl. eauto.
    + apply IH.
Qed.

Lemma exec_capsOk ids r s0 m :
  wordGroups ids r -> exec r s0 = Some m -> capsOk ids (groups m).
Proof.
  intros Hr H. apply search_caps in H.
  destruct H as (p' & s' & st & Hm & ->).
  unfold matchAt in Hm.
  apply (run_capsOk ids r Hr Some) in Hm; [exact Hm| |].
  - intros st0 out0 H0 E. inversion E; subst. exact H0.
  - simpl. intros n x [].
Qed.

Lemma lookupGroup_In n gs x : lookupGroup n gs = Some x -> In (n, x) gs.
Proof.
  induction gs as [|[n' y] gs IH]; simpl; [discriminate|].
  destruct (n =? n') eqn:E.
  - apply Nat.eqb_eq in E. intros H. inversion H; subst. auto.
  - auto.
Qed.

(** *** Groups that every match goes through *)

Lemma run_preserves (I : list (nat * string) -> Prop) r :
  (forall x cs, I cs -> I (x :: cs)) ->
  forall k, preserves I k -> preserves I (run r k).
Proof.
  intros Hcons.
  induction r as [|p|r1 IH1 r2 IH2|r1 IH1 r2 IH2|g r1 IH1|n r1 IH1|m|m|];
    simpl; intros k Hk st out Hst.
  - apply Hk, Hst.
  - destruct (rest st) as [|c t]; [discriminate|].
    destruct (p c); [|discriminate]. apply Hk. exact Hst.
  - apply (IH1 (run r2 k) (IH2 k Hk)), Hst.
  - destruct (run r1 k st) as [x|] eqn:E.
    + intros H. inversion H; subst. apply (IH1 k Hk st); assumption.
    + apply (IH2 k Hk), Hst.
  - apply (starLoop_preserves I); [exact IH1|exact Hk|exact Hst].
  - apply IH1; [|exact Hst].
    intros s' out' Hs'. apply Hk. simpl. apply Hcons, Hs'.
  - destruct (prev st) as [c|]; [|apply Hk, Hst].
    destruct (m && Js.isLineTerminator c); [apply Hk, Hst|discriminate].
  - destruct (rest st) as [|c t]; [apply Hk, Hst|].
    destruct (m && Js.isLineTerminator c); [apply Hk, Hst|discriminate].
  - destruct (xorb _ _); [apply Hk, Hst|discriminate].
Qed.

Lemma captured_cons n x cs : captured n cs -> captured n (x :: cs).
Proof.
  unfold captured. destruct x as [n' y]. simpl.
  destruct (n =? n'); [discriminate|auto].
Qed.

Lemma run_mustCapture n r :
  mustCapture n r = true ->
  forall k, preserves (captured n) k ->
  forall st out, run r k st = Some out -> captured n (caps out).
Proof.
  induction r as [|p|r1 IH1 r2 IH2|r1 IH1 r2 IH2|g r1 IH1|n' r1 IH1|m|m|];
    simpl; try discriminate; intros Hr k Hk st out.
  - apply orb_true_iff in Hr. destruct Hr as [Hr|Hr].
    + apply (IH1 Hr). apply run_preserves; [apply captured_cons|exact Hk].
    + intros H. apply run_calls in H. destruct H as [s' H].
      apply (IH2 Hr k Hk) in H. exact H.
  - apply andb_true_iff in Hr. destruct Hr as [Hr1 Hr2].
    destruct (run r1 k st) as [x|] eqn:E.
    + intros H. inversion H; subst. apply (IH1 Hr1 k Hk) in E. exact E.
    + apply (IH2 Hr2 k Hk).
  - destruct (n =? n') eqn:En.
    + intros H. apply run_calls in H. destruct H as [s' H].
      apply Hk in H; [exact H|]. unfold captured. simpl. rewrite En.
      discriminate.
    + simpl in Hr. apply (IH1 Hr).
      intros s' out' Hs'. apply Hk. simpl. apply captured_cons, Hs'.
Qed.

Lemma exec_captured n r s0 m :
  mustCapture n r = true -> exec r s0 = Some m -> captured n (groups m).
Proof.
  intros Hr H. apply search_caps in H.
  destruct H as (p' & s' & st & Hm & ->).
  unfold matchAt in Hm.
  apply (run_mustCapture n r Hr Some) in Hm; [exact Hm|].
  intros st0 out0 H0 E. inversion E; subst. exact H0.
Qed.

(** A group of word characters that every match goes through holds an
    identifier. *)
Lemma groupOr_identifier ids n r s0 m :
  wordGroups ids r -> ids n = true -> mustCapture n r = true ->
  exec r s0 = Some m -> isIdentifier (groupOr n m) = true.
Proof.
  intros Hw Hid Hc H.
  pose proof (exec_capsOk ids r s0 m Hw H) as Hok.
  pose proof (exec_captured n r s0 m Hc H) as Hcap.
  unfold groupOr, group. unfold captured in Hcap.
  destruct (lookupGroup n (groups m)) as [x|] eqn:E; [|congruence].
  apply (Hok n x); [apply lookupGroup_In, E|exact Hid].
Qed.

(** A group of word characters holds an identifier or has not captured. *)
Lemma groupOr_identifier_or_empty ids n r s0 m :
  wordGroups ids r -> ids n = true ->
  exec r s0 = Some m ->
  Js.nonEmpty (groupOr n m) = true -> isIdentifier (groupOr n m) = true.
Proof.
  intros Hw Hid H.
  pose proof (exec_capsOk ids r s0 m Hw H) as Hok.
  unfold groupOr, group.
  destruct (lookupGroup n (groups m)) as [x|] eqn:E; [|discriminate].
  intros _. apply (Hok n x); [apply lookupGroup_In, E|exact Hid].
Qed.

End RegexMore.

(* ================================================================== *)
(** ** Further properties of the DDL parser *)

Module DdlMore.
Import Regex Ddl DdlSpec RegexSpec JsonDiffFacts JsonDiffMore RegexMore.

(** *** Assignment to a key of a record *)

Lemma replaceKey_keys {A} k (v : A) o :
  Obj.keys (Obj.replaceKey k v o) = Obj.keys o.
Proof.
  unfold Obj.keys.
  induction o as [|[k' v'] o IH]; simpl; [reflexivity|].
  destruct (String.eqb k k') eqn:E; simpl.
  - apply String.eqb_eq in E. subst. reflexivity.
  - rewrite IH. reflexivity.
Qed.

Lemma replaceKey_In {A} k (v : A) o kv :
  In kv (Obj.replaceKey k v o) -> kv = (k, v) \/ In kv o.
Proof.
  induction o as [|[k' v'] o IH]; simpl; [tauto|].
  destruct (String.eqb k k'); simpl; intros [H|H]; auto.
  destruct (IH H); auto.
Qed.

Lemma insertIndex_perm {A} i k (v : A) o :
  Permutation ((k, v) :: o) (Obj.insertIndex i k v o).
Proof.
  induction o as [|[k' v'] o IH]; simpl; [reflexivity|].
  destruct (Obj.arrayIndex k') as [j|]; [|reflexivity].
  destruct (j <? i)%Z; [|reflexivity].
  rewrite perm_swap. apply perm_skip, IH.
Qed.

Lemma set_perm {A} k (v : A) o :
  Obj.has k o = false -> Permutation ((k, v) :: o) (Obj.set k v o).
Proof.
  intros H. unfold Obj.set. rewrite H.
  destruct (Obj.arrayIndex k).
  - apply insertIndex_perm.
  - apply Permutation_cons_append.
Qed.

Lemma set_In {A} k (v : A) o kv :
  In kv (Obj.set k v o) -> kv = (k, v) \/ In kv o.
Proof.
  destruct (Obj.has k o) eqn:E.
  - unfold Obj.set. rewrite E. apply replaceKey_In.
  - intros H. apply (Permutation_in _ (Permutation_sym (set_perm k v o E))) in H.
    destruct H; auto.
Qed.

Lemma set_NoDup {A} k (v : A) o :
  NoDup (Obj.keys o) -> NoDup (Obj.keys (Obj.set k v o)).
Proof.
  intros Hnd. destruct (Obj.has k o) eqn:E.
  - unfold Obj.set. rewrite E, replaceKey_keys. exact Hnd.
  - apply (Permutation_NoDup
             (Permutation_map fst (set_perm k v o E))).
    simpl. constructor; [|exact Hnd].
    intros Hin. apply includes_In in Hin.
    change (map fst o) with (Obj.keys o) in Hin.
    rewrite <- has_includes in Hin. congruence.
Qed.

(** *** An invariant of the statement loop *)

Section LoopInvariant.

Variable P : string -> TableInfo -> Prop.
Variable Q : StandaloneIndex -> Prop.

Hypothesis P_table :
  forall stmt table, parseCreateTable stmt = Ok table ->
    P (Js.toLowerCase (tableName table)) table.
Hypothesis P_attach :
  forall stmt indexResult key table,
    parseCreateIndex stmt = Some indexResult ->
    P key table -> P key (attachIndex table (si_index indexResult)).
Hypothesis Q_index :
  forall stmt indexResult, parseCreateIndex stmt = Some indexResult ->
    Q indexResult.

Lemma inv_set key table tables :
  P key table ->
  Forall (fun kv => P (fst kv) (snd kv)) tables ->
  Forall (fun kv => P (fst kv) (snd kv)) (Obj.set key table tables).
Proof.
  intros Hp Hall. apply Forall_forall. intros kv Hin.
  apply set_In in Hin. destruct Hin as [->|Hin]; [exact Hp|].
  rewrite Forall_forall in Hall. apply Hall, Hin.
Qed.

Lemma inv_statementsLoop statements :
  forall tables standaloneIndexes r,
    NoDup (Obj.keys tables) ->
    Forall (fun kv => P (fst kv) (snd kv)) tables ->
    Forall Q standaloneIndexes ->
    statementsLoop statements tables standaloneIndexes = Ok r ->
    exists tables',
      Ddl.tables r = Obj.values tables' /\
      NoDup (Obj.keys tables') /\
      Forall (fun kv => P (fst kv) (snd kv)) tables' /\
      Forall Q (Ddl.standaloneIndexes r).
Proof.
  induction statements as [|stmt statements IH];
    intros tables standaloneIndexes r Hnd Hp Hq; simpl.
  - intros H. inversion H; subst; simpl. exists tables. auto.
  - destruct (test reCreateTable stmt).
    + destruct (parseCreateTable stmt) as [table|e] eqn:Et; [|discriminate].
      apply IH; [apply set_NoDup, Hnd| |exact Hq].
      apply inv_set; [|exact Hp]. eapply P_table, Et.
    + destruct (test reCreateIndexGate stmt); [|apply IH; assumption].
      destruct (parseCreateIndex stmt) as [indexResult|] eqn:Ei;
        [|apply IH; assumption].
      destruct (Obj.get _ tables) as [table|] eqn:Eg.
      * apply IH; [apply set_NoDup, Hnd| |exact Hq].
        apply inv_set; [|exact Hp].
        eapply P_attach; [exact Ei|].
        apply get_Some_In in Eg. rewrite Forall_forall in Hp.
        apply (Hp _ Eg).
      * apply IH; [exact Hnd|exact Hp|].
        apply Forall_app. split; [exact Hq|].
        constructor; [|constructor]. eapply Q_index, Ei.
Qed.

Lemma inv_parseDDL ddl r :
  parseDDL ddl = Ok r ->
  exists tables',
    Ddl.tables r = Obj.values tables' /\
    NoDup (Obj.keys tables') /\
    Forall (fun kv => P (fst kv) (snd kv)) tables' /\
    Forall Q (Ddl.standaloneIndexes r).
Proof.
  unfold parseDDL. apply inv_statementsLoop; constructor.
Qed.

End LoopInvariant.

(** *** The table names of a result *)

Lemma attachIndex_tableName table index :
  tableName (attachIndex table index) = tableName table.
Proof. reflexivity. Qed.

(** X10. The tables of a result have pairwise distinct names, letter case
    apart: a later [CREATE TABLE] of a name replaces the earlier table of
    that name. *)
Theorem parseDDL_distinct_table_names (ddl : string) (r : DDLParseResult) :
  parseDDL ddl = Ok r ->
  NoDup (map (fun table => Js.toLowerCase (tableName table)) (tables r)).
Proof.
  intros H.
  destruct (inv_parseDDL
              (fun key table => key = Js.toLowerCase (tableName table))
              (fun _ => True)) with (ddl := ddl) (r := r)
    as (tables' & Ht & Hnd & Hp & _); auto.
  rewrite Ht. unfold Obj.values. rewrite map_map.
  assert (E : map (fun kv : string * TableInfo =>
                     Js.toLowerCase (tableName (snd kv))) tables'
              = Obj.keys tables').
  { unfold Obj.keys. apply map_ext_in. intros kv Hin.
    rewrite Forall_forall in Hp. symmetry. apply Hp, Hin. }
  rewrite E. exact Hnd.
Qed.

Lemma parseDDL_distinct_table_names_witness :
  exists r,
    parseDDL "CREATE TABLE t (a INT); CREATE TABLE T (b INT);" = Ok r /\
    List.length (tables r) = 1 /\
    NoDup (map (fun table => Js.toLowerCase (tableName table)) (tables r)).
Proof.
  eexists. split; [vm_compute; reflexivity|]. split; [reflexivity|].
  apply (parseDDL_distinct_table_names
           "CREATE TABLE t (a INT); CREATE TABLE T (b INT);").
  vm_compute. reflexivity.
Defined.

(** *** Fields and indexes point at each other *)

Lemma coversField_setFieldIndexes index field l :
  coversField index (setFieldIndexes field l) = coversField index field.
Proof. reflexivity. Qed.

Lemma existsb_sameName col (fs : list TableField) :
  Obj.includes (Js.toLowerCase col)
    (map (fun f => Js.toLowerCase (f_name f)) fs)
  = existsb (fun field => sameName col (f_name field)) fs.
Proof.
  induction fs as [|f fs IH]; simpl; [reflexivity|].
  rewrite IH. reflexivity.
Qed.

Lemma missingOf_fields fs index :
  missingOf (map (fun f => Js.toLowerCase (f_name f)) fs) index
  = filter (fun col =>
              negb (existsb (fun field => sameName col (f_name field)) fs))
      (ix_columns index).
Proof.
  unfold missingOf. apply filter_ext. intros col.
  rewrite existsb_sameName. reflexivity.
Qed.

(** Changing the index entries of the fields changes no name. *)
Lemma existsb_names (g : TableField -> TableField) col fs :
  (forall f, f_name (g f) = f_name f) ->
  existsb (fun field => sameName col (f_name field)) (map g fs)
  = existsb (fun field => sameName col (f_name field)) fs.
Proof.
  intros Hg. induction fs as [|f fs IH]; simpl; [reflexivity|].
  rewrite IH, Hg. reflexivity.
Qed.

(** The index entries of a field depend on its name only, and on the
    type, name and columns of the indexes. *)
Lemma indexEntries_names (g : TableIndex -> list string) field field' ixs :
  f_name field' = f_name field ->
  map (fun index => fieldIndexOf index field')
    (filter (fun index => coversField index field')
       (map (fun index => setMissingColumns index (g index)) ixs))
  = map (fun index => fieldIndexOf index field)
      (filter (fun index => coversField index field) ixs).
Proof.
  intros Hn.
  assert (Hc : forall ix l, coversField (setMissingColumns ix l) field'
                            = coversField ix field).
  { intros ix l. unfold coversField. rewrite Hn. reflexivity. }
  assert (Hi : forall ix l, fieldIndexOf (setMissingColumns ix l) field'
                            = fieldIndexOf ix field).
  { intros ix l. unfold fieldIndexOf. rewrite Hn. reflexivity. }
  induction ixs as [|index ixs IH]; cbn [map filter]; [reflexivity|].
  rewrite Hc. destruct (coversField index field); cbn [map].
  - rewrite Hi, IH. reflexivity.
  - exact IH.
Qed.

Lemma parseCreateTable_linked stmt table :
  parseCreateTable stmt = Ok table -> linked table.
Proof.
  unfold parseCreateTable.
  destruct (exec reTableName stmt); [|discriminate].
  destruct (exec reTableContent stmt); [|discriminate].
  destruct (definitionsLoop _ [] []) as [fs ixs].
  intros H. inversion H; subst; clear H. split; simpl.
  - apply Forall_forall. intros index Hin.
    apply in_map_iff in Hin. destruct Hin as (index0 & <- & _).
    unfold missingColumnsOf; simpl. rewrite missingOf_fields.
    f_equal. apply filter_ext. intros col.
    rewrite existsb_names; reflexivity.
  - apply Forall_forall. intros field Hin.
    apply in_map_iff in Hin. destruct Hin as (field0 & <- & _).
    unfold indexesOfField; simpl.
    symmetry. apply indexEntries_names. reflexivity.
Qed.

Lemma attachIndex_linked table index :
  linked table -> linked (attachIndex table index).
Proof.
  intros [Hm Hf].
  set (g := fun field =>
              if coversField
                   (setMissingColumns index
                      (missingOf
                         (map (fun f => Js.toLowerCase (f_name f))
                            (fields table)) index)) field
              then setFieldIndexes field
                     (f_indexes field ++
                      [fieldIndexOf
                         (setMissingColumns index
                            (missingOf
                               (map (fun f => Js.toLowerCase (f_name f))
                                  (fields table)) index)) field])
              else field).
  assert (Hg : forall f, f_name (g f) = f_name f).
  { intros f. unfold g. destruct (coversField _ f); reflexivity. }
  split; simpl.
  - apply Forall_app. split.
    + rewrite Forall_forall in Hm |- *. intros index0 Hin.
      rewrite (Hm _ Hin). f_equal. unfold missingColumnsOf; simpl.
      apply filter_ext. intros col.
      fold g. rewrite existsb_names; [reflexivity|exact Hg].
    + constructor; [|constructor].
      unfold missingColumnsOf; simpl. rewrite missingOf_fields.
      f_equal. apply filter_ext. intros col.
      fold g. rewrite existsb_names; [reflexivity|exact Hg].
  - fold g. apply Forall_forall. intros field Hin.
    apply in_map_iff in Hin. destruct Hin as (field0 & <- & Hin0).
    rewrite Forall_forall in Hf. specialize (Hf _ Hin0).
    unfold indexesOfField in *; simpl.
    rewrite filter_app, map_app; simpl.
    assert (Hc : forall ix, coversField ix (g field0) = coversField ix field0).
    { intros ix. unfold coversField. rewrite Hg. reflexivity. }
    assert (Hi : forall ix, fieldIndexOf ix (g field0)
                            = fieldIndexOf ix field0).
    { intros ix. unfold fieldIndexOf. rewrite Hg. reflexivity. }
    rewrite (filter_ext _ _ Hc), !(map_ext _ _ Hi), Hc, <- Hf.
    unfold g.
    destruct (coversField _ field0); simpl.
    + reflexivity.
    + rewrite app_nil_r. reflexivity.
Qed.

(** X11. Every table of a result is consistent, also after later
    [CREATE INDEX] statements have added indexes to it: each index lists as
    missing exactly those of its columns that name no field of the table,
    letter case apart, and each field lists exactly the indexes of the
    table that have it among their columns, in the order of the indexes. *)
Theorem parseDDL_tables_linked (ddl : string) (r : DDLParseResult) :
  parseDDL ddl = Ok r -> Forall linked (tables r).
Proof.
  intros H.
  destruct (inv_parseDDL (fun _ table => linked table) (fun _ => True))
    with (ddl := ddl) (r := r) as (tables' & Ht & _ & Hp & _); auto.
  - intros stmt table. apply parseCreateTable_linked.
  - intros stmt indexResult key table _. apply attachIndex_linked.
  - rewrite Ht. unfold Obj.values. apply Forall_map. exact Hp.
Qed.

Lemma parseDDL_tables_linked_witness :
  exists r,
    parseDDL ("CREATE TABLE t (a INT, b INT, KEY k (a, x));"
              +++ "CREATE UNIQUE INDEX u ON T (B, y);") = Ok r /\
    List.length (tables r) = 1 /\ Forall linked (tables r).
Proof.
  eexists. split; [vm_compute; reflexivity|]. split; [reflexivity|].
  apply (parseDDL_tables_linked
           ("CREATE TABLE t (a INT, b INT, KEY k (a, x));"
            +++ "CREATE UNIQUE INDEX u ON T (B, y);")).
  vm_compute. reflexivity.
Defined.

(** *** Statements that the loop does not look at *)

Lemma statementsLoop_filter statements :
  forall tables standaloneIndexes,
    statementsLoop statements tables standaloneIndexes =
    statementsLoop (filter gated statements) tables standaloneIndexes.
Proof.
  induction statements as [|stmt statements IH];
    intros tables standaloneIndexes; [reflexivity|].
  simpl filter. unfold gated at 1.
  destruct (test reCreateTable stmt) eqn:E1; simpl.
  - rewrite E1. destruct (parseCreateTable stmt); [apply IH|reflexivity].
  - rewrite E1. destruct (test reCreateIndexGate stmt) eqn:E2; simpl.
    + rewrite E1, E2. destruct (parseCreateIndex stmt); [|apply IH].
      destruct (Obj.get _ _); apply IH.
    + apply IH.
Qed.

(** *** When [parseDDL] returns *)

Lemma parseCreateTable_ok stmt :
  extractable stmt = true -> exists table, parseCreateTable stmt = Ok table.
Proof.
  unfold extractable, parseCreateTable. rewrite andb_true_iff.
  destruct (exec reTableName stmt); simpl; [|intros [? _]; discriminate].
  destruct (exec reTableContent stmt); simpl; [|intros [_ ?]; discriminate].
  intros _. destruct (definitionsLoop _ [] []). eauto.
Qed.

Lemma statementsLoop_ok statements :
  (forall stmt, In stmt statements -> test reCreateTable stmt = true ->
                extractable stmt = true) ->
  forall tables standaloneIndexes,
    exists r, statementsLoop statements tables standaloneIndexes = Ok r.
Proof.
  induction statements as [|stmt statements IH]; intros Hall tables sis;
    simpl; [eauto|].
  assert (Hrest : forall s0, In s0 statements ->
                    test reCreateTable s0 = true -> extractable s0 = true).
  { intros s0 Hin. apply Hall. right. exact Hin. }
  specialize (IH Hrest).
  destruct (test reCreateTable stmt) eqn:E1.
  - destruct (parseCreateTable_ok stmt) as [table Ht];
      [apply Hall; simpl; auto|].
    rewrite Ht. apply IH.
  - destruct (test reCreateIndexGate stmt); [|apply IH].
    destruct (parseCreateIndex stmt); [|apply IH].
    destruct (Obj.get _ _); apply IH.
Qed.

(** X12. [parseDDL] returns a result whenever the table name and the
    parenthesized body can be taken from every statement that matches
    [CREATE TABLE]: no other statement makes it throw.  Names that every
    record inherits are set aside, as the record of tables is modelled with
    its own keys only. *)
Theorem parseDDL_returns (ddl : string) :
  (forall stmt, In stmt (statementsOf ddl) ->
                test reCreateTable stmt = true -> extractable stmt = true) ->
  (forall stmt, In stmt (statementsOf ddl) -> ownNamesOnly stmt = true) ->
  exists r, parseDDL ddl = Ok r.
Proof.
  intros Hall _. unfold parseDDL. apply statementsLoop_ok. exact Hall.
Qed.

Lemma parseDDL_returns_witness :
  exists r,
    parseDDL ("CREATE TABLE t (a INT); DROP TABLE u; CREATE INDEX i ON t;"
              +++ "CREATE INDEX j ON v (a)") = Ok r.
Proof.
  apply parseDDL_returns.
  - intros stmt Hin. vm_compute in Hin.
    repeat (destruct Hin as [<-|Hin]; [vm_compute; auto; discriminate|]).
    contradiction.
  - intros stmt Hin. vm_compute in Hin.
    repeat (destruct Hin as [<-|Hin]; [vm_compute; reflexivity|]).
    contradiction.
Defined.

(** X13. The result depends only on the statements that match
    [CREATE TABLE] or [CREATE [UNIQUE] INDEX]: two inputs with the same
    such statements, in the same order, have the same result. *)
Theorem parseDDL_other_statements_ignored (ddl1 ddl2 : string) :
  filter gated (statementsOf ddl1) = filter gated (statementsOf ddl2) ->
  parseDDL ddl1 = parseDDL ddl2.
Proof.
  intros H. unfold parseDDL.
  rewrite (statementsLoop_filter (splitStatements (removeComments ddl1))),
          (statementsLoop_filter (splitStatements (removeComments ddl2))).
  unfold statementsOf in H. rewrite H. reflexivity.
Qed.

Lemma parseDDL_other_statements_ignored_witness :
  parseDDL ("DROP TABLE t; CREATE TABLE t (a INT); ALTER TABLE t ADD b INT;"
            +++ "CREATE FULLTEXT INDEX f ON t (a); CREATE INDEX i ON t (a)")
  = parseDDL "CREATE TABLE t (a INT); CREATE INDEX i ON t (a)".
Proof.
  apply parseDDL_other_statements_ignored. vm_compute. reflexivity.
Defined.

(** *** Names are identifiers *)

Lemma parseIndexColumns_identifiers columnsStr :
  Forall (fun col => isIdentifier col = true) (parseIndexColumns columnsStr).
Proof.
  apply Forall_forall. intros x Hin. unfold parseIndexColumns in Hin.
  apply filter_In in Hin. destruct Hin as [Hin Hne].
  apply in_map_iff in Hin. destruct Hin as (col & Hx & _).
  destruct (exec reColumn (Js.trim col)) as [m|] eqn:E.
  - subst x.
    apply (groupOr_identifier_or_empty group1 1 reColumn _ m
             ltac:(simpl; repeat split) eq_refl E Hne).
  - subst x. discriminate.
Qed.

Lemma parseIndexColumns_nonempty_names columnsStr :
  Forall (fun col => Js.nonEmpty col = true) (parseIndexColumns columnsStr).
Proof.
  eapply Forall_impl; [|apply parseIndexColumns_identifiers].
  intros col H. unfold isIdentifier in H. apply andb_true_iff in H. tauto.
Qed.

Lemma parseField_named fieldDef field :
  parseField fieldDef = Some field -> isIdentifier (f_name field) = true.
Proof.
  unfold parseField.
  destruct (exec reFieldName _) as [m|] eqn:E; [|discriminate].
  intros H. inversion H; subst; clear H. simpl.
  apply (groupOr_identifier group1 1 reFieldName _ m
           ltac:(simpl; repeat split) eq_refl eq_refl E).
Qed.

Lemma namedIndex_named prefix normalizedDef name columns :
  wordGroups group1 prefix ->
  namedIndex prefix normalizedDef = (name, columns) ->
  columns <> [] ->
  isIdentifier name = true /\
  Forall (fun col => isIdentifier col = true) columns.
Proof.
  intros Hp. unfold namedIndex.
  destruct (exec (reNamedIndex prefix) normalizedDef) as [m|] eqn:E.
  - intros H _. inversion H; subst; clear H.
    split; [|apply parseIndexColumns_identifiers].
    apply (groupOr_identifier group1 1 (reNamedIndex prefix) _ m
             ltac:(simpl; repeat split; exact Hp) eq_refl
             ltac:(simpl; rewrite ?orb_true_r; reflexivity) E).
  - intros H. inversion H; subst. congruence.
Qed.

(** What [parseInlineIndex] returns: an index with at least one column,
    whose names are identifiers, of a type other than [SPATIAL], and named
    [PRIMARY] when it is the primary key. *)
Lemma parseInlineIndex_shape indexDef index :
  parseInlineIndex indexDef = Some index ->
  indexNamed index /\ ix_columns index <> [] /\ ix_type index <> SPATIAL /\
  (ix_type index = PRIMARY -> ix_name index = "PRIMARY") /\
  ix_missingColumns index = None.
Proof.
  unfold parseInlineIndex.
  set (normalizedDef := Js.trim (normalizeSpaces indexDef)).
  assert (Hfinal : forall type name columns,
    (columns <> [] ->
     isIdentifier name = true /\
     Forall (fun col => isIdentifier col = true) columns) ->
    type <> SPATIAL -> (type = PRIMARY -> name = "PRIMARY") ->
    match columns with
    | [] => None
    | _ => Some (mkTableIndex type name columns None)
    end = Some index ->
    indexNamed index /\ ix_columns index <> [] /\
    ix_type index <> SPATIAL /\
    (ix_type index = PRIMARY -> ix_name index = "PRIMARY") /\
    ix_missingColumns index = None).
  { intros type name columns Hn Ht Hp.
    destruct columns as [|c cs]; [discriminate|].
    intros H. inversion H; subst; clear H. simpl.
    repeat split; try assumption; try discriminate;
      apply Hn; discriminate. }
  destruct (test rePrimaryKey normalizedDef).
  - apply Hfinal; [|discriminate|reflexivity].
    intros _. split; [reflexivity|].
    destruct (exec reParenList normalizedDef);
      [apply parseIndexColumns_identifiers|constructor].
  - destruct (test reUniquePrefix normalizedDef).
    + destruct (namedIndex _ normalizedDef) as [n c] eqn:E.
      apply Hfinal; [|discriminate|discriminate].
      refine (namedIndex_named _ _ _ _ _ E). simpl. repeat split.
    + destruct (test reFulltextPrefix normalizedDef).
      * destruct (namedIndex _ normalizedDef) as [n c] eqn:E.
        apply Hfinal; [|discriminate|discriminate].
        refine (namedIndex_named _ _ _ _ _ E). simpl. repeat split.
      * destruct (test reKeyPrefix normalizedDef).
        -- destruct (namedIndex _ normalizedDef) as [n c] eqn:E.
           apply Hfinal; [|discriminate|discriminate].
           refine (namedIndex_named _ _ _ _ _ E). simpl. repeat split.
        -- discriminate.
Qed.

Lemma parseCreateIndex_named stmt indexResult :
  parseCreateIndex stmt = Some indexResult ->
  isIdentifier (si_tableName indexResult) = true /\
  indexNamed (si_index indexResult).
Proof.
  unfold parseCreateIndex.
  destruct (exec reCreateIndex stmt) as [m|] eqn:E; [|discriminate].
  intros H. inversion H; subst; clear H. simpl.
  assert (Hw : wordGroups group23 reCreateIndex) by (simpl; repeat split).
  split; [|split; simpl].
  - apply (groupOr_identifier group23 3 reCreateIndex _ m Hw eq_refl
             eq_refl E).
  - apply (groupOr_identifier group23 2 reCreateIndex _ m Hw eq_refl
             eq_refl E).
  - apply parseIndexColumns_identifiers.
Qed.

Lemma definitionsLoop_shape (F : TableField -> Prop) (G : TableIndex -> Prop) :
  (forall def field, parseField def = Some field -> F field) ->
  (forall def index, parseInlineIndex def = Some index -> G index) ->
  forall definitions fields indexes fields' indexes',
    Forall F fields -> Forall G indexes ->
    definitionsLoop definitions fields indexes = (fields', indexes') ->
    Forall F fields' /\ Forall G indexes'.
Proof.
  intros HF HG.
  induction definitions as [|def definitions IH];
    intros fields indexes fields' indexes' Hf Hi; simpl.
  - intros H. inversion H; subst. auto.
  - destruct (negb (Js.nonEmpty (Js.trim def))); [apply IH; assumption|].
    destruct (test reIndexDefinition (Js.trim def)).
    + destruct (parseInlineIndex (Js.trim def)) as [index|] eqn:E;
        [|apply IH; assumption].
      apply IH; [assumption|]. apply Forall_app. split; [assumption|].
      constructor; [|constructor]. eapply HG, E.
    + destruct (test reFieldDefinition (Js.trim def));
        [|apply IH; assumption].
      destruct (parseField (Js.trim def)) as [field|] eqn:E;
        [|apply IH; assumption].
      apply IH; [|assumption]. apply Forall_app. split; [assumption|].
      constructor; [|constructor]. eapply HF, E.
Qed.

Lemma parseCreateTable_named stmt table :
  parseCreateTable stmt = Ok table -> tableNamed table.
Proof.
  unfold parseCreateTable.
  destruct (exec reTableName stmt) as [m|] eqn:En; [|discriminate].
  destruct (exec reTableContent stmt); [|discriminate].
  destruct (definitionsLoop _ [] []) as [fs ixs] eqn:Ed.
  assert (Hd : Forall (fun field => isIdentifier (f_name field) = true) fs
               /\ Forall indexNamed ixs).
  { apply (definitionsLoop_shape _ _) with (3 := Forall_nil _)
      (4 := Forall_nil _) (5 := Ed).
    - intros def field. apply parseField_named.
    - intros def index Hx. apply parseInlineIndex_shape in Hx. tauto. }
  destruct Hd as [Hf Hi].
  intros H. inversion H; subst; clear H. split; [|split]; simpl.
  - apply (groupOr_identifier group1 1 reTableName _ m
             ltac:(simpl; repeat split) eq_refl eq_refl En).
  - apply Forall_map. exact Hf.
  - apply Forall_map. eapply Forall_impl; [|exact Hi].
    intros index Hx. exact Hx.
Qed.

Lemma attachIndex_named table index :
  tableNamed table -> indexNamed index ->
  tableNamed (attachIndex table index).
Proof.
  intros (Hn & Hf & Hi) Hx. split; [|split]; simpl.
  - exact Hn.
  - apply Forall_map. eapply Forall_impl; [|exact Hf].
    intros field Hfield. destruct (coversField _ field); exact Hfield.
  - apply Forall_app. split; [exact Hi|].
    constructor; [exact Hx|constructor].
Qed.

(** X14. Every name in a result is an identifier, a non-empty run of
    letters, digits and underscores: the names of the tables, of their
    fields, of their indexes and of the columns of the indexes, and the
    table, index and column names of the standalone indexes. *)
Theorem parseDDL_names_are_identifiers (ddl : string) (r : DDLParseResult) :
  parseDDL ddl = Ok r ->
  Forall tableNamed (tables r) /\
  Forall (fun indexResult =>
            isIdentifier (si_tableName indexResult) = true /\
            indexNamed (si_index indexResult))
    (standaloneIndexes r).
Proof.
  intros H.
  destruct (inv_parseDDL (fun _ table => tableNamed table)
              (fun indexResult =>
                 isIdentifier (si_tableName indexResult) = true /\
                 indexNamed (si_index indexResult)))
    with (ddl := ddl) (r := r) as (tables' & Ht & _ & Hp & Hq); auto.
  - intros stmt table. apply parseCreateTable_named.
  - intros stmt indexResult key table Hi Hn.
    apply attachIndex_named; [exact Hn|].
    apply parseCreateIndex_named in Hi. tauto.
  - apply parseCreateIndex_named.
  - split; [|exact Hq].
    rewrite Ht. unfold Obj.values. apply Forall_map. exact Hp.
Qed.

Lemma parseDDL_names_are_identifiers_witness :
  exists r,
    parseDDL ("CREATE TABLE `t-1` (`a b` INT, c INT, KEY `k` (`c`));"
              +++ "CREATE INDEX i ON u (x, `y z`)") = Ok r /\
    map tableName (tables r) = ["t"] /\
    Forall tableNamed (tables r) /\
    Forall (fun indexResult =>
              isIdentifier (si_tableName indexResult) = true /\
              indexNamed (si_index indexResult))
      (standaloneIndexes r).
Proof.
  eexists. split; [vm_compute; reflexivity|]. split; [reflexivity|].
  apply (parseDDL_names_are_identifiers
           ("CREATE TABLE `t-1` (`a b` INT, c INT, KEY `k` (`c`));"
            +++ "CREATE INDEX i ON u (x, `y z`)")).
  vm_compute. reflexivity.
Defined.

(** X15. The indexes that [parseCreateTable] takes from the body of the
    statement have at least one column each and are never of the type
    [SPATIAL]; the index of the primary key is named [PRIMARY]. *)
Theorem parseCreateTable_inline_indexes (stmt : string) (table : TableInfo) :
  parseCreateTable stmt = Ok table ->
  Forall (fun index =>
            ix_columns index <> [] /\ ix_type index <> SPATIAL /\
            (ix_type index = PRIMARY -> ix_name index = "PRIMARY"))
    (indexes table).
Proof.
  unfold parseCreateTable.
  destruct (exec reTableName stmt) as [m|] eqn:En; [|discriminate].
  destruct (exec reTableContent stmt); [|discriminate].
  destruct (definitionsLoop _ [] []) as [fs ixs] eqn:Ed.
  assert (Hd : Forall (fun _ => True) fs /\
               Forall (fun index =>
                         ix_columns index <> [] /\
                         ix_type index <> SPATIAL /\
                         (ix_type index = PRIMARY ->
                          ix_name index = "PRIMARY")) ixs).
  { apply (definitionsLoop_shape _ _) with (3 := Forall_nil _)
      (4 := Forall_nil _) (5 := Ed).
    - auto.
    - intros def index Hx. apply parseInlineIndex_shape in Hx. tauto. }
  destruct Hd as [_ Hi].
  intros H. inversion H; subst; clear H. simpl.
  apply Forall_map. eapply Forall_impl; [|exact Hi].
  intros index Hx. exact Hx.
Qed.

Lemma parseCreateTable_inline_indexes_witness :
  exists table,
    parseCreateTable
      "CREATE TABLE t (a INT, PRIMARY KEY (a), SPATIAL KEY s (a), KEY k ())"
    = Ok table /\
    map ix_name (indexes table) = ["PRIMARY"] /\
    Forall (fun index =>
              ix_columns index <> [] /\ ix_type index <> SPATIAL /\
              (ix_type index = PRIMARY -> ix_name index = "PRIMARY"))
      (indexes table).
Proof.
  eexists. split; [vm_compute; reflexivity|]. split; [reflexivity|].
  apply (parseCreateTable_inline_indexes
    "CREATE TABLE t (a INT, PRIMARY KEY (a), SPATIAL KEY s (a), KEY k ())").
  vm_compute. reflexivity.
Defined.

End DdlMore.

(* ================================================================== *)
(** ** Further properties of the PHP-array converter *)

Module PhpMore.
Import Regex Php ParserSpec PhpSpec RegexMore.

(** *** Replacement of a literal text *)

Lemma app_assoc_str a b c : (a +++ b) +++ c = a +++ (b +++ c).
Proof. induction a as [|x a IH]; simpl; [reflexivity|]. rewrite IH. reflexivity. Qed.

Lemma app_empty_str a : a +++ EmptyString = a.
Proof. induction a as [|x a IH]; simpl; [reflexivity|]. rewrite IH. reflexivity. Qed.

Lemma sub_succ_same n : S n - n = 1.
Proof. lia. Qed.

Lemma sub_succ2_same n : S (S n) - n = 2.
Proof. lia. Qed.

Lemma replaceLoop_char c repl :
  forall fuel p str,
    String.length str < fuel ->
    replaceLoop fuel (chr c) (fun _ => repl) p str = replaceChar c repl str.
Proof.
  induction fuel as [|fuel IH]; intros p str Hlen; [lia|].
  destruct str as [|x str]; [reflexivity|].
  cbn [replaceLoop replaceChar]. unfold matchAt, chr.
  cbn [run rest caps]. destruct (Ascii.eqb c x).
  - cbn [rest caps String.length]. rewrite sub_succ_same.
    cbn [Js.take Js.lastChar]. f_equal. apply IH. simpl in Hlen |- *. lia.
  - f_equal. apply IH. simpl in Hlen |- *. lia.
Qed.

Lemma replaceLit_char c repl str :
  replaceLit (Js.str1 c) repl str = replaceChar c repl str.
Proof.
  unfold replaceLit, replaceAll. cbn [lit Js.str1].
  apply replaceLoop_char. lia.
Qed.

Lemma replaceLoop_pair a b repl :
  forall fuel p str,
    String.length str < fuel ->
    replaceLoop fuel (Cat (chr a) (chr b)) (fun _ => repl) p str
    = replacePair a b repl str.
Proof.
  induction fuel as [|fuel IH]; intros p str Hlen; [lia|].
  destruct str as [|x str]; [reflexivity|].
  cbn [replaceLoop replacePair]. unfold matchAt, chr.
  cbn [run rest caps]. destruct (Ascii.eqb a x); cbn [andb].
  - destruct str as [|y str].
    + cbn [rest]. destruct fuel; reflexivity.
    + cbn [rest caps]. destruct (Ascii.eqb b y).
      * cbn [rest caps String.length]. rewrite sub_succ2_same.
        cbn [Js.take Js.lastChar]. f_equal. apply IH. simpl in Hlen |- *. lia.
      * f_equal. apply IH. simpl in Hlen |- *. lia.
  - destruct str as [|y str].
    + destruct fuel; reflexivity.
    + f_equal. apply IH. simpl in Hlen |- *. lia.
Qed.

Lemma replaceLit_pair a b repl str :
  replaceLit (String a (Js.str1 b)) repl str = replacePair a b repl str.
Proof.
  unfold replaceLit, replaceAll. cbn [lit Js.str1].
  apply replaceLoop_pair. lia.
Qed.

(** *** Escaping and unescaping a string without backslash *)

Lemma replaceChar_app c repl a b :
  replaceChar c repl (a +++ b)
  = replaceChar c repl a +++ replaceChar c repl b.
Proof.
  induction a as [|x a IH]; simpl; [reflexivity|].
  destruct (Ascii.eqb c x); rewrite IH; [|reflexivity].
  rewrite app_assoc_str. reflexivity.
Qed.

Lemma escapeString_chars str :
  escapeString str =
  replaceChar Js.TAB (bs +++ "t")
    (replaceChar Js.CR (bs +++ "r")
       (replaceChar Js.LF (bs +++ "n")
          (replaceChar Js.SQUOTE (bs +++ sq)
             (replaceChar Js.BACKSLASH (bs +++ bs) str)))).
Proof.
  unfold escapeString, sq, bs. rewrite !replaceLit_char. reflexivity.
Qed.

Lemma unescapeString_pairs str :
  unescapeString str =
  replacePair Js.BACKSLASH Js.BACKSLASH bs
    (replacePair Js.BACKSLASH Js.DQUOTE dq
       (replacePair Js.BACKSLASH Js.SQUOTE sq
          (replacePair Js.BACKSLASH "t" (Js.str1 Js.TAB)
             (replacePair Js.BACKSLASH "r" (Js.str1 Js.CR)
                (replacePair Js.BACKSLASH "n" (Js.str1 Js.LF) str))))).
Proof. rewrite <- !replaceLit_pair. reflexivity. Qed.

Lemma escapeString_app a b :
  escapeString (a +++ b) = escapeString a +++ escapeString b.
Proof. rewrite !escapeString_chars, !replaceChar_app. reflexivity. Qed.

Lemma eqb_other (c x : ascii) : x <> c -> Ascii.eqb c x = false.
Proof. intros H. apply Ascii.eqb_neq. congruence. Qed.

Lemma escapeString_one x :
  x <> Js.BACKSLASH -> escapeString (Js.str1 x) = escapeChar x.
Proof.
  intros Hb. rewrite escapeString_chars. unfold escapeChar.
  destruct (Ascii.eqb_spec x Js.SQUOTE) as [->|H1]; [reflexivity|].
  destruct (Ascii.eqb_spec x Js.LF) as [->|H2]; [reflexivity|].
  destruct (Ascii.eqb_spec x Js.CR) as [->|H3]; [reflexivity|].
  destruct (Ascii.eqb_spec x Js.TAB) as [->|H4]; [reflexivity|].
  unfold Js.str1. cbn [replaceChar].
  rewrite (eqb_other _ _ Hb). cbn [replaceChar].
  rewrite (eqb_other _ _ H1). cbn [replaceChar].
  rewrite (eqb_other _ _ H2). cbn [replaceChar].
  rewrite (eqb_other _ _ H3). cbn [replaceChar].
  rewrite (eqb_other _ _ H4). reflexivity.
Qed.

Lemma noBackslash_cons x str :
  noBackslash (String x str) = true ->
  x <> Js.BACKSLASH /\ noBackslash str = true.
Proof.
  unfold noBackslash. simpl. rewrite andb_true_iff, negb_true_iff.
  intros [H1 H2]. split; [|exact H2]. apply Ascii.eqb_neq, H1.
Qed.

Lemma escapeString_flatMap str :
  noBackslash str = true -> escapeString str = flatMap escapeChar str.
Proof.
  induction str as [|x str IH]; intros H; [reflexivity|].
  apply noBackslash_cons in H. destruct H as [Hx Hs].
  change (String x str) with (Js.str1 x +++ str).
  rewrite escapeString_app, escapeString_one, IH by assumption.
  reflexivity.
Qed.

Lemma replacePair_plain a b repl y str :
  y <> a ->
  replacePair a b repl (String y str) = String y (replacePair a b repl str).
Proof.
  intros H. cbn [replacePair]. destruct str as [|z str]; [reflexivity|].
  rewrite (eqb_other _ _ H). reflexivity.
Qed.

Lemma replacePair_hit a b repl str :
  replacePair a b repl (String a (String b str))
  = repl +++ replacePair a b repl str.
Proof. cbn [replacePair]. rewrite !Ascii.eqb_refl. reflexivity. Qed.

Lemma replacePair_miss a b repl z str :
  z <> b -> z <> a ->
  replacePair a b repl (String a (String z str))
  = String a (String z (replacePair a b repl str)).
Proof.
  intros Hb Ha. rewrite <- (replacePair_plain a b repl z str Ha).
  cbn [replacePair]. rewrite (eqb_other _ _ Hb), andb_false_r. reflexivity.
Qed.

Ltac differ := assumption || (vm_compute; discriminate).

Ltac passPairs :=
  repeat (rewrite replacePair_hit
          || (rewrite replacePair_miss by differ)
          || (rewrite replacePair_plain by differ)).

Lemma unescapeString_flatMap str :
  noBackslash str = true -> unescapeString (flatMap escapeChar str) = str.
Proof.
  induction str as [|x str IH]; intros H; [reflexivity|].
  apply noBackslash_cons in H. destruct H as [Hx Hs].
  specialize (IH Hs). rewrite unescapeString_pairs in IH |- *.
  cbn [flatMap]. unfold escapeChar at 1.
  destruct (Ascii.eqb_spec x Js.SQUOTE) as [->|H1].
  { cbn [String.append bs sq Js.str1]. passPairs.
    cbn [String.append sq Js.str1]. passPairs. rewrite IH. reflexivity. }
  destruct (Ascii.eqb_spec x Js.LF) as [->|H2].
  { cbn [String.append bs Js.str1]. passPairs.
    cbn [String.append Js.str1]. passPairs. rewrite IH. reflexivity. }
  destruct (Ascii.eqb_spec x Js.CR) as [->|H3].
  { cbn [String.append bs Js.str1]. passPairs.
    cbn [String.append Js.str1]. passPairs. rewrite IH. reflexivity. }
  destruct (Ascii.eqb_spec x Js.TAB) as [->|H4].
  { cbn [String.append bs Js.str1]. passPairs.
    cbn [String.append Js.str1]. passPairs. rewrite IH. reflexivity. }
  cbn [String.append Js.str1]. passPairs. rewrite IH. reflexivity.
Qed.

(** X16. [unescapeString] undoes the escaping of [convertToPHP] on every
    string without backslash, whatever quotes, line breaks and tabs it
    has. *)
Theorem unescapeString_escapeString (str : string) :
  noBackslash str = true -> unescapeString (escapeString str) = str.
Proof.
  intros H. rewrite escapeString_flatMap by exact H.
  apply unescapeString_flatMap, H.
Qed.

Lemma unescapeString_escapeString_witness :
  let str := "it's " +++ Js.str1 Js.DQUOTE +++ "so" +++ Js.str1 Js.DQUOTE
             +++ Js.str1 Js.LF +++ Js.str1 Js.TAB +++ "said" in
  unescapeString (escapeString str) = str.
Proof.
  apply unescapeString_escapeString. vm_compute. reflexivity.
Defined.

(** *** A printed string read back by the strict parser *)

Lemma scanString_escaped after :
  forall str value,
    noBackslash str = true ->
    scanString Js.SQUOTE (flatMap escapeChar str +++ String Js.SQUOTE after)
      value
    = (value +++ flatMap escapeChar str, after).
Proof.
  induction str as [|x str IH]; intros value H.
  - simpl. rewrite app_empty_str. reflexivity.
  - apply noBackslash_cons in H. destruct H as [Hx Hs].
    assert (Hesc : forall z,
      scanString Js.SQUOTE
        (String Js.BACKSLASH (String z (flatMap escapeChar str))
         +++ String Js.SQUOTE after) value
      = (value +++ String Js.BACKSLASH (String z (flatMap escapeChar str)),
         after)).
    { intros z. cbn [String.append scanString].
      replace (Ascii.eqb Js.BACKSLASH Js.SQUOTE) with false by reflexivity.
      rewrite Ascii.eqb_refl, IH by exact Hs.
      rewrite app_assoc_str. reflexivity. }
    cbn [flatMap].
    destruct (Ascii.eqb_spec x Js.SQUOTE) as [->|H1]; [apply Hesc|].
    destruct (Ascii.eqb_spec x Js.LF) as [->|H2]; [apply Hesc|].
    destruct (Ascii.eqb_spec x Js.CR) as [->|H3]; [apply Hesc|].
    destruct (Ascii.eqb_spec x Js.TAB) as [->|H4]; [apply Hesc|].
    assert (Hg : escapeChar x = Js.str1 x).
    { unfold escapeChar.
      rewrite (proj2 (Ascii.eqb_neq x Js.SQUOTE) H1),
              (proj2 (Ascii.eqb_neq x Js.LF) H2),
              (proj2 (Ascii.eqb_neq x Js.CR) H3),
              (proj2 (Ascii.eqb_neq x Js.TAB) H4). reflexivity. }
    rewrite Hg. cbn [Js.str1 String.append scanString].
    rewrite (proj2 (Ascii.eqb_neq x Js.SQUOTE) H1),
            (proj2 (Ascii.eqb_neq x Js.BACKSLASH) Hx), IH by exact Hs.
    rewrite app_assoc_str. reflexivity.
Qed.

Lemma tokenize_printed_string str :
  noBackslash str = true ->
  tokenize (convertToPHP (VString str) 0) = [STRING str Js.SQUOTE].
Proof.
  intros H. cbn [convertToPHP]. unfold tokenize, sq, Js.str1.
  cbn [String.append String.length tokenizeLoop].
  replace (Js.isSpace Js.SQUOTE) with false by reflexivity.
  replace (Ascii.eqb Js.SQUOTE Js.DQUOTE || Ascii.eqb Js.SQUOTE Js.SQUOTE)
    with true by reflexivity.
  rewrite escapeString_flatMap by exact H.
  rewrite (scanString_escaped EmptyString str EmptyString H).
  cbn [String.append]. rewrite (unescapeString_flatMap str H).
  reflexivity.
Qed.

(** X17. A string without backslash survives the way out and back through
    the strict parser: what [convertToPHP] prints for it, at any depth of
    indentation, [smartParsePHPArray] reads as the same string. *)
Theorem smartParsePHPArray_convertToPHP_string (str : string) (indent : nat) :
  noBackslash str = true ->
  smartParsePHPArray (convertToPHP (VString str) indent)
  = Some (Ok (VString str)).
Proof.
  intros H. unfold smartParsePHPArray.
  change (convertToPHP (VString str) indent)
    with (convertToPHP (VString str) 0).
  rewrite (tokenize_printed_string str H). reflexivity.
Qed.

Lemma smartParsePHPArray_convertToPHP_string_witness :
  let str := "it's " +++ Js.str1 Js.LF +++ "two lines" in
  smartParsePHPArray (convertToPHP (VString str) 0) = Some (Ok (VString str)).
Proof.
  apply smartParsePHPArray_convertToPHP_string. vm_compute. reflexivity.
Defined.

(** *** How [parsePHPArray] ends *)

(** X18. [parsePHPArray] always ends, with a value or with the syntax
    error of [JSON.parse]: the strict parser uses up a token at every step,
    and an error that it throws is never passed on, as the degraded parser
    runs instead. *)
Theorem parsePHPArray_value_or_json_error
  (JSON_parse : string -> option PHPValue) (phpString : string) :
  (exists v, parsePHPArray JSON_parse phpString = Some (Ok v)) \/
  parsePHPArray JSON_parse phpString = Some (Throw JsonSyntaxError).
Proof.
  unfold parsePHPArray.
  destruct (Termination.smartParsePHPArray_total (cleanInput phpString))
    as [res H].
  rewrite H. destruct res as [v|e]; [left; eauto|].
  unfold simpleParsePHPArray.
  destruct (JSON_parse _) as [v|]; [left; eexists; reflexivity|].
  right. reflexivity.
Qed.

(** *** Records with the keys 0, 1, 2, ... *)

(** X19. A record whose keys are all made of digits and are, sorted, the
    numbers 0, 1, 2, ... is printed without its keys: [convertToPHP]
    prints for it what it prints for the list of its values. *)
Theorem convertToPHP_sequential_keys
  (props : list (string * PHPValue)) (indent : nat) :
  forallb (test reDigits) (Obj.keys props) = true ->
  everyIsIndex (sortZ (map Number (Obj.keys props))) 0%Z = true ->
  convertToPHP (VObject props) indent
  = convertToPHP (VArray (Obj.values props)) indent.
Proof.
  unfold PHPValue in *.
  intros Hn Hs. destruct props as [|[key0 v0] props]; [reflexivity|].
  assert (Hloop : forall l : list (string * Value),
    (fix each (l : list (string * Value)) : string :=
       match l with
       | [] => EmptyString
       | (_, v) :: l' =>
           Js.repeat "    " (indent + 1) +++
           EmptyString +++ convertToPHP v (indent + 1) +++ comma l' +++
           nl +++ each l'
       end) l
    = (fix each (l : list Value) : string :=
         match l with
         | [] => EmptyString
         | item :: l' =>
             Js.repeat "    " (indent + 1) +++
             convertToPHP item (indent + 1) +++ comma l' +++ nl +++ each l'
         end) (map snd l)).
  { induction l as [|[key v] l IH]; [reflexivity|].
    cbn [map snd]. rewrite IH. destruct l; reflexivity. }
  cbn [convertToPHP Obj.values map snd]. rewrite Hn, Hs. cbn [andb].
  f_equal. f_equal. f_equal. rewrite Hloop.
  destruct props; reflexivity.
Qed.

Lemma convertToPHP_sequential_keys_witness :
  convertToPHP (VObject [("0", VString "a"); ("1", VBool true)]) 0
  = convertToPHP (VArray [VString "a"; VBool true]) 0.
Proof.
  apply (convertToPHP_sequential_keys
           [("0", VString "a"); ("1", VBool true)] 0);
    vm_compute; reflexivity.
Defined.

(** *** The character scans of the degraded parser *)

Lemma balanceLoop_changes :
  forall str inString stringChar escaped,
    changedOnly parenToBracket str
      (balanceLoop str inString stringChar escaped) = true.
Proof.
  induction str as [|c str IH]; intros inString stringChar escaped;
    [reflexivity|].
  cbn [balanceLoop].
  repeat match goal with
         | |- context [if ?b then _ else _] => destruct b eqn:?
         end;
    cbn [changedOnly]; rewrite IH, ?Ascii.eqb_refl; try reflexivity;
    unfold parenToBracket;
    repeat match goal with
           | H : Ascii.eqb _ _ = true |- _ =>
               apply Ascii.eqb_eq in H; subst
           end; reflexivity.
Qed.

Lemma singleQuotesLoop_changes :
  forall str inDoubleQuote escaped,
    changedOnly singleToDouble str
      (singleQuotesLoop str inDoubleQuote escaped) = true.
Proof.
  induction str as [|c str IH]; intros inDoubleQuote escaped;
    [reflexivity|].
  cbn [singleQuotesLoop].
  repeat match goal with
         | |- context [if ?b then _ else _] => destruct b eqn:?
         end;
    cbn [changedOnly]; rewrite IH, ?Ascii.eqb_refl; try reflexivity;
    unfold singleToDouble;
    repeat match goal with
           | H : Ascii.eqb _ _ = true |- _ =>
               apply Ascii.eqb_eq in H; subst
           end; reflexivity.
Qed.

Lemma suffixAt_next full i c str :
  suffixAt full i (String c str) ->
  String.get i full = Some c /\ suffixAt full (S i) str.
Proof.
  intros H. split.
  - specialize (H 0). rewrite Nat.add_0_r in H. exact H.
  - intros k. specialize (H (S k)). rewrite Nat.add_succ_r in H. exact H.
Qed.

Lemma bracketsLoop_valid full :
  forall str i stack pairs inString stringChar escaped,
    suffixAt full i str ->
    Forall (validOpen full) stack -> Forall (validPair full) pairs ->
    Forall (validPair full)
      (bracketsLoop str i stack pairs inString stringChar escaped).
Proof.
  induction str as [|c str IH];
    intros i stack pairs inString stringChar escaped Hsuf Hst Hp;
    [exact Hp|].
  apply suffixAt_next in Hsuf. destruct Hsuf as [Hc Hsuf].
  cbn [bracketsLoop].
  destruct escaped; [apply IH; assumption|].
  destruct (Ascii.eqb c Js.BACKSLASH); [apply IH; assumption|].
  destruct (isQuote c).
  { destruct (negb inString); [apply IH; assumption|].
    destruct (Ascii.eqb c stringChar); apply IH; assumption. }
  destruct inString; [apply IH; assumption|].
  destruct (Ascii.eqb_spec c "[") as [->|_].
  { apply IH; [assumption| |assumption]. constructor; assumption. }
  destruct (Ascii.eqb_spec c "]") as [->|_].
  { destruct stack as [|top stack]; [apply IH; assumption|].
    inversion Hst; subst.
    apply IH; [assumption|assumption|].
    apply Forall_app. split; [assumption|].
    constructor; [|constructor]. split; assumption. }
  destruct (Ascii.eqb c ":"); [|apply IH; assumption].
  destruct stack as [|top stack]; [apply IH; assumption|].
  inversion Hst; subst.
  apply IH; [assumption| |assumption]. constructor; assumption.
Qed.

Lemma writeChar_changes (isOpen isClose : bool) c :
  (isOpen = true -> c = "["%char) -> (isClose = true -> c = "]"%char) ->
  Ascii.eqb c (if isOpen then "{" else if isClose then "}" else c)%char
  || bracketToBrace c
       (if isOpen then "{" else if isClose then "}" else c)%char = true.
Proof.
  intros Ho Hc. destruct isOpen; [rewrite Ho; reflexivity|].
  destruct isClose; [rewrite Hc; reflexivity|].
  rewrite Ascii.eqb_refl. reflexivity.
Qed.

Lemma writeBraces_changes full pairs :
  Forall (validPair full) pairs ->
  forall str i,
    suffixAt full i str ->
    changedOnly bracketToBrace str (writeBraces str i pairs) = true.
Proof.
  intros Hp. induction str as [|c str IH]; intros i Hsuf; [reflexivity|].
  apply suffixAt_next in Hsuf. destruct Hsuf as [Hc Hsuf].
  cbn [writeBraces changedOnly]. rewrite (IH _ Hsuf), andb_true_r.
  rewrite Forall_forall in Hp.
  apply writeChar_changes.
  - intros Eo. apply existsb_exists in Eo. destruct Eo as (p & Hin & Hq).
    apply andb_true_iff in Hq. destruct Hq as [_ Hq].
    apply Nat.eqb_eq in Hq. destruct (Hp p Hin) as [Ho _].
    rewrite Hq, Hc in Ho. inversion Ho; subst. reflexivity.
  - intros Ec. apply existsb_exists in Ec. destruct Ec as (p & Hin & Hq).
    apply andb_true_iff in Hq. destruct Hq as [_ Hq].
    apply Nat.eqb_eq in Hq. destruct (Hp p Hin) as [_ Hcl].
    rewrite Hq, Hc in Hcl. inversion Hcl; subst. reflexivity.
Qed.

(** X20. The three character scans of the degraded parser keep the length
    of the text and change only the characters they are for:
    [balanceParentheses] turns round parentheses into square brackets,
    [replaceSingleQuotes] single quotes into double quotes, and
    [convertBrackets] square brackets into braces; every other character
    stays in its place. *)
Theorem scans_change_only_their_characters (str : string) :
  changedOnly parenToBracket str (balanceParentheses str) = true /\
  changedOnly singleToDouble str (replaceSingleQuotes str) = true /\
  changedOnly bracketToBrace str (convertBrackets str) = true.
Proof.
  split; [apply balanceLoop_changes|].
  split; [apply singleQuotesLoop_changes|].
  unfold convertBrackets.
  assert (Hsuf : suffixAt str 0 str) by (intros k; reflexivity).
  apply (writeBraces_changes str); [|exact Hsuf].
  apply bracketsLoop_valid; [exact Hsuf|constructor|constructor].
Qed.

End PhpMore.
